(** * Hanabi bot: belief engine, clue evaluation and discard interpretation

    A shallow embedding of the reasoning core of the bot (hanabi-util,
    variants, Player, the clue finder, focus-possible, interpret-discard and
    the playful-sieve convention object), with the properties of its
    specification stated and proved over the embedding.

    JavaScript values are modelled as follows.
    - A number that the code only ever computes from integers is a [Z]; a
      read that may yield [undefined] or [NaN] is a [num] = [option Z] where
      [None] stands for "not a number" (comparisons with it are false, and
      arithmetic on it gives it back).
    - An array is a [list]; indexing out of range gives [None].
    - A thrown exception (a [TypeError] from reading a property of
      [undefined], or an explicit [throw]) is the [Throw] case of [Res]. *)

From Stdlib Require Import ZArith List String Ascii Bool Lia QArith.
From stdpp Require Import base list.
Import ListNotations.

Set Warnings "-register-all".
Local Open Scope Z_scope.

(** ** JavaScript evaluation: results, numbers, arrays *)
Module Js.

Inductive Res (A : Type) : Type :=
| Ok (a : A)
| Throw (msg : string).
Arguments Ok {A} a.
Arguments Throw {A} msg.

Definition bind {A B} (r : Res A) (k : A -> Res B) : Res B :=
  match r with
  | Ok a => k a
  | Throw m => Throw m
  end.

Definition TypeError : string := "TypeError".

(** [None] is [undefined] or [NaN]. *)
Definition num := option Z.

(** [l[i]] for a number [i]. *)
Definition at_ {A} (l : list A) (i : Z) : option A :=
  if 0 <=? i then l !! Z.to_nat i else None.

(** [l[i].prop]: reading through [undefined] throws. *)
Definition at_or_throw {A} (l : list A) (i : Z) : Res A :=
  match at_ l i with
  | Some a => Ok a
  | None => Throw TypeError
  end.

(** [l[i] = v] on an array that is only written inside its bounds by the
    code modelled here. *)
Definition set_at {A} (l : list A) (i : Z) (v : A) : list A :=
  if 0 <=? i then <[Z.to_nat i := v]> l else l.

Definition nadd (a b : num) : num :=
  match a, b with Some x, Some y => Some (x + y) | _, _ => None end.
Definition nsub (a b : num) : num :=
  match a, b with Some x, Some y => Some (x - y) | _, _ => None end.
(** [a === b] on numbers: false as soon as one side is [NaN]; the code never
    compares two [undefined]s. *)
Definition neq (a b : num) : bool :=
  match a, b with Some x, Some y => x =? y | _, _ => false end.
Definition nle (a b : num) : bool :=
  match a, b with Some x, Some y => x <=? y | _, _ => false end.
Definition nlt (a b : num) : bool :=
  match a, b with Some x, Some y => x <? y | _, _ => false end.
Definition ngt (a b : num) : bool := nlt b a.
Definition nge (a b : num) : bool := nle b a.

(** [for (let i = 0; i < n; i++)] *)
Definition range (n : Z) : list Z := List.map Z.of_nat (seq 0 (Z.to_nat n)).

(** [hay.match(/needle/)] for a pattern without metacharacters. *)
Fixpoint contains (needle hay : string) : bool :=
  String.prefix needle hay ||
  match hay with
  | EmptyString => false
  | String _ rest => contains needle rest
  end.

(** [l.filter(f)], [l.some(f)] and [l.every(f)] for a callback that may
    throw: elements are visited in order, and [some] and [every] stop at the
    first element that decides. *)
Fixpoint filter_res {A} (f : A -> Res bool) (l : list A) : Res (list A) :=
  match l with
  | [] => Ok []
  | x :: rest =>
      bind (f x) (fun keep =>
      bind (filter_res f rest) (fun kept =>
      Ok (if keep then x :: kept else kept)))
  end.

Fixpoint some_res {A} (f : A -> Res bool) (l : list A) : Res bool :=
  match l with
  | [] => Ok false
  | x :: rest => bind (f x) (fun b => if b then Ok true else some_res f rest)
  end.

(** Callbacks that read the index: [l.some((x, index) => f index x)],
    [l.findIndex(...)] (-1 when nothing is found) and [l.filter(...)], for a
    list whose first element has index [i]. *)
Fixpoint some_from {A} (i : Z) (f : Z -> A -> bool) (l : list A) : bool :=
  match l with
  | [] => false
  | x :: rest => f i x || some_from (i + 1) f rest
  end.

Fixpoint findIndex_from {A} (i : Z) (f : Z -> A -> bool) (l : list A) : Z :=
  match l with
  | [] => -1
  | x :: rest => if f i x then i else findIndex_from (i + 1) f rest
  end.

Fixpoint filter_from {A} (i : Z) (f : Z -> A -> bool) (l : list A) : list A :=
  match l with
  | [] => []
  | x :: rest => if f i x then x :: filter_from (i + 1) f rest else filter_from (i + 1) f rest
  end.

(** A [Set] of numbers, in insertion order. *)
Definition has (s : list Z) (x : Z) : bool := existsb (Z.eqb x) s.
Definition add (s : list Z) (x : Z) : list Z := if has s x then s else s ++ [x].

End Js.
Import Js.

Notation "'let*' x ':=' e 'in' k" := (Js.bind e (fun x => k))
  (at level 10, x name, e at level 100, k at level 200).

(** ** Identities, cards, states (types.js and the shapes the code reads) *)
Module Basics.

Record Identity := mkId { suitIndex : Z; rank : Z }.

(** constants.js: the two kinds of clue. *)
Inductive ClueType := COLOUR | RANK.

Record BaseClue := mkBaseClue { clue_type : ClueType; clue_value : Z }.

(** A card object. [base] is its BasicCard part; [instanceofCard] is what
    [card instanceof Card] answers. [possible] and [inferred] hold card
    objects again, as the code iterates them with [matches], [suitIndex]
    and [rank]. *)
Inductive Card := mkCard {
  base : Identity;
  order : Z;
  instanceofCard : bool;
  clued : bool;
  newly_clued : bool;
  finessed : bool;
  chop_moved : bool;
  reset : bool;
  rewinded : bool;
  drawn_index : Z;
  clues : list BaseClue;
  possible : list Card;
  inferred : list Card }.

(** types.js: Connection, WaitingConnection and Link. *)
Record Connection := mkConnection {
  conn_type : string;
  reacting : Z;
  card : Card;
  conn_identities : list Identity;
  hidden : bool }.

Record WaitingConnection := mkWaitingConnection {
  connections : list Connection;
  wc_giver : Z;
  wc_target : Z;
  conn_index : Z;
  focused_card : Card;
  inference : Identity;
  action_index : Z;
  fake : bool }.

Record ClueAction := mkClueAction {
  giver : Z;
  target : Z;
  list_ : list Z;
  clue : BaseClue }.

Record FocusPossibility := mkFocusPossibility {
  fp_suitIndex : Z;
  fp_rank : num;
  fp_connections : list Connection;
  save : bool }.

Record Link := mkLink {
  cards : list Card;
  identities : list Identity;
  promised : bool }.

(** The variant-rules object of variants.js (the fields [cardCount] reads). *)
Record Variant := mkVariant {
  suits : list string;
  criticalRank : option Z }.

(** The inferring player handed to the hanabi-util functions: callers pass a
    player index, and Player.js passes the Player object itself. Either way
    it is only compared with a loop index by [Array.includes]. *)
Inductive PlayerRef := RefIndex (i : Z) | RefObject.

Definition includes (l : list PlayerRef) (i : Z) : bool :=
  existsb (fun r => match r with RefIndex j => j =? i | RefObject => false end) l.

(** The state, with the fields the code reads. State.js is not part of the
    sources; [state_suits] is the variant-rules object: [state.suits] where
    hanabi-util hands it to [cardCount], [state.variant] in the clue finder,
    and its list of names is the [state.suits] that focus-possible indexes. *)
Record State := mkState {
  numPlayers : Z;
  ourPlayerIndex : Z;
  hands : list (list Card);
  deck : list Card;
  play_stacks : list Z;
  discard_stacks : list (list Z);
  max_ranks : list Z;
  hypo_stacks : list (list Z);
  state_suits : Variant;
  score : Z;
  cardsLeft : Z;
  early_game : bool;
  clue_tokens : Z }.

(** Options of [Card.matches] and [Card.identity]: an absent key reads as
    false. *)
Record MatchOptions := mkMatchOptions {
  opt_infer : bool; opt_symmetric : bool; opt_assume : bool }.
Definition no_options := mkMatchOptions false false false.
Definition assume_true := mkMatchOptions false false true.
Definition infer_true := mkMatchOptions true false false.

(** Card.js, Hand.js, IdentitySet.js and State.js are not part of the
    sources: the methods the code calls on cards, hands, identity sets and
    the state are the members of this interface. *)
Class CardApi := {
  matches : Card -> Identity -> MatchOptions -> bool;
  identity : Card -> MatchOptions -> option Card;
  findCards : list Card -> Identity -> MatchOptions -> list Card;
  saved : Card -> bool;
  matches_inferences : Card -> bool;
  possibilities : Card -> list Card;
  subtract : list Card -> list Identity -> list Card;
  state_isBasicTrash : State -> Card -> bool }.

End Basics.
Import Basics.

(** ** variants.js *)
Module Variants.

Definition dark (suit : string) : bool :=
  contains "Black" suit || contains "Dark" suit || contains "Gray" suit || contains "Cocoa" suit.

Definition cardCount (variant : Variant) (id : Identity) : Res num :=
  let* suit := at_or_throw (suits variant) (suitIndex id) in
  if dark suit then Ok (Some 1)
  else if (match criticalRank variant with Some r => r =? rank id | None => false end)
  then Ok (Some 1)
  else Ok (at_ [3; 2; 2; 2; 1] (rank id - 1)).

End Variants.
Import Variants.

(** ** basics/hanabi-util.js *)
Module HanabiUtil.
Section WithCards.
Context `{CardApi}.

Record FindOptions := mkFindOptions {
  fo_symmetric : option (list PlayerRef);
  fo_infer : option (list PlayerRef);
  fo_ignore : option (list PlayerRef);
  fo_ignoreCM : bool }.
Definition no_find_options := mkFindOptions None None None false.

Definition visibleFind (state : State) (inferringPlayerIndex : PlayerRef)
    (id : Identity) (options : FindOptions) : Res (list Card) :=
  fold_left (fun acc i =>
      let* found := acc in
      if (match fo_ignore options with Some l => includes l i | None => false end)
      then Ok found
      else
        let* hand := at_or_throw (hands state) i in
        let find_options := {|
          opt_infer := includes (default [inferringPlayerIndex; RefIndex (ourPlayerIndex state)]
                                         (fo_infer options)) i;
          opt_symmetric := includes (default [inferringPlayerIndex] (fo_symmetric options)) i;
          opt_assume := false |} in
        Ok (found ++ findCards hand id find_options))
    (range (numPlayers state)) (Ok []).

Definition baseCount (state : State) (id : Identity) : Res num :=
  let played := if nge (at_ (play_stacks state) (suitIndex id)) (Some (rank id)) then 1 else 0 in
  let* row := at_or_throw (discard_stacks state) (suitIndex id) in
  Ok (nadd (Some played) (at_ row (rank id - 1))).

Definition unknownIdentities (state : State) (playerIndex : PlayerRef) (id : Identity) : Res num :=
  let* visible := visibleFind state playerIndex id
                    (mkFindOptions None None (Some [playerIndex]) false) in
  let visibleCount := Z.of_nat (length visible) in
  let* total := cardCount (state_suits state) id in
  let* based := baseCount state id in
  Ok (nsub (nsub total based) (Some visibleCount)).

Definition isCritical (state : State) (id : Identity) : Res bool :=
  let* row := at_or_throw (discard_stacks state) (suitIndex id) in
  let* total := cardCount (state_suits state) id in
  Ok (neq (at_ row (rank id - 1)) (nsub total (Some 1))).

Definition isBasicTrash (state : State) (id : Identity) : bool :=
  nle (Some (rank id)) (at_ (play_stacks state) (suitIndex id))
  || ngt (Some (rank id)) (at_ (max_ranks state) (suitIndex id)).

Definition isSaved (state : State) (inferringPlayerIndex : PlayerRef) (id : Identity)
    (order_ : Z) (options : FindOptions) : Res bool :=
  let* found := visibleFind state inferringPlayerIndex id options in
  Ok (existsb (fun c =>
        negb (order c =? order_)
        && (finessed c || clued c || (if fo_ignoreCM options then false else chop_moved c))
        && matches c id assume_true) found).

Definition isTrash (state : State) (inferringPlayerIndex : PlayerRef) (id : Identity)
    (order_ : Z) (options : FindOptions) : Res bool :=
  if isBasicTrash state id then Ok true
  else isSaved state inferringPlayerIndex id order_ options.

Definition playableAway (state : State) (id : Identity) : num :=
  nsub (Some (rank id)) (nadd (at_ (play_stacks state) (suitIndex id)) (Some 1)).

Definition getPace (state : State) : Res Z :=
  match max_ranks state with
  | [] => Throw TypeError
  | m :: rest =>
      let maxScore := fold_left (fun acc curr => acc + curr) rest m in
      Ok (score state + cardsLeft state + numPlayers state - maxScore)
  end.

Definition unique2 (state : State) (card : Identity) : Res bool :=
  if negb (rank card =? 2) then Ok false
  else if negb (nlt (at_ (play_stacks state) (suitIndex card)) (Some 2)) then Ok false
  else
    let* found := visibleFind state (RefIndex (ourPlayerIndex state)) card no_find_options in
    if negb (Z.of_nat (length found) =? 1) then Ok false
    else
      let* ours := at_or_throw (hands state) (ourPlayerIndex state) in
      Ok (negb (existsb (fun c => matches c card infer_true) ours)).

(** A JavaScript number that may be a fraction: [None] is [NaN]. A number is
    a double, held as the rational it stands for; integers are taken as
    exact everywhere, and the results of [+] and [/] on fractions are
    rounded to the nearest double, ties to the even mantissa. Magnitudes
    beyond the largest double, which JavaScript turns into an infinity, and
    the sign of zero are left out. *)
Definition qnum := option Q.

(** For [a, d > 0]: the [e] with [2 ^ e <= a / d < 2 ^ (e + 1)]. *)
Definition binade (a d : Z) : Z :=
  let e0 := Z.log2 a - Z.log2 d in
  if d * 2 ^ Z.max e0 0 <=? a * 2 ^ Z.max (- e0) 0 then e0 else e0 - 1.

(** [n / d] rounded to the nearest integer, a tie to the even one. *)
Definition round_half_even (n d : Z) : Z :=
  let f := n / d in
  let r := n mod d in
  if 2 * r <? d then f
  else if d <? 2 * r then f + 1
  else if Z.even f then f else f + 1.

(** The double nearest to [n / d]: a mantissa of 53 bits above the smallest
    exponent, -1074. *)
Definition round_ratio (n : Z) (d : positive) : Q :=
  let a := Z.abs n in
  if a =? 0 then 0%Q
  else
    let e := Z.max (binade a (Zpos d) - 52) (-1074) in
    let m := round_half_even (a * 2 ^ Z.max (- e) 0) (Zpos d * 2 ^ Z.max e 0) in
    Qred ((Z.sgn n * m * 2 ^ Z.max e 0) # Z.to_pos (2 ^ Z.max (- e) 0)).

Definition to_double (x : Q) : Q := round_ratio (Qnum (Qred x)) (Qden (Qred x)).

(** [a + b] *)
Definition qadd (a b : qnum) : qnum :=
  match a, b with Some x, Some y => Some (to_double (x + y)) | _, _ => None end.

(** [sum / n] for an array length [n]: [0 / 0] is [NaN], and the sum of an
    empty array is [0]. *)
Definition qdiv_length (sum : qnum) (n : nat) : qnum :=
  match n with
  | O => None
  | S _ => match sum with
           | Some s => Some (to_double (s / inject_Z (Z.of_nat n)))
           | None => None
           end
  end.

Definition of_num (n : num) : qnum := option_map inject_Z n.

(** The cases of [cardValue] for a card that is not an unknown card of our
    own hand. *)
Definition cardValue_known (state : State) (card : Identity) (order_ : Z) : Res qnum :=
  let* trash := isTrash state (RefIndex (ourPlayerIndex state)) card order_ no_find_options in
  let* dup := (if trash then Ok true
               else let* found := visibleFind state (RefIndex (ourPlayerIndex state)) card
                                    no_find_options in
                    Ok (1 <? Z.of_nat (length found))) in
  if dup then Ok (Some 0%Q)
  else
    let* crit := isCritical state card in
    if crit then Ok (Some (inject_Z 5))
    else
      let* u2 := unique2 state card in
      if u2 then Ok (Some (inject_Z 4))
      else
        let* ours := at_or_throw (hypo_stacks state) (ourPlayerIndex state) in
        Ok (of_num (nsub (Some 5) (nsub (Some (rank card)) (at_ ours (suitIndex card))))).

Fixpoint cardValue (state : State) (card : Card) (order_ : Z) {struct card} : Res qnum :=
  match card with
  | mkCard b _ isCard _ _ _ _ _ _ _ _ poss _ =>
      if (suitIndex b =? -1) && isCard then
        let* sum := fold_left (fun acc curr =>
                        let* s := acc in
                        let* v := cardValue state curr (-1) in
                        Ok (qadd s v))
                      poss (Ok (Some 0%Q)) in
        Ok (qdiv_length sum (length poss))
      else cardValue_known state b order_
  end.

End WithCards.
End HanabiUtil.

(** ** basics/Player.js: the hypothetical stacks *)
Module PlayerJs.

Record Player := mkPlayer {
  playerIndex : Z;
  all_possible : list Card;
  all_inferred : list Card;
  hypo_stacks : list Z;
  thoughts : list Card;
  links : list Link;
  unknown_plays : list Z;
  waiting_connections : list WaitingConnection }.

(** The warnings of [update_hypo_stacks], in the order the logger receives
    them. *)
Inductive Warning :=
| TriedToAddLink (id : Identity) (stack : num)
| TriedToAddCard (card : Card) (stack : num).

(** The variables of the [while] loop. *)
Record Loop := mkLoop {
  stacks : list Z;
  plays : list Z;
  good_touch_elim : list Identity;
  found_new_playable : bool;
  warnings : list Warning }.

Definition with_inferred (c : Card) (inf : list Card) : Card :=
  mkCard (base c) (order c) (instanceofCard c) (clued c) (newly_clued c) (finessed c)
    (chop_moved c) (reset c) (rewinded c) (drawn_index c) (clues c) (possible c) inf.

Section WithCards.
Context `{CardApi}.

(** [linkedOrders(state)]: the orders of the links with more cards than
    unknown identities. [unknownIdentities] receives the Player object
    itself as its inferring player. *)
Definition linkedOrders (p : Player) (state : State) : Res (list Z) :=
  let* unknownLinks :=
    filter_res (fun link =>
        let* sum := fold_left (fun acc id =>
                        let* s := acc in
                        let* u := HanabiUtil.unknownIdentities state RefObject id in
                        Ok (nadd s u))
                      (identities link) (Ok (Some 0)) in
        Ok (ngt (Some (Z.of_nat (length (cards link)))) sum))
      (links p) in
  Ok (flat_map (fun link => List.map order (cards link)) unknownLinks).

(** [thinksTrash(state, playerIndex)]: the cards of the hand whose every
    possibility is basic trash or visible elsewhere. *)
Definition visible_elsewhere (p : Player) (state : State) (id : Card) (order_ : Z) : Res bool :=
  some_res (fun c =>
      let* thought := at_or_throw (thoughts p) (order c) in
      Ok (matches thought (base id) infer_true
          && (clued c || finessed thought)
          && negb (order c =? order_)
          && negb (existsb (fun link => existsb (fun lc => order lc =? order_) (cards link))
                     (links p))))
    (concat (hands state)).

(** [l.map(f)] for a callback that may throw. *)
Fixpoint map_res {A B} (f : A -> Res B) (l : list A) : Res (list B) :=
  match l with
  | [] => Ok []
  | x :: rest => let* y := f x in let* ys := map_res f rest in Ok (y :: ys)
  end.

(** For a card found to be trash, the message handed to [logger.debug] is
    built before the call: it asks [visible_elsewhere] again, for every
    possibility. *)
Definition thinksTrash (p : Player) (state : State) (playerIndex_ : Z) : Res (list Card) :=
  let* hand := at_or_throw (hands state) playerIndex_ in
  filter_res (fun c =>
      let* thought := at_or_throw (thoughts p) (order c) in
      let* not_trash :=
        some_res (fun poss =>
            if state_isBasicTrash state poss then Ok false
            else let* elsewhere := visible_elsewhere p state poss (order c) in
                 Ok (negb elsewhere))
          (possibilities thought) in
      if negb not_trash then
        let* logged := map_res (fun poss => visible_elsewhere p state poss (order c))
                         (possibilities thought) in
        Ok true
      else Ok false)
    hand.

Definition delayed_playable (st : Loop) (poss : list Card) : bool :=
  let remaining_poss :=
    List.filter (fun c => negb (existsb (fun e => matches c e no_options) (good_touch_elim st)))
      poss in
  (0 <? Z.of_nat (length remaining_poss))
  && forallb (fun c => neq (nadd (at_ (stacks st) (suitIndex (base c))) (Some 1))
                           (Some (rank (base c))))
       remaining_poss.

(** [state.deck[wc.focused_card.order].matches(wc.inference, { assume: true })] *)
Definition deck_matches_inference (state : State) (wc : WaitingConnection) : Res bool :=
  let* actual := at_or_throw (deck state) (order (focused_card wc)) in
  Ok (matches actual (inference wc) assume_true).

(** [wc.connections.some((conn, index) => index >= wc.conn_index && conn.card.order === order)] *)
Definition in_remaining_chain (wc : WaitingConnection) (order_ : Z) : bool :=
  some_from 0 (fun index conn => (conn_index wc <=? index) && (order (card conn) =? order_))
    (connections wc).

Definition fake_wcs (p : Player) (state : State) (order_ : Z) : Res (list WaitingConnection) :=
  filter_res (fun wc =>
      if negb (order (focused_card wc) =? order_) then Ok false
      else if fake wc then Ok true
      else let* ok := deck_matches_inference state wc in Ok (negb ok))
    (waiting_connections p).

(** The guard "Do not allow false updating of hypo stacks". *)
Definition false_update (p : Player) (state : State) (st : Loop) (order_ : Z)
    (id actual_id : option Card) : Res bool :=
  if negb (playerIndex p =? -1) then Ok false
  else if (match id, actual_id with
           | Some i, Some a => negb (matches i (base a) no_options)
           | _, _ => false
           end) then Ok true
  else if (match actual_id with
           | Some a => existsb (fun c => has (plays st) (order c) && matches c (base a) no_options)
                         (concat (hands state))
           | None => false
           end) then Ok true
  else
    let* only_fake :=
      some_res (fun wc =>
          let* ok := deck_matches_inference state wc in
          Ok (negb ok && in_remaining_chain wc order_))
        (waiting_connections p) in
    if negb only_fake then Ok false
    else
      let* real :=
        some_res (fun wc =>
            let* ok := deck_matches_inference state wc in
            Ok (ok && in_remaining_chain wc order_))
          (waiting_connections p) in
      Ok (negb real).

(** [hypo_stacks[suitIndex] = rank; good_touch_elim.push(id); found_new_playable = true] *)
Definition advance (st : Loop) (id : Identity) : Loop :=
  mkLoop (set_at (stacks st) (suitIndex id) (rank id)) (plays st)
    (good_touch_elim st ++ [id]) true (warnings st).

Definition warn (st : Loop) (w : Warning) : Loop :=
  mkLoop (stacks st) (plays st) (good_touch_elim st) (found_new_playable st)
    (warnings st ++ [w]).

Definition next_rank (st : Loop) (id : Identity) : bool :=
  neq (Some (rank id)) (nadd (at_ (stacks st) (suitIndex id)) (Some 1)).

(** [unknown_plays.add(order)] *)
Definition record_play (st : Loop) (order_ : Z) : Loop :=
  mkLoop (stacks st) (add (plays st) order_) (good_touch_elim st)
    (found_new_playable st) (warnings st).

(** The branch [id === undefined]: the play is recorded as unknown, and the
    last card of a promised link plays the link's first identity. *)
Definition unknown_play (p : Player) (st : Loop) (order_ : Z) : Res Loop :=
  let st1 := record_play st order_ in
  match List.find (fun link => promised link
                               && existsb (fun c => order c =? order_) (cards link))
          (links p) with
  | None => Ok st1
  | Some promised_link =>
      if forallb (fun c => has (plays st1) (order c)) (cards promised_link) then
        match identities promised_link with
        | [] => Throw TypeError
        | id0 :: _ =>
            if negb (next_rank st1 id0)
            then Ok (warn st1 (TriedToAddLink id0 (at_ (stacks st1) (suitIndex id0))))
            else Ok (advance st1 id0)
        end
      else Ok st1
  end.

(** The branch of a card whose identity [id] is known to the player. *)
Definition known_play (st : Loop) (c : Card) (id : Card) : Loop :=
  if negb (next_rank st (base id))
  then warn st (TriedToAddCard c (at_ (stacks st) (suitIndex (base id))))
  else advance st (base id).

(** The condition of the [if] that guards the body: the card, once the
    inferences of the waiting connections that will be proven wrong are
    taken away, matches its inferences and is delayed playable. *)
Definition playable_now (p : Player) (state : State) (st : Loop) (order_ : Z) (c : Card)
    : Res bool :=
  let* fakes := fake_wcs p state order_ in
  let diff := with_inferred c (subtract (inferred c) (List.map inference fakes)) in
  Ok (matches_inferences diff
      && (delayed_playable st (possible diff)
          || delayed_playable st (inferred diff)
          || (finessed diff && delayed_playable st [c]))).

(** One iteration of [for (const { order } of state.hands.flat())]. *)
Definition visit (p : Player) (state : State) (linked_orders : list Z)
    (st : Loop) (order_ : Z) : Res Loop :=
  let* c := at_or_throw (thoughts p) order_ in
  if negb (saved c)
     || existsb (fun e => matches c e no_options) (good_touch_elim st)
     || has linked_orders order_
  then Ok st
  else
    let* playable := playable_now p state st order_ c in
    if playable then
      let id := identity c infer_true in
      let* actual := at_or_throw (deck state) order_ in
      let actual_id := identity actual no_options in
      let* skip := false_update p state st order_ id actual_id in
      if skip then Ok st
      else match id with
           | None => unknown_play p st order_
           | Some i => Ok (known_play st c i)
           end
    else Ok st.

Definition hand_orders (state : State) : list Z := List.map order (concat (hands state)).

Definition scan (p : Player) (state : State) (linked_orders : list Z) (st : Loop) : Res Loop :=
  fold_left (fun acc order_ => let* s := acc in visit p state linked_orders s order_)
    (hand_orders state) (Ok st).

Definition clear_found (st : Loop) : Loop :=
  mkLoop (stacks st) (plays st) (good_touch_elim st) false (warnings st).

(** [while (found_new_playable) { found_new_playable = false; for ... }]
    entered with [found_new_playable = true]; [None] when [fuel] passes were
    not enough. *)
Fixpoint hypo_loop (fuel : nat) (p : Player) (state : State) (linked_orders : list Z)
    (st : Loop) : option (Res Loop) :=
  match fuel with
  | O => None
  | S fuel' =>
      match scan p state linked_orders (clear_found st) with
      | Throw m => Some (Throw m)
      | Ok st' =>
          if found_new_playable st' then hypo_loop fuel' p state linked_orders st'
          else Some (Ok st')
      end
  end.

Definition with_hypo (p : Player) (st : Loop) : Player :=
  mkPlayer (playerIndex p) (all_possible p) (all_inferred p) (stacks st) (thoughts p)
    (links p) (plays st) (waiting_connections p).

(** [update_hypo_stacks(state)]: the player after the call and the warnings
    logged, or the exception raised. *)
Definition update_hypo_stacks (fuel : nat) (p : Player) (state : State)
    : option (Res (Player * list Warning)) :=
  match linkedOrders p state with
  | Throw m => Some (Throw m)
  | Ok linked_orders =>
      match hypo_loop fuel p state linked_orders
              (mkLoop (play_stacks state) [] [] true []) with
      | None => None
      | Some (Throw m) => Some (Throw m)
      | Some (Ok st) => Some (Ok (with_hypo p st, warnings st))
      end
  end.

(** Passes that always suffice: one per identity a card or a link can put on
    the stacks, and the last pass that finds nothing. *)
Definition enough_fuel (p : Player) (state : State) : nat :=
  S (length (hand_orders state) + length (links p)).

(** [hypo_score] *)
Definition hypo_score (p : Player) : Res Z :=
  match hypo_stacks p with
  | [] => Throw TypeError
  | s :: rest => Ok (fold_left Z.add rest s + Z.of_nat (length (unknown_plays p)))
  end.

End WithCards.
End PlayerJs.

(** ** conventions/playful-sieve.js: the convention object and its copies *)
Module PlayfulSieveJs.

(** A hand, with the reference to the state object it belongs to. *)
Record Hand := mkHand { hand_cards : list Card; hand_state : nat }.

(** The fields of a PlayfulSieve object that the file reads or writes. *)
Record Sieve := mkSieve {
  tableID : Z;
  playerNames : list string;
  ourPlayerIndex : Z;
  suits : list string;
  in_progress : bool;
  play_stacks : list Z;
  hypo_stacks : list (list Z);
  discard_stacks : list (list Z);
  max_ranks : list Z;
  hands : list Hand;
  turn_count : Z;
  clue_tokens : Z;
  strikes : Z;
  early_game : bool;
  rewindDepth : Z;
  cardsLeft : Z;
  locked_shifts : Z;
  copyDepth : Z;
  notes : list string;
  rewinds : Z }.

(** Objects live in a store and are named by their position in it; a new
    object takes the next position. *)
Definition Store := list Sieve.

(** State.js is not part of the sources: [new_State] is the object its
    constructor builds from the five arguments of [super(...)]. *)
Class StateJs := { new_State : Z -> list string -> Z -> list string -> bool -> Sieve }.

Inductive Property :=
| P_play_stacks | P_hypo_stacks | P_discard_stacks | P_max_ranks | P_hands | P_turn_count
| P_clue_tokens | P_strikes | P_early_game | P_rewindDepth | P_cardsLeft | P_locked_shifts.

Definition minimalProps : list Property :=
  [P_play_stacks; P_hypo_stacks; P_discard_stacks; P_max_ranks; P_hands; P_turn_count;
   P_clue_tokens; P_strikes; P_early_game; P_rewindDepth; P_cardsLeft; P_locked_shifts].

Definition with_locked_shifts (s : Sieve) (v : Z) : Sieve :=
  mkSieve (tableID s) (playerNames s) (ourPlayerIndex s) (suits s) (in_progress s)
    (play_stacks s) (hypo_stacks s) (discard_stacks s) (max_ranks s) (hands s) (turn_count s)
    (clue_tokens s) (strikes s) (early_game s) (rewindDepth s) (cardsLeft s) v
    (copyDepth s) (notes s) (rewinds s).

Definition with_copyDepth (s : Sieve) (v : Z) : Sieve :=
  mkSieve (tableID s) (playerNames s) (ourPlayerIndex s) (suits s) (in_progress s)
    (play_stacks s) (hypo_stacks s) (discard_stacks s) (max_ranks s) (hands s) (turn_count s)
    (clue_tokens s) (strikes s) (early_game s) (rewindDepth s) (cardsLeft s) (locked_shifts s)
    v (notes s) (rewinds s).

Definition with_notes_rewinds (s : Sieve) (n : list string) (r : Z) : Sieve :=
  mkSieve (tableID s) (playerNames s) (ourPlayerIndex s) (suits s) (in_progress s)
    (play_stacks s) (hypo_stacks s) (discard_stacks s) (max_ranks s) (hands s) (turn_count s)
    (clue_tokens s) (strikes s) (early_game s) (rewindDepth s) (cardsLeft s) (locked_shifts s)
    (copyDepth s) n r.

(** [newState[property] = Utils.objClone(this[property])], and for the hands
    [hand.state = newState] on every copied hand. A deep copy of a value is
    the value; [newState] is the position of the new object. *)
Definition copy_property (this : Sieve) (newState : nat) (dst : Sieve) (property : Property)
    : Sieve :=
  let d := dst in
  match property with
  | P_play_stacks =>
      mkSieve (tableID d) (playerNames d) (ourPlayerIndex d) (suits d) (in_progress d)
        (play_stacks this) (hypo_stacks d) (discard_stacks d) (max_ranks d) (hands d)
        (turn_count d) (clue_tokens d) (strikes d) (early_game d) (rewindDepth d)
        (cardsLeft d) (locked_shifts d) (copyDepth d) (notes d) (rewinds d)
  | P_hypo_stacks =>
      mkSieve (tableID d) (playerNames d) (ourPlayerIndex d) (suits d) (in_progress d)
        (play_stacks d) (hypo_stacks this) (discard_stacks d) (max_ranks d) (hands d)
        (turn_count d) (clue_tokens d) (strikes d) (early_game d) (rewindDepth d)
        (cardsLeft d) (locked_shifts d) (copyDepth d) (notes d) (rewinds d)
  | P_discard_stacks =>
      mkSieve (tableID d) (playerNames d) (ourPlayerIndex d) (suits d) (in_progress d)
        (play_stacks d) (hypo_stacks d) (discard_stacks this) (max_ranks d) (hands d)
        (turn_count d) (clue_tokens d) (strikes d) (early_game d) (rewindDepth d)
        (cardsLeft d) (locked_shifts d) (copyDepth d) (notes d) (rewinds d)
  | P_max_ranks =>
      mkSieve (tableID d) (playerNames d) (ourPlayerIndex d) (suits d) (in_progress d)
        (play_stacks d) (hypo_stacks d) (discard_stacks d) (max_ranks this) (hands d)
        (turn_count d) (clue_tokens d) (strikes d) (early_game d) (rewindDepth d)
        (cardsLeft d) (locked_shifts d) (copyDepth d) (notes d) (rewinds d)
  | P_hands =>
      mkSieve (tableID d) (playerNames d) (ourPlayerIndex d) (suits d) (in_progress d)
        (play_stacks d) (hypo_stacks d) (discard_stacks d) (max_ranks d)
        (List.map (fun hand => mkHand (hand_cards hand) newState) (hands this))
        (turn_count d) (clue_tokens d) (strikes d) (early_game d) (rewindDepth d)
        (cardsLeft d) (locked_shifts d) (copyDepth d) (notes d) (rewinds d)
  | P_turn_count =>
      mkSieve (tableID d) (playerNames d) (ourPlayerIndex d) (suits d) (in_progress d)
        (play_stacks d) (hypo_stacks d) (discard_stacks d) (max_ranks d) (hands d)
        (turn_count this) (clue_tokens d) (strikes d) (early_game d) (rewindDepth d)
        (cardsLeft d) (locked_shifts d) (copyDepth d) (notes d) (rewinds d)
  | P_clue_tokens =>
      mkSieve (tableID d) (playerNames d) (ourPlayerIndex d) (suits d) (in_progress d)
        (play_stacks d) (hypo_stacks d) (discard_stacks d) (max_ranks d) (hands d)
        (turn_count d) (clue_tokens this) (strikes d) (early_game d) (rewindDepth d)
        (cardsLeft d) (locked_shifts d) (copyDepth d) (notes d) (rewinds d)
  | P_strikes =>
      mkSieve (tableID d) (playerNames d) (ourPlayerIndex d) (suits d) (in_progress d)
        (play_stacks d) (hypo_stacks d) (discard_stacks d) (max_ranks d) (hands d)
        (turn_count d) (clue_tokens d) (strikes this) (early_game d) (rewindDepth d)
        (cardsLeft d) (locked_shifts d) (copyDepth d) (notes d) (rewinds d)
  | P_early_game =>
      mkSieve (tableID d) (playerNames d) (ourPlayerIndex d) (suits d) (in_progress d)
        (play_stacks d) (hypo_stacks d) (discard_stacks d) (max_ranks d) (hands d)
        (turn_count d) (clue_tokens d) (strikes d) (early_game this) (rewindDepth d)
        (cardsLeft d) (locked_shifts d) (copyDepth d) (notes d) (rewinds d)
  | P_rewindDepth =>
      mkSieve (tableID d) (playerNames d) (ourPlayerIndex d) (suits d) (in_progress d)
        (play_stacks d) (hypo_stacks d) (discard_stacks d) (max_ranks d) (hands d)
        (turn_count d) (clue_tokens d) (strikes d) (early_game d) (rewindDepth this)
        (cardsLeft d) (locked_shifts d) (copyDepth d) (notes d) (rewinds d)
  | P_cardsLeft =>
      mkSieve (tableID d) (playerNames d) (ourPlayerIndex d) (suits d) (in_progress d)
        (play_stacks d) (hypo_stacks d) (discard_stacks d) (max_ranks d) (hands d)
        (turn_count d) (clue_tokens d) (strikes d) (early_game d) (rewindDepth d)
        (cardsLeft this) (locked_shifts d) (copyDepth d) (notes d) (rewinds d)
  | P_locked_shifts => with_locked_shifts d (locked_shifts this)
  end.

Section WithState.
Context `{StateJs}.

(** [new PlayfulSieve(tableID, playerNames, ourPlayerIndex, suits, in_progress)]:
    the object of [super(...)], then the class field [locked_shifts = 0]. *)
Definition new_PlayfulSieve (tableID_ : Z) (playerNames_ : list string) (ourPlayerIndex_ : Z)
    (suits_ : list string) (in_progress_ : bool) : Sieve :=
  with_locked_shifts (new_State tableID_ playerNames_ ourPlayerIndex_ suits_ in_progress_) 0.

Definition max_depth_reached : string := "Maximum recursive depth reached.".

(** [this.createBlank()]: the new object's position and the store. *)
Definition createBlank (this : nat) (store : Store) : Res (nat * Store) :=
  match store !! this with
  | None => Throw TypeError
  | Some self =>
      let blank := new_PlayfulSieve (tableID self) (playerNames self) (ourPlayerIndex self)
                     (suits self) (in_progress self) in
      let blank := with_notes_rewinds blank (notes self) (rewinds self) in
      let blank := with_locked_shifts blank (locked_shifts self) in
      Ok (length store, store ++ [blank])
  end.

(** [this.minimalCopy()]: the new object is built first, then the depth is
    checked, then the properties are copied into the new object. *)
Definition minimalCopy (this : nat) (store : Store) : Res (nat * Store) :=
  match store !! this with
  | None => Throw TypeError
  | Some self =>
      let newState := length store in
      let fresh := new_PlayfulSieve (tableID self) (playerNames self) (ourPlayerIndex self)
                     (suits self) (in_progress self) in
      if 3 <? copyDepth self then Throw max_depth_reached
      else
        let copied := fold_left (copy_property self newState) minimalProps fresh in
        let copied := with_copyDepth copied (copyDepth self + 1) in
        Ok (newState, store ++ [copied])
  end.

End WithState.
End PlayfulSieveJs.

(** ** conventions/h-group/clue-interpretation/focus-possible.js *)
Module FocusPossibleJs.

(** What [determine_focus] returns. *)
Record Focus := mkFocus { focused : Card; chop : bool }.

(** hanabi-logic.js, connecting-cards.js and util.js are not part of the
    sources, and this file calls the hanabi-util functions with a suit index
    and a rank where basics/hanabi-util.js takes an identity: the functions
    it calls are the members of this interface. *)
Class FocusApi := {
  determine_focus : list Card -> list Z -> Res Focus;
  find_connecting : State -> Z -> Z -> Z -> num -> list Z -> Res (option Connection);
  isCritical : State -> Z -> Z -> Res bool;
  playableAway : State -> Z -> Z -> Res num;
  visibleFind : State -> Z -> Z -> Z -> Res (list Card);
  card_matches : Card -> Z -> Z -> bool;
  objEquals : BaseClue -> BaseClue -> bool }.

Definition with_finessed (c : Card) : Card :=
  mkCard (base c) (order c) (instanceofCard c) (clued c) (newly_clued c) true
    (chop_moved c) (reset c) (rewinded c) (drawn_index c) (clues c) (possible c) (inferred c).

Definition with_hands_stacks (s : State) (hs : list (list Card)) (ps : list Z) : State :=
  mkState (numPlayers s) (ourPlayerIndex s) hs (deck s) ps (discard_stacks s) (max_ranks s)
    (hypo_stacks s) (state_suits s) (score s) (cardsLeft s) (early_game s) (clue_tokens s).

(** [card.finessed = true] on a card that [find_connecting] took from the
    hands of the hypothetical state: the card of that order is now finessed
    there. *)
Definition finesse_in (hypo_state : State) (o : Z) : State :=
  with_hands_stacks hypo_state
    (List.map (List.map (fun c => if order c =? o then with_finessed c else c))
       (hands hypo_state))
    (play_stacks hypo_state).

(** [hypo_state.play_stacks[suitIndex]++], reached only with the index in
    range. *)
Definition bump_stack (hypo_state : State) (s : Z) : State :=
  match at_ (play_stacks hypo_state) s with
  | Some v => with_hands_stacks hypo_state (hands hypo_state)
                (set_at (play_stacks hypo_state) s (v + 1))
  | None => hypo_state
  end.

Definition with_card (conn : Connection) (c : Card) : Connection :=
  mkConnection (conn_type conn) (reacting conn) c (conn_identities conn) (hidden conn).

Definition play_possibility (s : Z) (r : num) (conns : list Connection) : FocusPossibility :=
  mkFocusPossibility s r conns false.

Definition save_possibility (s : Z) (r : Z) : FocusPossibility :=
  mkFocusPossibility s (Some r) [] true.

Definition is_black (state : State) (s : Z) : bool :=
  match at_ (suits (state_suits state)) s with
  | Some name => String.eqb name "Black"
  | None => false
  end.

Section WithApi.
Context `{FocusApi}.

(** The variables of the [while] loop of [find_colour_focus]. *)
Record ColourLoop := mkColourLoop {
  cl_hypo_state : State;
  cl_next_playable_rank : Z;
  cl_connections : list Connection;
  cl_already_connected : list Z;
  cl_connecting : option Connection;
  cl_focus_possible : list FocusPossibility }.

(** [while (connecting !== undefined && next_playable_rank < 5)]: the loop is
    entered with [n = 5 - next_playable_rank] ranks left below 5, and every
    iteration raises the rank by one, so [next_playable_rank < 5] is
    [n > 0]. *)
Fixpoint colour_loop (n : nat) (action : ClueAction) (s : Z) (focused_card : Card)
    (st : ColourLoop) : Res ColourLoop :=
  match n, cl_connecting st with
  | S n', Some connecting =>
      let next := cl_next_playable_rank st in
      let c := card connecting in
      if String.eqb (conn_type connecting) "known" && newly_clued c
         && (1 <? Z.of_nat (length (possible c)))
         && existsb (fun i => card_matches i s next) (inferred focused_card)
      then Ok st
      else
        let finesse := String.eqb (conn_type connecting) "finesse" in
        let focus_possible :=
          if finesse
          then cl_focus_possible st ++ [play_possibility s (Some next) (cl_connections st)]
          else cl_focus_possible st in
        let connecting := if finesse then with_card connecting (with_finessed c)
                          else connecting in
        let hypo_state := if finesse then finesse_in (cl_hypo_state st) (order c)
                          else cl_hypo_state st in
        let hypo_state := bump_stack hypo_state s in
        let connections := cl_connections st ++ [connecting] in
        let already_connected := cl_already_connected st ++ [order c] in
        let* found := find_connecting hypo_state (giver action) (target action) s
                        (Some (next + 1)) already_connected in
        colour_loop n' action s focused_card
          (mkColourLoop hypo_state (next + 1) connections already_connected found
             focus_possible)
  | _, _ => Ok st
  end.

(** The count of the cards of the hand that the clue touches and newly
    clues or fills in. *)
Definition fill_ins (hand : list Card) (touched : list Z) : Z :=
  Z.of_nat (length (List.filter (fun c =>
      has touched (order c)
      && (newly_clued c
          || some_from 0 (fun index cl =>
                 negb (index =? Z.of_nat (length (clues c)) - 1)
                 && objEquals cl (List.last (clues c) cl))
               (clues c)))
    hand)).

(** [for (let rank = next_playable_rank + 1; rank < 5; rank++)] *)
Definition ranks_above (next : Z) : list Z :=
  List.map (fun k => next + 1 + k) (range (5 - (next + 1))).

Definition colour_saves (state : State) (s : Z) (action : ClueAction) (hand : list Card)
    (next : Z) : Res (list FocusPossibility) :=
  fold_left (fun acc r =>
      let* saves := acc in
      if is_black state s && ((r =? 2) || (r =? 5)) && (fill_ins hand (list_ action) <? 2)
      then Ok saves
      else
        let* critical := isCritical state s r in
        Ok (if critical then saves ++ [save_possibility s r] else saves))
    (ranks_above next) (Ok []).

Definition find_colour_focus (state : State) (s : Z) (action : ClueAction)
    : Res (list FocusPossibility) :=
  let* hand := at_or_throw (hands state) (target action) in
  let* focus := determine_focus hand (list_ action) in
  let focused_card := focused focus in
  let next_playable_rank := nadd (at_ (play_stacks state) s) (Some 1) in
  let hypo_state := state in
  let already_connected := [order focused_card] in
  let* connecting := find_connecting hypo_state (giver action) (target action) s
                       next_playable_rank already_connected in
  match next_playable_rank with
  | None => Ok [play_possibility s None []]
  | Some next =>
      let* st := colour_loop (Z.to_nat (5 - next)) action s focused_card
                   (mkColourLoop hypo_state next [] already_connected connecting []) in
      let focus_possible :=
        cl_focus_possible st
        ++ [play_possibility s (Some (cl_next_playable_rank st)) (cl_connections st)] in
      if chop focus then
        let* saves := colour_saves state s action hand (cl_next_playable_rank st) in
        Ok (focus_possible ++ saves)
      else Ok focus_possible
  end.

(** The variables of the [while] loop of [find_rank_focus]. *)
Record RankLoop := mkRankLoop {
  rl_hypo_state : State;
  rl_stack_rank : Z;
  rl_connections : list Connection;
  rl_already_connected : list Z }.

(** [while (stack_rank !== rank)], entered with [stack_rank < rank]: with
    [n = rank - stack_rank] steps left, [stack_rank !== rank] is [n > 0]. *)
Fixpoint rank_loop (n : nat) (action : ClueAction) (s : Z) (st : RankLoop) : Res RankLoop :=
  match n with
  | O => Ok st
  | S n' =>
      let* found := find_connecting (rl_hypo_state st) (giver action) (target action) s
                      (Some (rl_stack_rank st)) (rl_already_connected st) in
      match found with
      | None => Ok st
      | Some connecting =>
          let c := card connecting in
          let finesse := String.eqb (conn_type connecting) "finesse" in
          let connecting := if finesse then with_card connecting (with_finessed c)
                            else connecting in
          let hypo_state := if finesse then finesse_in (rl_hypo_state st) (order c)
                            else rl_hypo_state st in
          rank_loop n' action s
            (mkRankLoop (bump_stack hypo_state s) (rl_stack_rank st + 1)
               (rl_connections st ++ [connecting])
               (rl_already_connected st ++ [order c]))
      end
  end.

(** The play interpretations of one suit under a rank clue. *)
Definition rank_plays (state : State) (r : Z) (action : ClueAction) (focused_card : Card)
    (s : Z) : Res (list FocusPossibility) :=
  let stack_rank := nadd (at_ (play_stacks state) s) (Some 1) in
  if neq (Some r) stack_rank then Ok [play_possibility s (Some r) []]
  else
    match stack_rank with
    | Some sr =>
        if sr <? r then
          let* st := rank_loop (Z.to_nat (r - sr)) action s
                       (mkRankLoop state sr [] [order focused_card]) in
          Ok (if r =? rl_stack_rank st
              then [play_possibility s (Some r) (rl_connections st)]
              else [])
        else Ok []
    | None => Ok []
    end.

(** The save interpretations of one suit under a rank clue on chop. *)
Definition rank_saves (state : State) (r : Z) (action : ClueAction) (focused_card : Card)
    (s : Z) : Res (list FocusPossibility) :=
  let* away := playableAway state s r in
  if neq away (Some 0) then Ok []
  else if is_black state s && ((r =? 3) || (r =? 4)) then Ok []
  else
    let* save2 :=
      (if r =? 2 then
         let* seen := visibleFind state (giver action) s 2 in
         Ok (Z.of_nat (length (List.filter (fun c => negb (order c =? order focused_card))
                                 seen)) =? 0)
       else Ok false) in
    let* critical := isCritical state s r in
    Ok (if critical || save2 then [save_possibility s r] else []).

Definition find_rank_focus (state : State) (r : Z) (action : ClueAction)
    : Res (list FocusPossibility) :=
  let* hand := at_or_throw (hands state) (target action) in
  let* focus := determine_focus hand (list_ action) in
  fold_left (fun acc s =>
      let* focus_possible := acc in
      let* plays := rank_plays state r action (focused focus) s in
      if chop focus then
        let* saves := rank_saves state r action (focused focus) s in
        Ok (focus_possible ++ plays ++ saves)
      else Ok (focus_possible ++ plays))
    (range (Z.of_nat (length (suits (state_suits state))))) (Ok []).

(** [suits.indexOf(name)] *)
Definition indexOf (names : list string) (name : string) : Z :=
  findIndex_from 0 (fun _ n => String.eqb n name) names.

Definition suits_include (state : State) (name : string) : bool :=
  existsb (fun n => String.eqb n name) (suits (state_suits state)).

(** The interpretations in the order they are generated, before duplicates
    are removed. *)
Definition generate_focus_possible (state : State) (action : ClueAction)
    : Res (list FocusPossibility) :=
  let* focus_possible :=
    match clue_type (clue action) with
    | COLOUR =>
        let* rainbow :=
          (if suits_include state "Rainbow"
           then find_colour_focus state (indexOf (suits (state_suits state)) "Rainbow") action
           else Ok []) in
        let* named := find_colour_focus state (clue_value (clue action)) action in
        Ok (rainbow ++ named)
    | RANK => find_rank_focus state (clue_value (clue action)) action
    end in
  if suits_include state "Omni" then
    let* omni := find_colour_focus state (indexOf (suits (state_suits state)) "Omni") action in
    Ok (focus_possible ++ omni)
  else Ok focus_possible.

End WithApi.

(** [p1.suitIndex === p2.suitIndex && p1.rank === p2.rank] *)
Definition same_pair (p1 p2 : FocusPossibility) : bool :=
  (fp_suitIndex p1 =? fp_suitIndex p2) && neq (fp_rank p1) (fp_rank p2).

(** "Remove earlier duplicates (since save overrides play)" *)
Definition remove_earlier_duplicates (focus_possible : list FocusPossibility)
    : list FocusPossibility :=
  filter_from 0 (fun index1 p1 =>
      negb (some_from 0 (fun index2 p2 => same_pair p1 p2 && (index1 <? index2))
              focus_possible))
    focus_possible.

Definition find_focus_possible `{FocusApi} (state : State) (action : ClueAction)
    : Res (list FocusPossibility) :=
  let* focus_possible := generate_focus_possible state action in
  Ok (remove_earlier_duplicates focus_possible).

End FocusPossibleJs.

(** ** conventions/h-group/.../interpret-discard.js *)
Module InterpretDiscardJs.
Import PlayerJs.

Record DiscardAction := mkDiscardAction {
  da_order : Z;
  da_playerIndex : Z;
  da_suitIndex : Z;
  da_rank : Z;
  failed : bool }.

(** The objects of a game that the function reads and writes. *)
Record Game := mkGame {
  common : Player;
  state : State;
  me : Player }.

(** The corrective override handed to [game.rewind]. *)
Inductive Override :=
| Ignore (conn_index_ order_ : Z)
| Identify (order_ playerIndex_ suitIndex_ rank_ : Z).

(** How a call of [interpret_discard] ends: it rewrote a connection and
    returned, it called [game.rewind] (with the action index, the override
    and, for an identify, the finessed flag) and returned, or it ran to its
    end. Each carries the game as the call left it. *)
Inductive Outcome :=
| Rewritten (g : Game)
| Rewound (g : Game) (action_index_ : Z) (override : Override) (finessed_ : option bool)
| Interpreted (g : Game).

(** basics.js, basics/helper.js, shared/sarcastic.js, Hand.js and the
    elimination methods of the player are not part of the sources: the
    functions called are the members of this interface. Those that change
    the game return the game they leave. *)
Class DiscardApi := {
  onDiscard : Game -> DiscardAction -> Res Game;
  interpret_sarcastic : Game -> DiscardAction -> Res (list Card * Game);
  findOrder : list Card -> Z -> bool;
  restore_elim : Game -> Card -> Res Game;
  undo_hypo_stacks : Game -> Identity -> Res Game;
  team_elim : Game -> Res Game }.

Definition with_waiting_connections (p : Player) (wcs : list WaitingConnection) : Player :=
  mkPlayer (playerIndex p) (all_possible p) (all_inferred p) (hypo_stacks p) (thoughts p)
    (links p) (unknown_plays p) wcs.

Definition with_common (g : Game) (c : Player) : Game := mkGame c (state g) (me g).

Definition with_early_game (s : State) (b : bool) : State :=
  mkState (numPlayers s) (ourPlayerIndex s) (hands s) (deck s) (play_stacks s)
    (discard_stacks s) (max_ranks s) (Basics.hypo_stacks s) (state_suits s) (score s)
    (cardsLeft s) b (clue_tokens s).

Definition with_connections (wc : WaitingConnection) (conns : list Connection)
    : WaitingConnection :=
  mkWaitingConnection conns (wc_giver wc) (wc_target wc) (conn_index wc) (focused_card wc)
    (inference wc) (action_index wc) (fake wc).

(** [connections.findIndex((conn, index) => index >= conn_index && conn.card.order === order)] *)
Definition dc_conn_index (wc : WaitingConnection) (order_ : Z) : Z :=
  findIndex_from 0 (fun index conn => (conn_index wc <=? index) && (order (card conn) =? order_))
    (connections wc).

(** [connections.filter((conn, index) => index < dc_conn_index && !conn.hidden).length] *)
Definition real_connects (wc : WaitingConnection) (dc : Z) : Z :=
  Z.of_nat (length (filter_from 0 (fun index conn => (index <? dc) && negb (hidden conn))
                      (connections wc))).

(** [common.waiting_connections.some((wc, index) =>
       action_index === wc.action_index && !to_remove.includes(index))] *)
Definition others_wait (wcs : list WaitingConnection) (action_index_ : Z) (to_remove : list Z)
    : bool :=
  some_from 0 (fun index wc => (action_index_ =? action_index wc) && negb (has to_remove index))
    wcs.

(** "Check if sarcastic" *)
Definition maybe_sarcastic (s : State) (action : DiscardAction) (c : Card) : bool :=
  clued c
  && ngt (Some (da_rank action)) (at_ (play_stacks s) (da_suitIndex action))
  && nle (Some (da_rank action)) (at_ (max_ranks s) (da_suitIndex action))
  && negb (failed action).

Section WithApi.
Context `{CardApi} `{DiscardApi}.

(** [Object.assign(connections[dc_conn_index], { reacting: ..., card: sarcastics[0] })]
    on the connections of the waiting connection of index [i]. *)
Definition rewrite_connection (g : Game) (i : Z) (wc : WaitingConnection) (dc : Z)
    (sarcastic : Card) : Game :=
  let reacting_ :=
    findIndex_from 0 (fun _ hand => findOrder hand (order sarcastic)) (hands (state g)) in
  match at_ (connections wc) dc with
  | None => g
  | Some conn =>
      let conn' := mkConnection (conn_type conn) reacting_ sarcastic (conn_identities conn)
                     (hidden conn) in
      let wc' := with_connections wc (set_at (connections wc) dc conn') in
      with_common g
        (with_waiting_connections (common g)
           (set_at (waiting_connections (common g)) i wc'))
  end.

(** What the loop over the waiting connections leaves: an early return, or
    the indexes to remove. *)
Inductive Scan :=
| Returned (o : Outcome)
| Cancelled (to_remove : list Z).

(** The body of the loop for the waiting connection [wc] of index [i]. *)
Definition scan_connection (g : Game) (action : DiscardAction) (to_remove : list Z) (i : Z)
    (wc : WaitingConnection) : Res Scan :=
  let dc := dc_conn_index wc (da_order action) in
  if dc =? -1 then Ok (Cancelled to_remove)
  else
    let* conn := at_or_throw (connections wc) dc in
    let to_remove := to_remove ++ [i] in
    if others_wait (waiting_connections (common g)) (action_index wc) to_remove
    then Ok (Cancelled to_remove)
    else
      let rewind_ g' :=
        Ok (Returned (Rewound g' (action_index wc)
                        (Ignore (real_connects wc dc) (da_order action)) None)) in
      if maybe_sarcastic (state g) action (card conn) then
        let* found := interpret_sarcastic g action in
        match found with
        | ([sarcastic], g') => Ok (Returned (Rewritten (rewrite_connection g' i wc dc sarcastic)))
        | (_, g') => rewind_ g'
        end
      else rewind_ g.

Fixpoint scan_connections (g : Game) (action : DiscardAction) (to_remove : list Z) (i : Z)
    (wcs : list WaitingConnection) : Res Scan :=
  match wcs with
  | [] => Ok (Cancelled to_remove)
  | wc :: rest =>
      let* r := scan_connection g action to_remove i wc in
      match r with
      | Returned o => Ok (Returned o)
      | Cancelled to_remove' => scan_connections g action to_remove' (i + 1) rest
      end
  end.

(** The rest of the function, once the loop found nothing to return for. *)
Definition after_scan (g : Game) (action : DiscardAction) (c : Card) (to_remove : list Z)
    : Res Outcome :=
  let g :=
    if (0 <? Z.of_nat (length to_remove))
    then with_common g
           (with_waiting_connections (common g)
              (filter_from 0 (fun index _ => negb (has to_remove index))
                 (waiting_connections (common g))))
    else g in
  let g :=
    if early_game (state g) && negb (failed action) && negb (clued c)
    then mkGame (common g) (with_early_game (state g) false) (me g)
    else g in
  let* thoughts_ := at_or_throw (thoughts (common g)) (da_order action) in
  let* wrong :=
    (if rewinded thoughts_ then Ok false
     else if failed action then Ok true
     else if matches_inferences thoughts_ then Ok false
     else let* trash := HanabiUtil.isTrash (state g) RefObject (base c) (order c)
                          HanabiUtil.no_find_options in
          Ok (negb trash)) in
  if wrong then
    Ok (Rewound g (drawn_index c)
          (Identify (da_order action) (da_playerIndex action) (da_suitIndex action)
             (da_rank action))
          (Some (finessed thoughts_)))
  else
    let* g :=
      (if clued c
          && ngt (Some (da_rank action)) (at_ (play_stacks (state g)) (da_suitIndex action))
          && nle (Some (da_rank action)) (at_ (max_ranks (state g)) (da_suitIndex action))
       then
         let* g1 := restore_elim g c in
         if failed action
         then undo_hypo_stacks g1 (mkId (da_suitIndex action) (da_rank action))
         else let* found := interpret_sarcastic g1 action in Ok (snd found)
       else Ok g) in
    let* g := team_elim g in
    Ok (Interpreted g).

Definition interpret_discard (game : Game) (action : DiscardAction) (c : Card) : Res Outcome :=
  let* g := onDiscard game action in
  let* r := scan_connections g action [] 0 (waiting_connections (common g)) in
  match r with
  | Returned o => Ok o
  | Cancelled to_remove => after_scan g action c to_remove
  end.

End WithApi.
End InterpretDiscardJs.

(** ** conventions/h-group/clue-finder/determine-clue.js *)
Module DetermineClueJs.
Import PlayerJs.

Record Game := mkGame {
  state : State;
  common : Player;
  me : Player }.

(** types.js: a clue with its target, the statistics of a clue, and the
    clue that [determine_clue] returns. *)
Record Clue := mkClue { type : ClueType; value : Z; clue_target : Z }.

Record TeamCard := mkTeamCard { tc_playerIndex : Z; tc_card : Card }.

Record ClueResult := mkClueResult {
  elim : Z;
  new_touched : Z;
  bad_touch : Z;
  trash : Z;
  remainder : Q;
  playables : list TeamCard;
  finesses : list TeamCard }.

Record ResultClue := mkResultClue {
  rc_type : ClueType;
  rc_value : Z;
  rc_target : Z;
  result : ClueResult }.

(** [Partial<ClueOptions>]: an absent key reads as false. *)
Record ClueOptions := mkClueOptions {
  excludeColour : bool; excludeRank : bool; opt_save : bool }.

Record Focus := mkFocus { focus_card : Card; chop : bool }.

(** The game's [simulate_clue], clue-safe.js, hanabi-logic.js,
    clue-result.js, action-helper.js, the [direct_clues] of this version of
    variants.js, and the four-argument [cardValue] are not part of the
    sources: the functions called are the members of this interface. *)
Class ClueApi := {
  simulate_clue : Game -> ClueAction -> Res Game;
  direct_clues : Variant -> Z -> Card -> option ClueOptions -> list Clue;
  clueTouched : list Card -> Clue -> Variant -> list Card;
  determine_focus : list Card -> Player -> list Z -> Res Focus;
  clue_safe : Game -> Player -> Clue -> Res bool;
  elim_result : Player -> Player -> list Card -> list Z -> Z * Z;
  bad_touch_result : Game -> Player -> Z -> Z -> Z * Z;
  playables_result : State -> Player -> Player -> list TeamCard * list TeamCard;
  chop_after_clue : Player -> list Card -> option Card;
  cardValue : State -> Player -> option Card -> Z -> Res Q;
  find_clue_value : ClueResult -> Q }.

(** [a || b] where evaluating [b] may throw, and is skipped when [a] holds. *)
Definition or_else (a : Res bool) (b : Res bool) : Res bool :=
  let* x := a in if x then Ok true else b.

Definition and_then (a : Res bool) (b : Res bool) : Res bool :=
  let* x := a in if x then b else Ok false.

(** [l.find(f)] for a callback that may throw. *)
Fixpoint find_res {A} (f : A -> Res bool) (l : list A) : Res (option A) :=
  match l with
  | [] => Ok None
  | x :: rest => let* b := f x in if b then Ok (Some x) else find_res f rest
  end.

(** Modelled from the spec: Utils.maxOn, of tools/util.js. The value
    function orders the candidates, and ties are broken by the order of
    enumeration: the first candidate of the greatest value is chosen. *)
Fixpoint maxOn {A} (value_of : A -> Q) (l : list A) : option A :=
  match l with
  | [] => None
  | x :: rest =>
      match maxOn value_of rest with
      | None => Some x
      | Some best => if Qle_bool (value_of best) (value_of x) then Some x else Some best
      end
  end.

Definition with_remainder (r : ClueResult) (q : Q) : ClueResult :=
  mkClueResult (elim r) (new_touched r) (bad_touch r) (trash r) q (playables r) (finesses r).

Definition clue_action (g : Game) (target_ : Z) (touched : list Z) (c : Clue) : ClueAction :=
  mkClueAction (ourPlayerIndex (state g)) target_ touched (mkBaseClue (type c) (value c)).

Section WithApi.
Context `{CardApi} `{ClueApi}.

(** [isTrash(state, player, identity, order)] of hanabi-util, handed a card
    that may be [undefined]. *)
Definition isTrash (s : State) (id : option Card) (order_ : Z) : Res bool :=
  match id with
  | None => Throw TypeError
  | Some i => HanabiUtil.isTrash s RefObject (base i) order_ HanabiUtil.no_find_options
  end.

(** The callback of [state.hands[target].find(...)] in [evaluate_clue]:
    whether the card [c] of the hand has an incorrect belief in the
    hypothetical game. *)
Definition incorrect (game hypo_game : Game) (target_card : Card) (bad_touch_cards : list Card)
    (c : Card) : Res bool :=
  let* thought := at_or_throw (thoughts (common hypo_game)) (order c) in
  let visible_card := at_ (thoughts (me hypo_game)) (order c) in
  if order c =? order target_card
  then Ok (reset thought || negb (matches_inferences thought))
  else
    let matches_inference :=
      if reset thought then Ok false
      else if match identity thought no_options with None => true | Some _ => false end
      then Ok true
      else if Z.of_nat (length (possible thought)) =? 1 then Ok true
      else match visible_card with
           | None => Throw TypeError
           | Some v => Ok (matches thought (base v) no_options)
           end in
    let before :=
      let* old_card := at_or_throw (thoughts (common game)) (order c) in
      Ok (reset old_card || negb (matches_inferences old_card)
          || (Z.of_nat (length (inferred old_card)) =? 0)) in
    let acceptable :=
      or_else matches_inference
        (or_else before
           (or_else (Ok (chop_moved thought))
              (or_else (and_then (Ok (clued c)) (isTrash (state game) visible_card (-1)))
                 (or_else (Ok (existsb (fun b => order b =? order c) bad_touch_cards))
                    (let* not_trash :=
                       some_res (fun id =>
                           let* t := isTrash (state hypo_game) (Some id) (order c) in
                           Ok (negb t))
                         (possible thought) in
                     Ok (negb not_trash)))))) in
    let* ok := acceptable in Ok (negb ok).

(** [evaluate_clue]: the hypothetical game if the clue is read correctly,
    [None] for [undefined] otherwise. *)
Definition evaluate_clue (game : Game) (action : ClueAction) (target_ : Z)
    (target_card : Card) (bad_touch_cards : list Card) : Res (option Game) :=
  let* hypo_game := simulate_clue game action in
  let* hand := at_or_throw (hands (state game)) target_ in
  let* incorrect_card := find_res (incorrect game hypo_game target_card bad_touch_cards) hand in
  match incorrect_card with
  | Some _ => Ok None
  | None => Ok (Some hypo_game)
  end.

Definition get_result (game hypo_game : Game) (c : Clue) (giver_ : Z) : Res ClueResult :=
  let* hand := at_or_throw (hands (state game)) (clue_target c) in
  let touch := clueTouched hand c (state_suits (state game)) in
  let touched := List.map order touch in
  let* focus := determine_focus hand (common game) touched in
  let '(new_touched_, fill) := elim_result (common game) (common hypo_game) hand touched in
  let '(bad_touch_, trash_) :=
    bad_touch_result hypo_game (common hypo_game) (clue_target c) (order (focus_card focus)) in
  let '(finesses_, playables_) :=
    playables_result (state hypo_game) (common game) (common hypo_game) in
  let* remainder_ :=
    match chop_after_clue (common hypo_game) hand with
    | Some new_chop =>
        cardValue (state hypo_game) (me hypo_game)
          (at_ (thoughts (me game)) (order new_chop)) (order new_chop)
    | None =>
        let* known := thinksTrash (common hypo_game) (state hypo_game) (clue_target c) in
        Ok (if 0 <? Z.of_nat (length known) then 0%Q else inject_Z 4)
    end in
  Ok (mkClueResult fill new_touched_ bad_touch_ trash_ remainder_ playables_ finesses_).

(** The cards that the clue touches for the first time and that we know to
    be trash. *)
Definition bad_touch_cards_of (game : Game) (touch : list Card) : Res (list Card) :=
  filter_res (fun c =>
      if clued c then Ok false
      else
        let* thought := at_or_throw (thoughts (me game)) (order c) in
        isTrash (state game) (identity thought infer_true) (order c))
    touch.

(** The body of [for (const clue of possible_clues)]: the entry pushed on
    [results], if any. *)
Definition consider (game : Game) (target_ : Z) (target_card : Card)
    (options : option ClueOptions) (hand : option (list Card)) (c : Clue)
    : Res (option (Clue * ClueResult)) :=
  match hand with
  | None => Throw TypeError
  | Some hand =>
      let touch := clueTouched hand c (state_suits (state game)) in
      let touched := List.map order touch in
      let* focus := determine_focus hand (common game) touched in
      if negb (order (focus_card focus) =? order target_card) then Ok None
      else
        match options with
        | None => Throw TypeError
        | Some opts =>
            let* unsafe :=
              (if opt_save opts then Ok false
               else let* safe := clue_safe game (me game) c in Ok (negb safe)) in
            if unsafe then Ok None
            else
              let* bad_touch_cards := bad_touch_cards_of game touch in
              let action := clue_action game target_ touched c in
              let* hypo := evaluate_clue game action target_ target_card bad_touch_cards in
              match hypo with
              | None => Ok None
              | Some hypo_game =>
                  let* r := get_result game hypo_game c (ourPlayerIndex (state game)) in
                  let* keep :=
                    (if chop focus then
                       let* safe := clue_safe game (me game) c in
                       Ok (negb safe || (clue_tokens (state game) <=? 2))
                     else Ok false) in
                  let remainder_ := if keep then remainder r else 0%Q in
                  Ok (Some (c, with_remainder r remainder_))
              end
        end
  end.

(** The loop over the possible clues: [results]. *)
Fixpoint consider_all (game : Game) (target_ : Z) (target_card : Card)
    (options : option ClueOptions) (hand : option (list Card)) (possible_clues : list Clue)
    : Res (list (Clue * ClueResult)) :=
  match possible_clues with
  | [] => Ok []
  | c :: rest =>
      let* entry := consider game target_ target_card options hand c in
      let* results := consider_all game target_ target_card options hand rest in
      Ok (match entry with Some e => e :: results | None => results end)
  end.

(** [determine_clue]: the best clue, or [None] for [undefined]. *)
Definition determine_clue (game : Game) (target_ : Z) (target_card : Card)
    (options : option ClueOptions) : Res (option ResultClue) :=
  let hand := at_ (hands (state game)) target_ in
  let possible_clues := direct_clues (state_suits (state game)) target_ target_card options in
  let* results := consider_all game target_ target_card options hand possible_clues in
  match maxOn (fun entry => find_clue_value (snd entry)) results with
  | None => Ok None
  | Some (c, best_result) =>
      Ok (Some (mkResultClue (type c) (value c) (clue_target c) best_result))
  end.

End WithApi.
End DetermineClueJs.

(** ** basics/hanabi-util.js: [refer_right] *)
Module ReferRightJs.

(** [a % b] on integers: the sign of the dividend, and [NaN] for [b = 0]. *)
Definition js_rem (a b : Z) : num := if b =? 0 then None else Some (Z.rem a b).

(** The test of the [while] loop: the card was clued before this clue. *)
Definition clued_before (c : Card) : bool := clued c && negb (newly_clued c).

(** The loop of [refer_right] from [target_index]; every test of the
    condition uses up one unit of [fuel]; [None] when it is used up. *)
Fixpoint refer_loop (fuel : nat) (hand : list Card) (target_index : num)
    : option (Res Z) :=
  match fuel with
  | O => None
  | S fuel' =>
      match target_index with
      | None => Some (Throw TypeError)
      | Some t =>
          match at_ hand t with
          | None => Some (Throw TypeError)
          | Some c =>
              if clued_before c
              then refer_loop fuel' hand (js_rem (t + 1) (Z.of_nat (length hand)))
              else Some (Ok t)
          end
      end
  end.

Definition refer_right (fuel : nat) (hand : list Card) (index : Z) : option (Res Z) :=
  refer_loop fuel hand (js_rem (index + 1) (Z.of_nat (length hand))).

End ReferRightJs.

(** ** basics/Player.js: what a player thinks of a hand *)
Module PlayerViewJs.
Import PlayerJs.

(** State.js is not part of the sources: [isPlayable] is the method of the
    state that [thinksPlayables] calls on a possibility. *)
Class StateApi := { isPlayable : State -> Card -> bool }.

(** [l.every(f)] for a callback that may throw, stopping at the first
    element that fails. *)
Fixpoint every_res {A} (f : A -> Res bool) (l : list A) : Res bool :=
  match l with
  | [] => Ok true
  | x :: rest => let* b := f x in if b then every_res f rest else Ok false
  end.

Section WithCards.
Context `{CardApi} `{StateApi}.

Definition thinksPlayables (p : Player) (state : State) (playerIndex_ : Z) : Res (list Card) :=
  let* linked_orders := linkedOrders p state in
  let* hand := at_or_throw (hands state) playerIndex_ in
  filter_res (fun c =>
      if has linked_orders (order c) then Ok false
      else
        let* card := at_or_throw (thoughts p) (order c) in
        Ok (forallb (fun poss =>
                (if chop_moved card then state_isBasicTrash state poss else false)
                || isPlayable state poss)
              (possibilities card)
            && existsb (isPlayable state) (possibilities card)
            && matches_inferences card))
    hand.

Definition thinksLoaded (p : Player) (state : State) (playerIndex_ : Z) : Res bool :=
  let* playables := thinksPlayables p state playerIndex_ in
  if 0 <? Z.of_nat (length playables) then Ok true
  else
    let* trash := thinksTrash p state playerIndex_ in
    Ok (0 <? Z.of_nat (length trash)).

Definition thinksLocked (p : Player) (state : State) (playerIndex_ : Z) : Res bool :=
  let* hand := at_or_throw (hands state) playerIndex_ in
  let* all_saved :=
    every_res (fun c => let* thought := at_or_throw (thoughts p) (order c) in Ok (saved thought))
      hand in
  if all_saved then
    let* loaded := thinksLoaded p state playerIndex_ in
    Ok (negb loaded)
  else Ok false.

End WithCards.
End PlayerViewJs.

(** ** variants.js: the cards a clue touches; basics/hanabi-util.js: [direct_clues] *)
Module VariantTouchJs.

Definition whitish (suit : string) : bool :=
  contains "White" suit || contains "Gray" suit || contains "Light" suit || contains "Null" suit.
Definition rainbowish (suit : string) : bool :=
  contains "Rainbow" suit || contains "Omni" suit.
Definition brownish (suit : string) : bool :=
  contains "Brown" suit || contains "Muddy" suit || contains "Cocoa" suit || contains "Null" suit.
Definition pinkish (suit : string) : bool :=
  contains "Pink" suit || contains "Omni" suit.

(** The variant object with the properties that [cardTouched] and
    [isCluable] read besides the suit names: an absent [specialRank] or
    [clueRanks] is [None], an absent flag is [false]. *)
Record Rules := mkRules {
  variant : Variant;
  specialRank : option Z;
  specialRankAllClueColors : bool;
  specialRankNoClueColors : bool;
  specialRankAllClueRanks : bool;
  specialRankNoClueRanks : bool;
  specialRankDeceptive : bool;
  chimneys : bool;
  funnels : bool;
  clueRanks : option (list Z) }.

Record Clue := mkClue { type : ClueType; value : Z; target : Z }.

(** [rank === variant.specialRank] *)
Definition is_special (rules : Rules) (r : Z) : bool :=
  match specialRank rules with Some s => r =? s | None => false end.

Definition cardTouched (card : Identity) (rules : Rules) (clue : Clue) : Res bool :=
  let names := suits (variant rules) in
  match at_ names (suitIndex card) with
  | None => Throw TypeError
  | Some suit =>
      if (suit =? "Null")%string || (suit =? "Dark Null")%string then Ok false
      else if (suit =? "Omni")%string || (suit =? "Dark Omni")%string then Ok true
      else
        match type clue with
        | COLOUR =>
            if whitish suit then Ok false
            else if rainbowish suit then Ok true
            else if (suit =? "Prism")%string || (suit =? "Dark Prism")%string then
              let colourlessCount :=
                Z.of_nat (length (List.filter
                  (fun s => rainbowish s || whitish s || contains "Prism" s) names)) in
              Ok (neq (ReferRightJs.js_rem (rank card - 1)
                         (Z.of_nat (length names) - colourlessCount))
                      (Some (value clue)))
            else
              let by_suit := Ok (suitIndex card =? value clue) in
              if is_special rules (rank card) then
                if specialRankAllClueColors rules then Ok true
                else if specialRankNoClueColors rules then Ok false
                else by_suit
              else by_suit
        | RANK =>
            if brownish suit then Ok false
            else if pinkish suit then Ok true
            else
              let by_rank :=
                if chimneys rules then Ok (value clue <=? rank card)
                else if funnels rules then Ok (rank card <=? value clue)
                else Ok (rank card =? value clue) in
              if is_special rules (rank card) then
                if specialRankAllClueRanks rules then Ok true
                else if specialRankNoClueRanks rules then Ok false
                else if specialRankDeceptive rules then
                  Ok (neq (nadd (ReferRightJs.js_rem (suitIndex card) 4)
                                (Some (if neq (specialRank rules) (Some 1) then 2 else 1)))
                          (Some (value clue)))
                else by_rank
              else by_rank
        end
  end.

Definition isCluable (rules : Rules) (clue : Clue) : Res bool :=
  match type clue with
  | COLOUR =>
      let* suit := at_or_throw (suits (variant rules)) (value clue) in
      Ok (negb (whitish suit || rainbowish suit))
  | RANK =>
      Ok (match clueRanks rules with
          | Some ranks => existsb (Z.eqb (value clue)) ranks
          | None => true
          end)
  end.

Record Options := mkOptions { excludeColour : bool; excludeRank : bool; save : bool }.

(** [isCluable(...) && cardTouched(...)] *)
Definition cluable_and_touching (rules : Rules) (card : Identity) (clue : Clue) : Res bool :=
  let* cluable := isCluable rules clue in
  if cluable then cardTouched card rules clue else Ok false.

(** [for (let i = 0; i < n; i++)] for a bound that may be [undefined]:
    [0 < undefined] is false, and the body never runs. *)
Definition range_to (n : num) : list Z :=
  match n with
  | Some k => range k
  | None => []
  end.

(** [state.suits.length]. [direct_clues] hands [state.suits] on to
    [isCluable] and [cardTouched] as the variant, which read its [suits],
    [specialRank] and [clueRanks]: it is the variant object, [rules] here.
    A variant object has no [length], and the read gives [undefined]. *)
Definition suits_length (rules : Rules) : num := None.

(** [direct_clues(state, target, card, options)] reads of the state only
    [state.suits]; that object is the argument [rules] here. Each loop
    pushes the candidates that pass the test, in order. *)
Definition direct_clues (rules : Rules) (target : Z) (card : Identity)
    (options : option Options) : Res (list Clue) :=
  let* colours :=
    if (match options with Some o => excludeColour o | None => false end) then Ok []
    else filter_res (cluable_and_touching rules card)
           (List.map (fun suitIndex => mkClue COLOUR suitIndex target)
              (range_to (suits_length rules))) in
  let* ranks :=
    if (match options with Some o => excludeRank o | None => false end) then Ok []
    else filter_res (cluable_and_touching rules card)
           (List.map (fun rank => mkClue RANK rank target) [1; 2; 3; 4; 5]) in
  Ok (colours ++ ranks).

End VariantTouchJs.

(** ** A plain implementation of the card interface

    Modelled from the spec: Card.js and Hand.js (the card and hand methods
    of [CardApi]). A card whose suit and rank are known is that identity; an
    unknown card is identified by a single remaining possibility, or, when
    asked to infer, by a single inferred identity. A saved card is clued,
    finessed or chop-moved. This instance gives the concrete inputs at which
    the theorems below are exercised. *)
Module PlainCards.

Definition plain_card (s r : Z) : Card :=
  mkCard (mkId s r) (-1) false false false false false false false (-1) [] [] [].

Definition same_id (a b : Identity) : bool :=
  (suitIndex a =? suitIndex b) && (rank a =? rank b).

Definition plain_identity (c : Card) (o : MatchOptions) : option Card :=
  if negb (suitIndex (base c) =? -1) && negb (rank (base c) =? -1) then Some c
  else match possible c with
       | [p] => Some p
       | _ => if opt_infer o then match inferred c with [p] => Some p | _ => None end
              else None
       end.

Definition plain_matches (c : Card) (id : Identity) (o : MatchOptions) : bool :=
  match plain_identity c o with
  | Some p => same_id (base p) id
  | None => opt_assume o
  end.

Definition plain_matches_inferences (c : Card) : bool :=
  match plain_identity c no_options with
  | None => true
  | Some p => match possible c with
              | [_] => true
              | _ => existsb (fun i => same_id (base i) (base p)) (inferred c)
              end
  end.

#[local] Instance plain_api : CardApi := {|
  matches := plain_matches;
  identity := plain_identity;
  findCards := fun hand id o => List.filter (fun c => plain_matches c id o) hand;
  saved := fun c => clued c || finessed c || chop_moved c;
  matches_inferences := plain_matches_inferences;
  possibilities := fun c => match inferred c with [] => possible c | _ => inferred c end;
  subtract := fun l ids =>
    List.filter (fun c => negb (existsb (fun i => same_id (base c) i) ids)) l;
  state_isBasicTrash := fun state c => HanabiUtil.isBasicTrash state (base c) |}.

End PlainCards.

(** * Properties of basics/hanabi-util.js *)
Module HanabiUtilFacts.
Import HanabiUtil.

(** The state of the examples: three suits, stacks at 3, 0 and 0. *)
Definition stacks_state : State := {|
  numPlayers := 3; ourPlayerIndex := 0;
  hands := [[]; []; []]; deck := [];
  play_stacks := [3; 0; 0];
  discard_stacks := [[0; 0; 0; 0; 0]; [0; 0; 0; 0; 0]; [0; 0; 0; 0; 0]];
  max_ranks := [5; 5; 5];
  hypo_stacks := [[3; 0; 0]; [3; 0; 0]; [3; 0; 0]];
  state_suits := mkVariant ["Red"%string; "Yellow"%string; "Green"%string] None;
  score := 3; cardsLeft := 30; early_game := true; clue_tokens := 8 |}.

(** C1, as the specification states it, fails: with the red stack at 3 a red
    2 is basic trash, but it is two steps behind the next playable rank, so
    [playableAway] is -2 and not -1. *)
Lemma playableAway_example_is_not_minus_one :
  play_stacks stacks_state = [3; 0; 0] /\
  ~ (isBasicTrash stacks_state (mkId 0 2) = true /\
     playableAway stacks_state (mkId 0 2) = Some (-1)).
Proof.
  split; [reflexivity |].
  intros [_ Haway]. vm_compute in Haway. discriminate Haway.
Qed.

(** C1 (amended): for every state with [play_stacks = [3,0,0]], the identity
    of suit 0 and rank 2 is basic trash and [playableAway] returns -2. *)
Theorem isBasicTrash_playableAway_example (state : State) :
  play_stacks state = [3; 0; 0] ->
  isBasicTrash state (mkId 0 2) = true /\ playableAway state (mkId 0 2) = Some (-2).
Proof.
  intros Hstacks. unfold isBasicTrash, playableAway. rewrite Hstacks. split; reflexivity.
Qed.

Lemma isBasicTrash_playableAway_example_witness :
  isBasicTrash stacks_state (mkId 0 2) = true /\
  playableAway stacks_state (mkId 0 2) = Some (-2).
Proof. exact (isBasicTrash_playableAway_example stacks_state eq_refl). Defined.

(** The default distribution of variants.js: a suit that is not dark, in a
    variant without a critical rank, has 3, 2, 2, 2 and 1 copies. *)
Lemma cardCount_default (variant : Variant) (s r : Z) (suit : string) :
  at_ (suits variant) s = Some suit -> dark suit = false -> criticalRank variant = None ->
  cardCount variant (mkId s r) = Ok (at_ [3; 2; 2; 2; 1] (r - 1)).
Proof.
  intros Hsuit Hdark Hcrit. unfold cardCount, at_or_throw. cbn [suitIndex rank].
  rewrite Hsuit. cbn [Js.bind]. rewrite Hdark, Hcrit. reflexivity.
Qed.

(** C8: when the copies of suit 0 are counted 3, 2, 2, 2, 1 per rank and two
    copies of its rank 1 lie in the discard pile ([discard_stacks[0][0] = 2]),
    [isCritical] answers true for the identity of suit 0 and rank 1. *)
Theorem isCritical_example (state : State) (row : list Z) :
  (forall r, 1 <= r <= 5 ->
     cardCount (state_suits state) (mkId 0 r) = Ok (at_ [3; 2; 2; 2; 1] (r - 1))) ->
  at_ (discard_stacks state) 0 = Some row ->
  at_ row 0 = Some 2 ->
  isCritical state (mkId 0 1) = Ok true.
Proof.
  intros Hcount Hrow Hcell. unfold isCritical, at_or_throw. cbn [suitIndex rank].
  rewrite Hrow. cbn [Js.bind]. rewrite (Hcount 1) by lia. cbn [Js.bind].
  replace (1 - 1) with 0 by lia. rewrite Hcell. reflexivity.
Qed.

Definition two_ones_discarded : State := {|
  numPlayers := 3; ourPlayerIndex := 0;
  hands := [[]; []; []]; deck := [];
  play_stacks := [0; 0; 0];
  discard_stacks := [[2; 0; 0; 0; 0]; [0; 0; 0; 0; 0]; [0; 0; 0; 0; 0]];
  max_ranks := [5; 5; 5];
  hypo_stacks := [[0; 0; 0]; [0; 0; 0]; [0; 0; 0]];
  state_suits := mkVariant ["Red"%string; "Yellow"%string; "Green"%string] None;
  score := 0; cardsLeft := 30; early_game := true; clue_tokens := 8 |}.

Lemma isCritical_example_witness : isCritical two_ones_discarded (mkId 0 1) = Ok true.
Proof.
  apply (isCritical_example two_ones_discarded [2; 0; 0; 0; 0]).
  - intros r Hr. apply (cardCount_default _ 0 r "Red"%string); reflexivity.
  - reflexivity.
  - reflexivity.
Defined.

(** *** The value of an unknown card *)

(** **** Rounding to a double *)

Lemma to_double_compat (x y : Q) : (x == y)%Q -> to_double x = to_double y.
Proof. intros Heq. unfold to_double. rewrite (Qred_complete x y Heq). reflexivity. Qed.

Lemma Qred_inject_Z (z : Z) : Qred (inject_Z z) = inject_Z z.
Proof.
  unfold Qred, inject_Z.
  pose proof (Z.ggcd_gcd z 1) as Hg. pose proof (Z.ggcd_correct_divisors z 1) as Hd.
  destruct (Z.ggcd z 1) as (g & aa & bb). cbn [fst snd] in *.
  rewrite Z.gcd_1_r in Hg. subst g. destruct Hd as [Ha Hb].
  replace aa with z by lia. replace bb with 1 by lia. reflexivity.
Qed.

Lemma round_half_even_one (n : Z) : round_half_even n 1 = n.
Proof. unfold round_half_even. rewrite Z.mod_1_r, Z.div_1_r. reflexivity. Qed.

(** An integer below [2 ^ 53] in magnitude is a double. *)
Lemma to_double_integer (z : Z) :
  Z.abs z < 2 ^ 53 -> (to_double (inject_Z z) == inject_Z z)%Q.
Proof.
  intros Hsafe. unfold to_double. rewrite Qred_inject_Z. cbn [inject_Z Qnum Qden].
  unfold round_ratio. destruct (Z.abs z =? 0) eqn:Hzero.
  - apply Z.eqb_eq in Hzero. replace z with 0 by lia. reflexivity.
  - apply Z.eqb_neq in Hzero. assert (Hpos : 0 < Z.abs z) by lia.
    pose proof (Z.log2_nonneg (Z.abs z)) as Hlog0.
    pose proof (proj1 (Z.log2_lt_pow2 (Z.abs z) 53 Hpos) Hsafe) as Hlog.
    pose proof (Z.log2_spec (Z.abs z) Hpos) as [Hlow _].
    assert (Hbin : binade (Z.abs z) 1 = Z.log2 (Z.abs z)).
    { unfold binade. change (Z.log2 1) with 0. rewrite Z.sub_0_r.
      rewrite Z.max_l, Z.max_r by lia. rewrite Z.pow_0_r, Z.mul_1_l, Z.mul_1_r.
      replace (2 ^ Z.log2 (Z.abs z) <=? Z.abs z) with true; [reflexivity |].
      symmetry. apply Z.leb_le. exact Hlow. }
    rewrite Hbin.
    set (k := 52 - Z.log2 (Z.abs z)).
    assert (Hk : 0 <= k) by (unfold k; lia).
    replace (Z.max (Z.log2 (Z.abs z) - 52) (-1074)) with (- k) by (unfold k; lia).
    rewrite Z.opp_involutive, (Z.max_l k 0), (Z.max_r (- k) 0) by lia.
    rewrite Z.pow_0_r, !Z.mul_1_r, round_half_even_one.
    rewrite Qred_correct. unfold Qeq. cbn [Qnum Qden].
    assert (Hpow : 0 < 2 ^ k) by (apply Z.pow_pos_nonneg; lia).
    rewrite Z2Pos.id by exact Hpow.
    rewrite Z.mul_assoc, (Z.mul_comm (Z.sgn z)), Z.abs_sgn. cbn [inject_Z Qnum Qden]. lia.
Qed.

(** The doubles of two well-known fractions, and of two integers that are
    not doubles. *)
Example to_double_examples :
  to_double (14 # 3) = (5254199565265579 # 1125899906842624)%Q
  /\ to_double (1 # 10) = (3602879701896397 # 36028797018963968)%Q
  /\ to_double (9 # 2) = (9 # 2)%Q
  /\ to_double (inject_Z (2 ^ 53 + 1)) = inject_Z (2 ^ 53)
  /\ to_double (inject_Z (2 ^ 53 + 3)) = inject_Z (2 ^ 53 + 4).
Proof. vm_compute. repeat split. Qed.

(** **** The mean *)

(** The arithmetic mean of a list of rationals: their sum over their number. *)
Definition arith_mean (vs : list Q) : Q :=
  (fold_right Qplus 0 vs / inject_Z (Z.of_nat (length vs)))%Q.

(** JavaScript numbers as rationals: the list is a list of numbers when no
    element is [NaN]. *)
Fixpoint all_numbers (vs : list qnum) : option (list Q) :=
  match vs with
  | [] => Some []
  | Some v :: rest => option_map (cons v) (all_numbers rest)
  | None :: _ => None
  end.

(** The sum of doubles from left to right, each partial sum a double. *)
Definition rounded_sum (qs : list Q) (start : Q) : Q :=
  fold_left (fun s v => to_double (s + v)) qs start.

(** The mean of JavaScript numbers, as doubles give it: the sum from left to
    right over the number of elements; [NaN] as soon as an element is. *)
Definition rounded_mean (vs : list qnum) : qnum :=
  option_map (fun qs => to_double (rounded_sum qs 0 / inject_Z (Z.of_nat (length qs))))
    (all_numbers vs).

(** The calls [f x1], [f x2], ... in order: the first exception ends them. *)
Fixpoint in_order {A B} (f : A -> Res B) (xs : list A) : Res (list B) :=
  match xs with
  | [] => Ok []
  | x :: rest => let* v := f x in let* vs := in_order f rest in Ok (v :: vs)
  end.

Fixpoint sum_of (zs : list Z) : Z :=
  match zs with
  | [] => 0
  | z :: rest => z + sum_of rest
  end.

Lemma arith_mean_integers (zs : list Z) :
  (arith_mean (List.map inject_Z zs)
   == inject_Z (sum_of zs) / inject_Z (Z.of_nat (length zs)))%Q.
Proof.
  unfold arith_mean. rewrite length_map.
  assert (Hsum : (fold_right Qplus 0 (List.map inject_Z zs) == inject_Z (sum_of zs))%Q).
  { induction zs as [|z zs IH]; [reflexivity |].
    cbn [List.map fold_right sum_of]. rewrite IH, inject_Z_plus. reflexivity. }
  rewrite Hsum. reflexivity.
Qed.

(** Integers whose partial sums all stay below [2 ^ 53] are summed
    exactly. *)
Lemma rounded_sum_integers (zs : list Z) (bound : Z) :
  Forall (fun z => Z.abs z <= bound) zs ->
  forall (start : Z) (s : Q),
    (s == inject_Z start)%Q ->
    Z.abs start + Z.of_nat (length zs) * bound < 2 ^ 53 ->
    (rounded_sum (List.map inject_Z zs) s == inject_Z (start + sum_of zs))%Q.
Proof.
  unfold rounded_sum. induction 1 as [|z zs Hz Hzs IH]; intros start s Hs Hsafe.
  - cbn [List.map fold_left sum_of]. rewrite Z.add_0_r. exact Hs.
  - cbn [List.map fold_left sum_of]. cbn [length] in Hsafe.
    assert (Hbound : 0 <= bound) by lia.
    rewrite (IH (start + z)).
    + rewrite Z.add_assoc. reflexivity.
    + rewrite (to_double_compat (s + inject_Z z) (inject_Z (start + z))).
      * apply to_double_integer. nia.
      * rewrite Hs, inject_Z_plus. reflexivity.
    + nia.
Qed.

Section Mean.
Context `{CardApi}.

Definition add_value (state : State) (acc : Res qnum) (curr : Card) : Res qnum :=
  let* s := acc in let* v := cardValue state curr (-1) in Ok (qadd s v).

Lemma cardValue_unknown_unfold (state : State) (card : Card) (order_ : Z) :
  suitIndex (base card) = -1 -> instanceofCard card = true ->
  cardValue state card order_ =
    (let* sum := fold_left (add_value state) (possible card) (Ok (Some 0%Q)) in
     Ok (qdiv_length sum (length (possible card)))).
Proof.
  intros Hsuit Hcard. destruct card as [b o isCard cl nc fi cm rs rw di cs poss inf].
  cbn in Hsuit, Hcard. subst isCard. cbn [cardValue possible]. rewrite Hsuit.
  reflexivity.
Qed.

Lemma fold_add_value_throw (state : State) (poss : list Card) (m : string) :
  fold_left (add_value state) poss (Throw m) = Throw m.
Proof. induction poss as [|p poss IH]; [reflexivity | exact IH]. Qed.

Lemma fold_add_value_in_order (state : State) (poss : list Card) (acc : qnum) :
  fold_left (add_value state) poss (Ok acc) =
    (let* vs := in_order (fun p => cardValue state p (-1)) poss in
     Ok (fold_left qadd vs acc)).
Proof.
  revert acc. induction poss as [|p poss IH]; intros acc; [reflexivity |].
  cbn [fold_left in_order]. unfold add_value at 2. cbn [Js.bind].
  destruct (cardValue state p (-1)) as [v|m]; cbn [Js.bind].
  - rewrite IH. destruct (in_order _ poss); reflexivity.
  - apply fold_add_value_throw.
Qed.

Lemma fold_qadd_nan (vs : list qnum) : fold_left qadd vs None = None.
Proof. induction vs as [|v vs IH]; [reflexivity | exact IH]. Qed.

Lemma fold_qadd_numbers (vs : list qnum) (acc : Q) :
  fold_left qadd vs (Some acc) = option_map (fun qs => rounded_sum qs acc) (all_numbers vs).
Proof.
  revert acc. induction vs as [|[v|] vs IH]; intros acc; cbn [all_numbers fold_left].
  - reflexivity.
  - cbn [qadd]. rewrite IH. destruct (all_numbers vs); reflexivity.
  - apply fold_qadd_nan.
Qed.

Lemma all_numbers_length (vs : list qnum) (qs : list Q) :
  all_numbers vs = Some qs -> length qs = length vs.
Proof.
  revert qs. induction vs as [|[v|] vs IH]; intros qs Hall; cbn in Hall.
  - injection Hall as <-. reflexivity.
  - destruct (all_numbers vs) as [qs'|]; [|discriminate Hall].
    injection Hall as <-. cbn. f_equal. apply IH. reflexivity.
  - discriminate Hall.
Qed.

Lemma in_order_length {A B} (f : A -> Res B) (xs : list A) (vs : list B) :
  in_order f xs = Ok vs -> length vs = length xs.
Proof.
  revert vs. induction xs as [|x xs IH]; intros vs Hin; cbn in Hin.
  - injection Hin as <-. reflexivity.
  - destruct (f x); [|discriminate Hin]. cbn in Hin.
    destruct (in_order f xs) as [vs'|]; [|discriminate Hin].
    injection Hin as <-. cbn. f_equal. apply IH. reflexivity.
Qed.

Lemma cardValue_is_rounded_mean (state : State) (card : Card) (order_ : Z) :
  suitIndex (base card) = -1 -> instanceofCard card = true -> possible card <> [] ->
  cardValue state card order_
  = (let* vs := in_order (fun p => cardValue state p (-1)) (possible card) in
     Ok (rounded_mean vs)).
Proof.
  intros Hsuit Hcard Hposs. rewrite cardValue_unknown_unfold by assumption.
  rewrite fold_add_value_in_order.
  destruct (in_order _ (possible card)) as [vs|m] eqn:Hin; cbn [Js.bind]; [|reflexivity].
  apply in_order_length in Hin. rewrite <- Hin.
  assert (Hvs : vs <> []).
  { intros ->. apply Hposs. destruct (possible card); [reflexivity | discriminate Hin]. }
  f_equal. rewrite fold_qadd_numbers. unfold rounded_mean.
  destruct (all_numbers vs) as [qs|] eqn:Hall; cbn [option_map].
  - apply all_numbers_length in Hall. rewrite Hall.
    destruct vs as [|v vs]; [contradiction | reflexivity].
  - destruct vs; [contradiction | reflexivity].
Qed.

(** The values of possibilities that are known identities are the values
    of the fixed cases. *)
Lemma in_order_known (state : State) (poss : list Card) (zs : list Z) (bound : Z) :
  Forall2 (fun p z => (suitIndex (base p) <> -1 \/ instanceofCard p = false)
                      /\ cardValue_known state (base p) (-1) = Ok (Some (inject_Z z))
                      /\ Z.abs z <= bound) poss zs ->
  in_order (fun p => cardValue state p (-1)) poss
  = Ok (List.map (fun z => Some (inject_Z z)) zs)
  /\ Forall (fun z => Z.abs z <= bound) zs.
Proof.
  induction 1 as [|p z poss zs (Hknown & Hvalue & Hz) Hrest [IHvalues IHbound]].
  - split; [reflexivity | constructor].
  - split; [|constructor; assumption].
    cbn [in_order List.map].
    assert (Hp : cardValue state p (-1) = cardValue_known state (base p) (-1)).
    { destruct p as [b o isCard cl nc fi cm rs rw di cs ps inf].
      cbn in Hknown. cbn [cardValue base].
      replace ((suitIndex b =? -1) && isCard) with false; [reflexivity |].
      symmetry. destruct Hknown as [Hne | ->]; [|apply andb_false_r].
      apply Z.eqb_neq in Hne. rewrite Hne. reflexivity. }
    rewrite Hp, Hvalue. cbn [Js.bind]. rewrite IHvalues. reflexivity.
Qed.

Lemma all_numbers_integers (zs : list Z) :
  all_numbers (List.map (fun z => Some (inject_Z z)) zs) = Some (List.map inject_Z zs).
Proof.
  induction zs as [|z zs IH]; [reflexivity |].
  cbn [List.map all_numbers]. rewrite IH. reflexivity.
Qed.

(** C9: for an unknown card of our own hand (suit index -1, an instance of
    Card) with a non-empty possible set, [cardValue] returns the mean of
    [cardValue] over its possibilities, whatever the other cases would have
    answered for the card itself: the possibilities are valued in order, an
    exception of one of them is the exception of the call, a [NaN] among
    the values makes the result [NaN], and the values are summed from left
    to right and divided by their number, in doubles. When the
    possibilities are known identities, whose values are those of the fixed
    cases, integers that sum up below [2 ^ 53], the result is the double
    nearest to their arithmetic mean. *)
Theorem cardValue_unknown_is_mean (state : State) (card : Card) (order_ : Z) :
  suitIndex (base card) = -1 -> instanceofCard card = true -> possible card <> [] ->
  cardValue state card order_
  = (let* vs := in_order (fun p => cardValue state p (-1)) (possible card) in
     Ok (rounded_mean vs))
  /\ forall zs bound,
       Forall2 (fun p z => (suitIndex (base p) <> -1 \/ instanceofCard p = false)
                           /\ cardValue_known state (base p) (-1) = Ok (Some (inject_Z z))
                           /\ Z.abs z <= bound) (possible card) zs ->
       Z.of_nat (length zs) * bound < 2 ^ 53 ->
       cardValue state card order_
       = Ok (Some (to_double (arith_mean (List.map inject_Z zs)))).
Proof.
  intros Hsuit Hcard Hposs.
  pose proof (cardValue_is_rounded_mean state card order_ Hsuit Hcard Hposs) as Hmean.
  split; [exact Hmean |].
  intros zs bound Hvalues Hsafe. rewrite Hmean.
  destruct (in_order_known state (possible card) zs bound Hvalues) as [-> Hbound].
  cbn [Js.bind]. unfold rounded_mean. rewrite all_numbers_integers. cbn [option_map].
  do 2 f_equal. apply to_double_compat.
  rewrite arith_mean_integers, length_map.
  rewrite (rounded_sum_integers zs bound Hbound 0 0%Q); [reflexivity | reflexivity |].
  cbn [Z.abs]. lia.
Qed.

End Mean.

(** A card of our own hand that is either a red 1 or a red 5, in a fresh
    game: the red 1 is worth 4 and the red 5 is critical and worth 5. *)
Definition one_or_five : Card :=
  mkCard (mkId (-1) (-1)) 0 true false false false false false false 0 []
    [PlainCards.plain_card 0 1; PlainCards.plain_card 0 5] [].

(** The same card when it may be the yellow 5 too. *)
Definition one_or_fives : Card :=
  mkCard (mkId (-1) (-1)) 0 true false false false false false false 0 []
    [PlainCards.plain_card 0 1; PlainCards.plain_card 0 5; PlainCards.plain_card 1 5] [].

Definition fresh_state : State := {|
  numPlayers := 2; ourPlayerIndex := 0;
  hands := [[one_or_five]; []]; deck := [];
  play_stacks := [0; 0; 0];
  discard_stacks := [[0; 0; 0; 0; 0]; [0; 0; 0; 0; 0]; [0; 0; 0; 0; 0]];
  max_ranks := [5; 5; 5];
  hypo_stacks := [[0; 0; 0]; [0; 0; 0]];
  state_suits := mkVariant ["Red"%string; "Yellow"%string; "Green"%string] None;
  score := 0; cardsLeft := 30; early_game := true; clue_tokens := 8 |}.

(** The card that is a red 1 or a red 5 is worth 4.5, and the one that may
    be the yellow 5 too is worth the double nearest to 14/3,
    4.666666666666667. *)
Lemma cardValue_unknown_is_mean_witness :
  cardValue (H := PlainCards.plain_api) fresh_state one_or_five 0 = Ok (Some (9 # 2))
  /\ cardValue (H := PlainCards.plain_api) fresh_state one_or_fives 0
     = Ok (Some (5254199565265579 # 1125899906842624)).
Proof.
  split.
  - refine (proj2 (cardValue_unknown_is_mean (H := PlainCards.plain_api)
                     fresh_state one_or_five 0 eq_refl eq_refl _) [4; 5] 5 _ _).
    + discriminate.
    + repeat constructor; cbn; lia.
    + cbn. lia.
  - refine (proj2 (cardValue_unknown_is_mean (H := PlainCards.plain_api)
                     fresh_state one_or_fives 0 eq_refl eq_refl _) [4; 5; 5] 5 _ _).
    + discriminate.
    + repeat constructor; cbn; lia.
    + cbn. lia.
Defined.

Example cardValue_one_or_five :
  cardValue (H := PlainCards.plain_api) fresh_state one_or_five 0 = Ok (Some (9 # 2))
  /\ in_order (fun p => cardValue (H := PlainCards.plain_api) fresh_state p (-1))
       (possible one_or_fives)
     = Ok [Some (inject_Z 4); Some (inject_Z 5); Some (inject_Z 5)]
  /\ cardValue (H := PlainCards.plain_api) fresh_state one_or_fives 0
     = Ok (Some (5254199565265579 # 1125899906842624)).
Proof. vm_compute. repeat split. Qed.

End HanabiUtilFacts.

(** * Properties of basics/Player.js *)
Module PlayerFacts.
Import PlayerJs.

(** *** Arrays *)

Lemma at_set_at_same {A} (l : list A) (i : Z) (old v : A) :
  at_ l i = Some old -> at_ (set_at l i v) i = Some v.
Proof.
  unfold at_, set_at. destruct (0 <=? i); [|discriminate].
  intros Hold. apply list_lookup_insert_eq. eapply lookup_lt_Some. exact Hold.
Qed.

Lemma at_set_at_other {A} (l : list A) (i j : Z) (v : A) :
  i <> j -> at_ (set_at l i v) j = at_ l j.
Proof.
  intros Hne. unfold at_, set_at.
  destruct (0 <=? i) eqn:Hi; [|reflexivity].
  destruct (0 <=? j) eqn:Hj; [|reflexivity].
  apply list_lookup_insert_ne. apply Z.leb_le in Hi, Hj. lia.
Qed.

Lemma length_set_at {A} (l : list A) (i : Z) (v : A) : length (set_at l i v) = length l.
Proof. unfold set_at. destruct (0 <=? i); [apply length_insert | reflexivity]. Qed.

Lemma has_In (s : list Z) (x : Z) : has s x = true <-> In x s.
Proof.
  unfold has. rewrite existsb_exists. split.
  - intros (y & Hy & Heq). apply Z.eqb_eq in Heq. subst y. exact Hy.
  - intros Hx. exists x. split; [exact Hx | apply Z.eqb_refl].
Qed.

Lemma In_add (s : list Z) (x y : Z) : In y (add s x) -> y = x \/ In y s.
Proof.
  unfold add. destruct (has s x); [right; assumption |].
  intros Hy. apply in_app_or in Hy. destruct Hy as [Hy | [Hy | []]]; [right | left]; auto.
Qed.

(** A filter that keeps less, and drops one element the other keeps, gives
    a strictly shorter list. *)
Lemma filter_length_le {A} (f g : A -> bool) (l : list A) :
  (forall x, In x l -> g x = true -> f x = true) ->
  (length (List.filter g l) <= length (List.filter f l))%nat.
Proof.
  induction l as [|a l IH]; intros Himp; [reflexivity |].
  cbn [List.filter]. specialize (IH (fun x Hx => Himp x (or_intror Hx))).
  pose proof (Himp a (or_introl eq_refl)) as Ha.
  destruct (g a); destruct (f a); cbn [length]; first [lia | discriminate (Ha eq_refl)].
Qed.

Lemma filter_length_lt {A} (f g : A -> bool) (l : list A) (x : A) :
  (forall y, In y l -> g y = true -> f y = true) ->
  In x l -> f x = true -> g x = false ->
  (length (List.filter g l) < length (List.filter f l))%nat.
Proof.
  induction l as [|a l IH]; intros Himp Hin Hf Hg; [destruct Hin |].
  cbn [List.filter]. pose proof (Himp a (or_introl eq_refl)) as Ha.
  assert (Hrest : forall y, In y l -> g y = true -> f y = true)
    by (intros y Hy; apply Himp; right; exact Hy).
  destruct Hin as [-> | Hin].
  - rewrite Hf, Hg. pose proof (filter_length_le f g l Hrest). cbn [length]. lia.
  - specialize (IH Hrest Hin Hf Hg).
    destruct (g a); destruct (f a); cbn [length]; first [lia | discriminate (Ha eq_refl)].
Qed.

Section Run.
Context `{CardApi}.
Variables (p : Player) (state : State).

(** The identities the loop can put on the stacks: the identity the player
    gives to a card of a hand, and the first identity of a link. *)
Definition card_candidate (o : Z) : list Identity :=
  match at_ (thoughts p) o with
  | Some c => match identity c infer_true with Some i => [base i] | None => [] end
  | None => []
  end.

Definition link_candidate (l : Link) : list Identity :=
  match identities l with id0 :: _ => [id0] | [] => [] end.

Definition candidates : list Identity :=
  flat_map card_candidate (hand_orders state) ++ flat_map link_candidate (links p).

Lemma flat_map_length_le {A B} (f : A -> list B) (l : list A) :
  (forall x, (length (f x) <= 1)%nat) -> (length (flat_map f l) <= length l)%nat.
Proof.
  intros Hf. induction l as [|a l IH]; [reflexivity |].
  cbn [flat_map]. rewrite length_app. cbn [length]. specialize (Hf a). lia.
Qed.

Lemma candidates_length :
  (length candidates <= length (hand_orders state) + length (links p))%nat.
Proof.
  unfold candidates. rewrite length_app.
  pose proof (flat_map_length_le card_candidate (hand_orders state)) as Hc.
  pose proof (flat_map_length_le link_candidate (links p)) as Hl.
  assert ((length (flat_map card_candidate (hand_orders state))
           <= length (hand_orders state))%nat).
  { apply Hc. intros o. unfold card_candidate.
    destruct (at_ (thoughts p) o) as [c|]; [|cbn; lia].
    destruct (identity c infer_true); cbn; lia. }
  assert ((length (flat_map link_candidate (links p)) <= length (links p))%nat).
  { apply Hl. intros l. unfold link_candidate. destruct (identities l); cbn; lia. }
  lia.
Qed.

(** An identity is pending on stacks that are still below its rank. *)
Definition pending (stk : list Z) (id : Identity) : bool :=
  nlt (at_ stk (suitIndex id)) (Some (rank id)).

Definition pending_count (st : Loop) : nat :=
  length (List.filter (pending (stacks st)) candidates).

(** What one iteration of the loop body does to the loop variables. *)
Inductive visit_effect (o : Z) (st : Loop) : Loop -> Prop :=
| effect_none : visit_effect o st st
| effect_unknown : visit_effect o st (record_play st o)
| effect_warn st1 id w :
    st1 = st \/ st1 = record_play st o ->
    next_rank st1 id = false ->
    visit_effect o st (warn st1 w)
| effect_advance st1 id :
    st1 = st \/ st1 = record_play st o ->
    In id candidates ->
    next_rank st1 id = true ->
    visit_effect o st (advance st1 id).

Lemma card_candidate_In (o : Z) (c i : Card) :
  In o (hand_orders state) -> at_ (thoughts p) o = Some c ->
  identity c infer_true = Some i -> In (base i) candidates.
Proof.
  intros Ho Hc Hi. unfold candidates. apply in_or_app. left.
  apply in_flat_map. exists o. split; [exact Ho |].
  unfold card_candidate. rewrite Hc, Hi. left. reflexivity.
Qed.

Lemma link_candidate_In (l : Link) (id0 : Identity) (rest : list Identity) :
  In l (links p) -> identities l = id0 :: rest -> In id0 candidates.
Proof.
  intros Hl Hids. unfold candidates. apply in_or_app. right.
  apply in_flat_map. exists l. split; [exact Hl |].
  unfold link_candidate. rewrite Hids. left. reflexivity.
Qed.

Lemma unknown_play_effect (st st' : Loop) (o : Z) :
  unknown_play p st o = Ok st' -> visit_effect o st st'.
Proof.
  unfold unknown_play.
  destruct (List.find _ (links p)) as [l|] eqn:Hfind.
  - apply find_some in Hfind. destruct Hfind as [Hl _].
    destruct (forallb _ (cards l)).
    + destruct (identities l) as [|id0 rest] eqn:Hids; [discriminate |].
      destruct (next_rank (record_play st o) id0) eqn:Hnext; cbn [negb];
        intros Hst'; injection Hst' as <-.
      * apply effect_advance; [right; reflexivity | | exact Hnext].
        eapply link_candidate_In; eassumption.
      * eapply effect_warn; [right; reflexivity | exact Hnext].
    + intros Hst'. injection Hst' as <-. apply effect_unknown.
  - intros Hst'. injection Hst' as <-. apply effect_unknown.
Qed.

Lemma known_play_effect (st : Loop) (o : Z) (c i : Card) :
  In (base i) candidates -> visit_effect o st (known_play st c i).
Proof.
  intros Hi. unfold known_play.
  destruct (next_rank st (base i)) eqn:Hnext; cbn [negb].
  - apply effect_advance; [left; reflexivity | exact Hi | exact Hnext].
  - eapply effect_warn; [left; reflexivity | exact Hnext].
Qed.

Lemma visit_effect_of_visit (linked : list Z) (st st' : Loop) (o : Z) :
  In o (hand_orders state) ->
  visit p state linked st o = Ok st' -> visit_effect o st st'.
Proof.
  intros Ho. unfold visit, at_or_throw.
  destruct (at_ (thoughts p) o) as [c|] eqn:Hc; cbn [Js.bind]; [|discriminate].
  destruct (negb (saved c) || _ || _).
  { intros Hst'. injection Hst' as <-. apply effect_none. }
  destruct (playable_now p state st o c) as [[|]|]; cbn [Js.bind]; try discriminate.
  2: { intros Hst'. injection Hst' as <-. apply effect_none. }
  destruct (at_ (deck state) o) as [actual|]; cbn [Js.bind]; [|discriminate].
  destruct (false_update p state st o _ _) as [[|]|]; cbn [Js.bind]; try discriminate.
  { intros Hst'. injection Hst' as <-. apply effect_none. }
  destruct (identity c infer_true) as [i|] eqn:Hi.
  - intros Hst'. injection Hst' as <-. apply known_play_effect.
    eapply card_candidate_In; eassumption.
  - apply unknown_play_effect.
Qed.

(** *** The loop only moves the stacks up *)

(** From one point of the loop to a later one: the stacks keep their length
    and only grow, and the unknown plays only gain orders of cards in
    hands. *)
Record grows (st st' : Loop) : Prop := {
  grows_length : length (stacks st') = length (stacks st);
  grows_stacks : forall s v, at_ (stacks st) s = Some v ->
                 exists v', at_ (stacks st') s = Some v' /\ v <= v';
  grows_plays : forall o, In o (plays st') -> In o (plays st) \/ In o (hand_orders state) }.

(** A new playable is found only together with an identity that stops being
    pending. *)
Record progress (st st' : Loop) : Prop := {
  progress_pending : (pending_count st' <= pending_count st)%nat;
  progress_found : found_new_playable st' = found_new_playable st
                   \/ (found_new_playable st' = true
                       /\ (pending_count st' < pending_count st)%nat) }.

Lemma grows_refl (st : Loop) : grows st st.
Proof.
  constructor; try reflexivity.
  - intros s v Hv. exists v. split; [exact Hv | lia].
  - intros o Ho. left. exact Ho.
Qed.

Lemma grows_trans (a b c : Loop) : grows a b -> grows b c -> grows a c.
Proof.
  intros [Hl1 Hs1 Hp1] [Hl2 Hs2 Hp2]. constructor.
  - congruence.
  - intros s v Hv. destruct (Hs1 s v Hv) as (v1 & Hv1 & Hle1).
    destruct (Hs2 s v1 Hv1) as (v2 & Hv2 & Hle2). exists v2. split; [exact Hv2 | lia].
  - intros o Ho. destruct (Hp2 o Ho) as [Hb | Hh]; [apply Hp1; exact Hb | right; exact Hh].
Qed.

Lemma progress_refl (st : Loop) : progress st st.
Proof. constructor; [reflexivity | left; reflexivity]. Qed.

Lemma progress_same (st st' : Loop) :
  stacks st' = stacks st -> found_new_playable st' = found_new_playable st ->
  progress st st'.
Proof.
  intros Hs Hf. constructor; unfold pending_count; rewrite Hs; [reflexivity | left; exact Hf].
Qed.

Lemma progress_trans (a b c : Loop) : progress a b -> progress b c -> progress a c.
Proof.
  intros [Hc1 Hf1] [Hc2 Hf2]. constructor; [lia |].
  destruct Hf2 as [Heq2 | [Ht2 Hlt2]].
  - destruct Hf1 as [Heq1 | [Ht1 Hlt1]]; [left; congruence |].
    right. split; [congruence | lia].
  - right. split; [exact Ht2 | lia].
Qed.

Lemma next_rank_true (st : Loop) (id : Identity) :
  next_rank st id = true -> at_ (stacks st) (suitIndex id) = Some (rank id - 1).
Proof.
  unfold next_rank, neq, nadd.
  destruct (at_ (stacks st) (suitIndex id)) as [h|]; [|discriminate].
  intros Heq. apply Z.eqb_eq in Heq. f_equal. lia.
Qed.

Lemma grows_record_play (st : Loop) (o : Z) :
  In o (hand_orders state) -> grows st (record_play st o).
Proof.
  intros Ho. constructor; try reflexivity.
  - intros s v Hv. exists v. split; [exact Hv | lia].
  - intros o' Ho'. cbn [record_play plays] in Ho'. apply In_add in Ho'.
    destruct Ho' as [-> | Hold]; [right; exact Ho | left; exact Hold].
Qed.

Lemma grows_warn (st : Loop) (w : Warning) : grows st (warn st w).
Proof.
  constructor; try reflexivity.
  - intros s v Hv. exists v. split; [exact Hv | lia].
  - intros o Ho. left. exact Ho.
Qed.

Lemma pending_after_advance (st : Loop) (id y : Identity) :
  next_rank st id = true ->
  pending (stacks (advance st id)) y = true -> pending (stacks st) y = true.
Proof.
  intros Hnext. apply next_rank_true in Hnext. unfold pending. cbn [advance stacks].
  destruct (Z.eq_dec (suitIndex id) (suitIndex y)) as [Heq | Hne].
  - rewrite <- Heq. rewrite (at_set_at_same _ _ _ _ Hnext), Hnext.
    unfold nlt. intros Hlt. apply Z.ltb_lt in Hlt. apply Z.ltb_lt. lia.
  - rewrite (at_set_at_other _ _ _ _ Hne). trivial.
Qed.

Lemma grows_advance (st : Loop) (id : Identity) :
  next_rank st id = true -> grows st (advance st id).
Proof.
  intros Hnext. pose proof (next_rank_true _ _ Hnext) as Hat. constructor.
  - cbn [advance stacks]. apply length_set_at.
  - intros s v Hv. cbn [advance stacks].
    destruct (Z.eq_dec (suitIndex id) s) as [<- | Hne].
    + rewrite (at_set_at_same _ _ _ _ Hat). exists (rank id). split; [reflexivity |].
      rewrite Hat in Hv. injection Hv as <-. lia.
    + rewrite (at_set_at_other _ _ _ _ Hne). exists v. split; [exact Hv | lia].
  - intros o Ho. left. exact Ho.
Qed.

Lemma progress_advance (st : Loop) (id : Identity) :
  In id candidates -> next_rank st id = true -> progress st (advance st id).
Proof.
  intros Hin Hnext. pose proof (next_rank_true _ _ Hnext) as Hat.
  assert (Hlt : (pending_count (advance st id) < pending_count st)%nat).
  { unfold pending_count. apply (filter_length_lt _ _ _ id).
    - intros y _. apply pending_after_advance. exact Hnext.
    - exact Hin.
    - unfold pending. rewrite Hat. unfold nlt. apply Z.ltb_lt. lia.
    - unfold pending. cbn [advance stacks]. rewrite (at_set_at_same _ _ _ _ Hat).
      unfold nlt. apply Z.ltb_irrefl. }
  constructor; [lia |]. right. split; [reflexivity | exact Hlt].
Qed.

Lemma effect_grows (o : Z) (st st' : Loop) :
  In o (hand_orders state) -> visit_effect o st st' -> grows st st'.
Proof.
  intros Ho Heff. destruct Heff as [| | st1 id w Hst1 Hnext | st1 id Hst1 Hin Hnext].
  - apply grows_refl.
  - apply grows_record_play. exact Ho.
  - apply (grows_trans _ st1); [|apply grows_warn].
    destruct Hst1 as [-> | ->]; [apply grows_refl | apply grows_record_play; exact Ho].
  - apply (grows_trans _ st1); [|apply grows_advance; assumption].
    destruct Hst1 as [-> | ->]; [apply grows_refl | apply grows_record_play; exact Ho].
Qed.

Lemma effect_progress (o : Z) (st st' : Loop) : visit_effect o st st' -> progress st st'.
Proof.
  intros Heff. destruct Heff as [| | st1 id w Hst1 Hnext | st1 id Hst1 Hin Hnext].
  - apply progress_refl.
  - apply progress_same; reflexivity.
  - destruct Hst1 as [-> | ->]; apply progress_same; reflexivity.
  - apply (progress_trans _ st1); [|apply progress_advance; assumption].
    destruct Hst1 as [-> | ->]; apply progress_same; reflexivity.
Qed.

Definition visit_next (linked : list Z) (acc : Res Loop) (o : Z) : Res Loop :=
  let* s := acc in visit p state linked s o.

Lemma fold_visit_throw (linked : list Z) (os : list Z) (m : string) :
  fold_left (visit_next linked) os (Throw m) = Throw m.
Proof. induction os as [|o os IH]; [reflexivity | exact IH]. Qed.

Lemma fold_visit_grows (linked : list Z) (os : list Z) :
  (forall o, In o os -> In o (hand_orders state)) ->
  forall st st', fold_left (visit_next linked) os (Ok st) = Ok st' ->
                 grows st st' /\ progress st st'.
Proof.
  induction os as [|o os IH]; intros Hos st st' Hfold.
  - injection Hfold as <-. split; [apply grows_refl | apply progress_refl].
  - cbn [fold_left] in Hfold. unfold visit_next at 2 in Hfold. cbn [Js.bind] in Hfold.
    destruct (visit p state linked st o) as [st1|m] eqn:Hvisit.
    + assert (Ho : In o (hand_orders state)) by (apply Hos; left; reflexivity).
      pose proof (visit_effect_of_visit _ _ _ _ Ho Hvisit) as Heff.
      destruct (IH (fun o' Ho' => Hos o' (or_intror Ho')) st1 st' Hfold) as [Hg Hp].
      split.
      * apply (grows_trans _ st1); [eapply effect_grows; eassumption | exact Hg].
      * apply (progress_trans _ st1); [eapply effect_progress; eassumption | exact Hp].
    + rewrite fold_visit_throw in Hfold. discriminate Hfold.
Qed.

Lemma scan_grows (linked : list Z) (st st' : Loop) :
  scan p state linked st = Ok st' -> grows st st' /\ progress st st'.
Proof. apply fold_visit_grows. trivial. Qed.

(** The loop ends: every pass that finds a new playable uses up a pending
    identity. Its result keeps the bounds of [grows]. *)
Lemma hypo_loop_total (linked : list Z) (fuel : nat) :
  forall st, (pending_count st < fuel)%nat ->
  exists r, hypo_loop fuel p state linked st = Some r /\
            forall st', r = Ok st' -> found_new_playable st' = false /\ grows st st'.
Proof.
  induction fuel as [|fuel IH]; intros st Hfuel; [lia |].
  cbn [hypo_loop].
  destruct (scan p state linked (clear_found st)) as [st1|m] eqn:Hscan.
  - destruct (scan_grows _ _ _ Hscan) as [Hgrow Hprog].
    assert (Hgrow' : grows st st1).
    { destruct Hgrow as [Hl Hs Hp]. constructor; assumption. }
    destruct (found_new_playable st1) eqn:Hfound.
    + assert (Hlt : (pending_count st1 < fuel)%nat).
      { destruct (progress_found _ _ Hprog) as [Heq | [_ Hlt]].
        - rewrite Hfound in Heq. discriminate Heq.
        - unfold pending_count in *. cbn [clear_found stacks] in Hlt. lia. }
      destruct (IH st1 Hlt) as (r & Hr & Hres). exists r. split; [exact Hr |].
      intros st' Hst'. destruct (Hres st' Hst') as [Hf Hg]. split; [exact Hf |].
      apply (grows_trans _ st1); assumption.
    + exists (Ok st1). split; [reflexivity |].
      intros st' Hst'. injection Hst' as <-. split; assumption.
  - exists (Throw m). split; [reflexivity |]. intros st' Hst'. discriminate Hst'.
Qed.

(** More passes than needed change nothing. *)
Lemma hypo_loop_more_fuel (linked : list Z) (fuel : nat) :
  forall st r, hypo_loop fuel p state linked st = Some r ->
  forall fuel', (fuel <= fuel')%nat -> hypo_loop fuel' p state linked st = Some r.
Proof.
  induction fuel as [|fuel IH]; intros st r Hrun fuel' Hle; [discriminate Hrun |].
  destruct fuel' as [|fuel']; [lia |]. cbn [hypo_loop] in *.
  destruct (scan p state linked (clear_found st)) as [st1|m]; [|exact Hrun].
  destruct (found_new_playable st1); [|exact Hrun].
  apply (IH _ _ Hrun). lia.
Qed.

Definition start : Loop := mkLoop (play_stacks state) [] [] true [].

Lemma start_pending : (pending_count start < enough_fuel p state)%nat.
Proof.
  unfold pending_count, enough_fuel.
  pose proof candidates_length.
  pose proof (List.filter_length_le (pending (stacks start)) candidates). lia.
Qed.

End Run.

Section Calls.
Context `{CardApi}.

(** *** What a call reads, and what it returns *)

Lemma update_hypo_stacks_result (state : State) (p : Player) :
  exists r, update_hypo_stacks (enough_fuel p state) p state = Some r /\
    forall p' ws, r = Ok (p', ws) ->
      exists st', p' = with_hypo p st' /\ ws = warnings st' /\ grows state (start state) st'.
Proof.
  unfold update_hypo_stacks.
  destruct (linkedOrders p state) as [linked|m].
  - destruct (hypo_loop_total p state linked (enough_fuel p state) (start state)
                (start_pending p state)) as (r & Hr & Hres).
    fold (start state). rewrite Hr. destruct r as [st'|m].
    + eexists. split; [reflexivity |]. intros p' ws Heq. injection Heq as <- <-.
      exists st'. split; [reflexivity |]. split; [reflexivity |].
      apply (Hres st' eq_refl).
    + eexists. split; [reflexivity |]. intros p' ws Heq. discriminate Heq.
  - eexists. split; [reflexivity |]. intros p' ws Heq. discriminate Heq.
Qed.

(** Two players that agree on the index, the thoughts, the links and the
    waiting connections. *)
Definition same_beliefs (p q : Player) : Prop :=
  playerIndex q = playerIndex p /\ thoughts q = thoughts p /\ links q = links p
  /\ waiting_connections q = waiting_connections p.

Lemma hypo_loop_same_beliefs (state : State) (p q : Player) (linked : list Z) (fuel : nat) :
  same_beliefs p q ->
  forall st, hypo_loop fuel q state linked st = hypo_loop fuel p state linked st.
Proof.
  intros (Hi & Ht & Hl & Hw). destruct p as [i ap ai hs t l u w].
  destruct q as [i' ap' ai' hs' t' l' u' w']. cbn in Hi, Ht, Hl, Hw. subst i' t' l' w'.
  induction fuel as [|fuel IH]; intros st; [reflexivity |].
  cbn [hypo_loop].
  change (scan (mkPlayer i ap' ai' hs' t l u' w) state linked (clear_found st))
    with (scan (mkPlayer i ap ai hs t l u w) state linked (clear_found st)).
  destruct (scan _ state linked (clear_found st)) as [st1|m]; [|reflexivity].
  destruct (found_new_playable st1); [apply IH | reflexivity].
Qed.

Lemma update_hypo_stacks_same_beliefs (state : State) (p q : Player) (fuel : nat) :
  same_beliefs p q ->
  match update_hypo_stacks fuel p state, update_hypo_stacks fuel q state with
  | Some (Ok (p', ws)), Some (Ok (q', ws')) =>
      hypo_stacks q' = hypo_stacks p' /\ unknown_plays q' = unknown_plays p' /\ ws' = ws
  | Some (Throw m), Some (Throw m') => m = m'
  | None, None => True
  | _, _ => False
  end.
Proof.
  intros Hsame. unfold update_hypo_stacks.
  assert (Hlinked : linkedOrders q state = linkedOrders p state).
  { destruct Hsame as (_ & _ & Hl & _). unfold linkedOrders. rewrite Hl. reflexivity. }
  rewrite Hlinked. destruct (linkedOrders p state) as [linked|m]; [|reflexivity].
  rewrite (hypo_loop_same_beliefs state p q) by exact Hsame.
  destruct (hypo_loop fuel p state linked _) as [[st|m]|]; auto.
Qed.

Lemma fake_wcs_ok (state : State) (p : Player) (o : Z) (actual : Card) :
  at_ (deck state) o = Some actual -> exists l, fake_wcs p state o = Ok l.
Proof.
  intros Hdeck. unfold fake_wcs.
  induction (waiting_connections p) as [|wc wcs (l & IH)]; [exists []; reflexivity |].
  cbn [filter_res]. rewrite IH.
  destruct (order (focused_card wc) =? o) eqn:Hfocus; cbn [negb Js.bind].
  - destruct (fake wc); cbn [Js.bind]; [eexists; reflexivity |].
    apply Z.eqb_eq in Hfocus. unfold deck_matches_inference, at_or_throw.
    rewrite Hfocus, Hdeck. cbn [Js.bind]. eexists. reflexivity.
  - eexists. reflexivity.
Qed.

(** *** A call on a well-formed table returns *)

(** Every card of a hand has a thought and a deck entry, the focused card of
    every waiting connection has a deck entry, every promised link names an
    identity, and the linked orders can be computed. *)
Record well_formed (state : State) (p : Player) : Prop := {
  wf_thoughts : forall o, In o (hand_orders state) -> exists c, at_ (thoughts p) o = Some c;
  wf_deck : forall o, In o (hand_orders state) -> exists c, at_ (deck state) o = Some c;
  wf_focus : forall wc, In wc (waiting_connections p) ->
             exists c, at_ (deck state) (order (focused_card wc)) = Some c;
  wf_links : forall link, In link (links p) -> promised link = true -> identities link <> [];
  wf_linked : exists linked, linkedOrders p state = Ok linked }.

Lemma some_res_ok {A} (f : A -> Res bool) (l : list A) :
  (forall x, In x l -> exists b, f x = Ok b) -> exists b, some_res f l = Ok b.
Proof.
  induction l as [|x l IH]; intros Hall; [exists false; reflexivity |].
  cbn [some_res]. destruct (Hall x (or_introl eq_refl)) as (b & ->). cbn [Js.bind].
  destruct b; [exists true; reflexivity |].
  apply IH. intros y Hy. apply Hall. right. exact Hy.
Qed.

Lemma false_update_ok (state : State) (p : Player) (st : Loop) (o : Z)
    (id actual_id : option Card) :
  well_formed state p -> exists b, false_update p state st o id actual_id = Ok b.
Proof.
  intros Hwf. unfold false_update.
  destruct (negb (playerIndex p =? -1)); [eexists; reflexivity |].
  destruct (match id, actual_id with Some i, Some a => _ | _, _ => false end);
    [eexists; reflexivity |].
  destruct (match actual_id with Some a => _ | None => false end); [eexists; reflexivity |].
  assert (Hwcs : forall (g : bool -> WaitingConnection -> bool),
            exists b, some_res (fun wc => let* ok := deck_matches_inference state wc in
                                          Ok (g ok wc)) (waiting_connections p) = Ok b).
  { intros g. apply some_res_ok. intros wc Hwc.
    destruct (wf_focus _ _ Hwf wc Hwc) as (c & Hc).
    unfold deck_matches_inference, at_or_throw. rewrite Hc. cbn [Js.bind].
    eexists. reflexivity. }
  destruct (Hwcs (fun ok wc => negb ok && in_remaining_chain wc o)) as (b1 & ->).
  cbn [Js.bind]. destruct b1; cbn [negb]; [|eexists; reflexivity].
  destruct (Hwcs (fun ok wc => ok && in_remaining_chain wc o)) as (b2 & ->).
  cbn [Js.bind]. eexists. reflexivity.
Qed.

Lemma unknown_play_ok (state : State) (p : Player) (st : Loop) (o : Z) :
  well_formed state p -> exists st', unknown_play p st o = Ok st'.
Proof.
  intros Hwf. unfold unknown_play.
  destruct (List.find _ (links p)) as [link|] eqn:Hfind; [|eexists; reflexivity].
  apply find_some in Hfind. destruct Hfind as [Hin Hprom].
  apply andb_prop in Hprom. destruct Hprom as [Hprom _].
  destruct (forallb _ (cards link)); [|eexists; reflexivity].
  pose proof (wf_links _ _ Hwf link Hin Hprom) as Hids.
  destruct (identities link) as [|id0 rest]; [contradiction |].
  destruct (negb _); eexists; reflexivity.
Qed.

Lemma visit_ok (state : State) (p : Player) (linked : list Z) (st : Loop) (o : Z) :
  well_formed state p -> In o (hand_orders state) ->
  exists st', visit p state linked st o = Ok st'.
Proof.
  intros Hwf Ho. unfold visit, at_or_throw.
  destruct (wf_thoughts _ _ Hwf o Ho) as (c & ->). cbn [Js.bind].
  destruct (negb (saved c) || _ || _); [eexists; reflexivity |].
  destruct (wf_deck _ _ Hwf o Ho) as (actual & Hactual).
  unfold playable_now. destruct (fake_wcs_ok state p o actual Hactual) as (fakes & ->).
  cbn [Js.bind]. match goal with |- exists _, (if ?b then _ else _) = _ => destruct b end;
    [|eexists; reflexivity].
  rewrite Hactual. cbn [Js.bind].
  destruct (false_update_ok state p st o (identity c infer_true)
              (identity actual no_options) Hwf) as (skip & ->).
  cbn [Js.bind]. destruct skip; [eexists; reflexivity |].
  destruct (identity c infer_true); [eexists; reflexivity |].
  apply unknown_play_ok with (state := state). exact Hwf.
Qed.

Lemma fold_visit_ok (state : State) (p : Player) (linked : list Z) (os : list Z) :
  well_formed state p -> (forall o, In o os -> In o (hand_orders state)) ->
  forall st, exists st', fold_left (visit_next p state linked) os (Ok st) = Ok st'.
Proof.
  intros Hwf. induction os as [|o os IH]; intros Hos st; [eexists; reflexivity |].
  cbn [fold_left]. unfold visit_next at 2. cbn [Js.bind].
  destruct (visit_ok state p linked st o Hwf (Hos o (or_introl eq_refl))) as (st1 & ->).
  apply IH. intros o' Ho'. apply Hos. right. exact Ho'.
Qed.

Lemma hypo_loop_returns (state : State) (p : Player) (linked : list Z) (fuel : nat) :
  well_formed state p ->
  forall st, (pending_count p state st < fuel)%nat ->
  exists st', hypo_loop fuel p state linked st = Some (Ok st').
Proof.
  intros Hwf. induction fuel as [|fuel IH]; intros st Hfuel; [lia |].
  cbn [hypo_loop].
  destruct (fold_visit_ok state p linked (hand_orders state) Hwf (fun o Ho => Ho)
              (clear_found st)) as (st1 & Hscan).
  unfold scan. fold (visit_next p state linked). rewrite Hscan.
  destruct (found_new_playable st1) eqn:Hfound; [|eexists; reflexivity].
  apply IH. destruct (scan_grows p state linked (clear_found st) st1 Hscan) as [_ Hprog].
  destruct (progress_found _ _ _ _ Hprog) as [Heq | [_ Hlt]].
  - rewrite Hfound in Heq. discriminate Heq.
  - unfold pending_count in *. cbn [clear_found stacks] in Hlt. lia.
Qed.

Lemma update_hypo_stacks_returns (state : State) (p : Player) :
  well_formed state p ->
  exists p' ws, update_hypo_stacks (enough_fuel p state) p state = Some (Ok (p', ws)).
Proof.
  intros Hwf. unfold update_hypo_stacks. destruct (wf_linked _ _ Hwf) as (linked & ->).
  destruct (hypo_loop_returns state p linked (enough_fuel p state) Hwf (start state)
              (start_pending p state)) as (st' & Hrun).
  fold (start state). rewrite Hrun. eexists _, _. reflexivity.
Qed.

(** The player's identity for the card of order [o] contradicts the deck. *)
Definition contradicts_deck (state : State) (p : Player) (o : Z) : Prop :=
  exists c actual i a,
    at_ (thoughts p) o = Some c /\ at_ (deck state) o = Some actual /\
    identity c infer_true = Some i /\ identity actual no_options = Some a /\
    matches i (base a) no_options = false.

(** The deck's identity of the card of order [o] is the identity of a card
    in a hand whose order is already among the unknown plays. *)
Definition duplicates_unknown_play (state : State) (p : Player) (st : Loop) (o : Z) : Prop :=
  exists c actual a c',
    at_ (thoughts p) o = Some c /\ at_ (deck state) o = Some actual /\
    identity actual no_options = Some a /\
    In c' (concat (hands state)) /\ In (order c') (plays st) /\
    matches c' (base a) no_options = true.

Lemma visit_guarded (state : State) (p : Player) (linked : list Z) (st : Loop) (o : Z) :
  playerIndex p = -1 ->
  contradicts_deck state p o \/ duplicates_unknown_play state p st o ->
  visit p state linked st o = Ok st.
Proof.
  intros Hcommon Hguard.
  assert (Hshape : exists c actual a,
             at_ (thoughts p) o = Some c /\ at_ (deck state) o = Some actual /\
             identity actual no_options = Some a /\
             false_update p state st o (identity c infer_true) (Some a) = Ok true).
  { destruct Hguard as [(c & actual & i & a & Hc & Hd & Hi & Ha & Hno)
                       | (c & actual & a & c' & Hc & Hd & Ha & Hin & Hplay & Hyes)];
      exists c, actual, a; repeat (split; [assumption |]);
      unfold false_update; rewrite Hcommon; cbn [Z.eqb negb Pos.eqb].
    - rewrite Hi, Hno. reflexivity.
    - destruct (match identity c infer_true with
                | Some i => negb (matches i (base a) no_options)
                | None => false
                end); [reflexivity |].
      assert (Hex : existsb (fun c0 => has (plays st) (order c0)
                                      && matches c0 (base a) no_options)
                      (concat (hands state)) = true).
      { apply existsb_exists. exists c'. split; [exact Hin |].
        apply andb_true_intro. split; [apply has_In; exact Hplay | exact Hyes]. }
      rewrite Hex. reflexivity. }
  destruct Hshape as (c & actual & a & Hc & Hd & Ha & Hskip).
  unfold visit, at_or_throw. rewrite Hc. cbn [Js.bind].
  destruct (negb (saved c) || _ || _); [reflexivity |].
  unfold playable_now. destruct (fake_wcs_ok state p o actual Hd) as (l & ->).
  cbn [Js.bind]. match goal with |- (if ?b then _ else _) = _ => destruct b end;
    [|reflexivity].
  rewrite Hd. cbn [Js.bind]. rewrite Ha, Hskip. reflexivity.
Qed.

(** *** The claims *)

(** C10: a call of [update_hypo_stacks] ends, and it returns on a
    well-formed table; when it returns, the hypothetical stacks have the
    length of the play stacks and are at least as high in every suit, and
    every order among the unknown plays is the order of a card in some
    hand. *)
Theorem update_hypo_stacks_bounds (state : State) (p : Player) :
  exists r, update_hypo_stacks (enough_fuel p state) p state = Some r /\
    (well_formed state p -> exists p' ws, r = Ok (p', ws)) /\
    forall p' ws, r = Ok (p', ws) ->
      length (hypo_stacks p') = length (play_stacks state) /\
      (forall s v, at_ (play_stacks state) s = Some v ->
                   exists h, at_ (hypo_stacks p') s = Some h /\ v <= h) /\
      (forall o, In o (unknown_plays p') ->
                 exists c, In c (concat (hands state)) /\ order c = o).
Proof.
  destruct (update_hypo_stacks_result state p) as (r & Hr & Hres).
  exists r. split; [exact Hr |]. split.
  { intros Hwf. destruct (update_hypo_stacks_returns state p Hwf) as (p' & ws & Hok).
    exists p', ws. congruence. }
  intros p' ws Heq.
  destruct (Hres p' ws Heq) as (st' & -> & _ & [Hlen Hstacks Hplays]).
  cbn [with_hypo hypo_stacks unknown_plays]. cbn [start stacks plays] in *.
  split; [exact Hlen |]. split; [exact Hstacks |].
  intros o Ho. destruct (Hplays o Ho) as [[] | Hin].
  unfold hand_orders in Hin. apply in_map_iff in Hin.
  destruct Hin as (c & Hc & Hin). exists c. split; assumption.
Qed.

(** C2: when a call of [update_hypo_stacks] has returned, a second call on
    the player it left, with the same state, returns the same hypothetical
    stacks and the same unknown plays (and logs the same warnings). *)
Theorem update_hypo_stacks_idempotent (state : State) (p p1 : Player)
    (ws : list Warning) (fuel : nat) :
  update_hypo_stacks fuel p state = Some (Ok (p1, ws)) ->
  exists p2,
    update_hypo_stacks fuel p1 state = Some (Ok (p2, ws)) /\
    hypo_stacks p2 = hypo_stacks p1 /\ unknown_plays p2 = unknown_plays p1.
Proof.
  intros Hfirst.
  assert (Hsame : same_beliefs p p1).
  { unfold update_hypo_stacks in Hfirst.
    destruct (linkedOrders p state); [|discriminate Hfirst].
    destruct (hypo_loop fuel p state _ _) as [[st|m]|]; try discriminate Hfirst.
    injection Hfirst as <- _. repeat split. }
  pose proof (update_hypo_stacks_same_beliefs state p p1 fuel Hsame) as Hboth.
  rewrite Hfirst in Hboth.
  destruct (update_hypo_stacks fuel p1 state) as [[[p2 ws2]|m]|]; try contradiction.
  destruct Hboth as (Hh & Hu & ->). exists p2. repeat split; assumption.
Qed.

(** The loop body is reached for the card of order [o]: the player has a
    thought [c] for it, which is saved, matches no eliminated identity and
    is not linked; it is playable now; the deck holds [actual] at [o]; and
    the guard against false updates lets it through. *)
Definition reaches_body (state : State) (p : Player) (linked : list Z) (st : Loop) (o : Z)
    (c actual : Card) : Prop :=
  at_ (thoughts p) o = Some c
  /\ saved c = true
  /\ (forall e, In e (good_touch_elim st) -> matches c e no_options = false)
  /\ ~ In o linked
  /\ playable_now p state st o c = Ok true
  /\ at_ (deck state) o = Some actual
  /\ false_update p state st o (identity c infer_true) (identity actual no_options) = Ok false.

(** The stack of the suit of [id] was one below the rank of [id] and is now
    that rank; no other stack moved; [id] is eliminated, a new playable is
    found and no warning is logged. *)
Definition raised_to (st st' : Loop) (id : Identity) : Prop :=
  at_ (stacks st) (suitIndex id) = Some (rank id - 1)
  /\ at_ (stacks st') (suitIndex id) = Some (rank id)
  /\ length (stacks st') = length (stacks st)
  /\ (forall s, s <> suitIndex id -> at_ (stacks st') s = at_ (stacks st) s)
  /\ good_touch_elim st' = good_touch_elim st ++ [id]
  /\ found_new_playable st' = true
  /\ warnings st' = warnings st.

(** The warning [w] is logged, and the stacks, the eliminated identities and
    the flag are as they were. *)
Definition warned_only (st st' : Loop) (w : Warning) : Prop :=
  stacks st' = stacks st
  /\ good_touch_elim st' = good_touch_elim st
  /\ found_new_playable st' = found_new_playable st
  /\ warnings st' = warnings st ++ [w].

(** [link] is the first promised link of the player with a card of order [o]. *)
Definition first_promised_link (p : Player) (o : Z) (link : Link) : Prop :=
  exists before after,
    links p = before ++ link :: after
    /\ promised link = true
    /\ (exists c, In c (cards link) /\ order c = o)
    /\ forall l, In l before ->
         promised l = false \/ forall c, In c (cards l) -> order c <> o.

Lemma next_rank_false (st : Loop) (id : Identity) :
  next_rank st id = false -> at_ (stacks st) (suitIndex id) <> Some (rank id - 1).
Proof.
  unfold next_rank, neq, nadd.
  destruct (at_ (stacks st) (suitIndex id)) as [h|]; [|discriminate].
  intros Hne Heq. injection Heq as ->. apply Z.eqb_neq in Hne. lia.
Qed.

Lemma raised_to_advance (st : Loop) (id : Identity) :
  next_rank st id = true -> raised_to st (advance st id) id.
Proof.
  intros Hnext. apply next_rank_true in Hnext. unfold raised_to. cbn [advance stacks
    good_touch_elim found_new_playable warnings].
  split; [exact Hnext |].
  split; [exact (at_set_at_same _ _ _ _ Hnext) |].
  split; [apply length_set_at |].
  split; [intros s Hs; apply at_set_at_other; congruence |].
  repeat split.
Qed.

Lemma find_first {A} (f : A -> bool) (before after : list A) (x : A) :
  f x = true -> (forall y, In y before -> f y = false) ->
  List.find f (before ++ x :: after) = Some x.
Proof.
  intros Hx. induction before as [|y before IH]; intros Hbefore; cbn [app List.find].
  - rewrite Hx. reflexivity.
  - rewrite (Hbefore y (or_introl eq_refl)).
    apply IH. intros z Hz. apply Hbefore. right. exact Hz.
Qed.

Lemma find_promised_link (p : Player) (o : Z) (link : Link) :
  first_promised_link p o link ->
  List.find (fun l => promised l && existsb (fun c => order c =? o) (cards l)) (links p)
  = Some link.
Proof.
  intros (before & after & -> & Hprom & (c & Hc & Ho) & Hbefore).
  apply find_first.
  - rewrite Hprom. cbn [andb]. apply existsb_exists. exists c.
    split; [exact Hc | apply Z.eqb_eq; exact Ho].
  - intros l Hl. destruct (Hbefore l Hl) as [-> | Hnone]; [reflexivity |].
    apply andb_false_iff. right.
    destruct (existsb (fun c0 => order c0 =? o) (cards l)) eqn:Hex; [|reflexivity].
    apply existsb_exists in Hex. destruct Hex as (c0 & Hc0 & Heq).
    apply Z.eqb_eq in Heq. exfalso. exact (Hnone c0 Hc0 Heq).
Qed.

Lemma has_add (s : list Z) (x y : Z) : y = x \/ In y s -> has (add s x) y = true.
Proof.
  intros Hy. apply has_In. unfold add.
  destruct (has s x) eqn:Hx.
  - destruct Hy as [-> | Hy]; [apply has_In; exact Hx | exact Hy].
  - apply in_or_app. destruct Hy as [-> | Hy]; [right; left; reflexivity | left; exact Hy].
Qed.

(** Under [reaches_body], an iteration is the branch taken on the identity
    the player gives to the card. *)
Lemma visit_body (state : State) (p : Player) (linked : list Z) (st : Loop) (o : Z)
    (c actual : Card) :
  reaches_body state p linked st o c actual ->
  visit p state linked st o
  = match identity c infer_true with
    | None => unknown_play p st o
    | Some i => Ok (known_play st c i)
    end.
Proof.
  intros (Hc & Hsaved & Helim & Hlinked & Hplayable & Hactual & Hguard).
  unfold visit, at_or_throw. rewrite Hc. cbn [Js.bind]. rewrite Hsaved. cbn [negb orb].
  replace (existsb (fun e => matches c e no_options) (good_touch_elim st)) with false.
  2: { symmetry. destruct (existsb _ (good_touch_elim st)) eqn:Hex; [|reflexivity].
       apply existsb_exists in Hex. destruct Hex as (e & He & Hyes).
       rewrite (Helim e He) in Hyes. discriminate Hyes. }
  replace (has linked o) with false.
  2: { symmetry. destruct (has linked o) eqn:Hhas; [|reflexivity].
       apply has_In in Hhas. contradiction. }
  cbn [orb]. rewrite Hplayable. cbn [Js.bind]. rewrite Hactual. cbn [Js.bind].
  rewrite Hguard. cbn [Js.bind]. reflexivity.
Qed.

(** C4 (amended): every iteration of the loop of [update_hypo_stacks] that
    returns either leaves the stacks as they are, with at most one warning
    and then the eliminated identities and the flag unchanged too, or raises
    one stack by exactly one to the rank of the identity played, without a
    warning. When the body is reached for a card whose identity the player
    knows, the stack of that identity is raised if the rank is one above it,
    and otherwise the warning for the card is logged and nothing else
    changes. When the identity is unknown and the card completes the first
    promised link that holds it, the same is done with the first identity
    of the link, after the card is recorded as an unknown play. For the
    common player (index -1), a card whose known identity contradicts the
    deck, or whose deck identity is that of a card already among the unknown
    plays, leaves the loop variables untouched. And the call ends, with a
    result on a well-formed table. *)
Theorem update_hypo_stacks_advances (state : State) (p : Player) :
  (forall linked st o st',
      In o (hand_orders state) -> visit p state linked st o = Ok st' ->
      (stacks st' = stacks st
       /\ (warnings st' = warnings st \/ exists w, warned_only st st' w))
      \/ exists id, raised_to st st' id)
  /\ (forall linked st o c actual i,
        reaches_body state p linked st o c actual ->
        identity c infer_true = Some i ->
        exists st',
          visit p state linked st o = Ok st'
          /\ plays st' = plays st
          /\ ((at_ (stacks st) (suitIndex (base i)) = Some (rank (base i) - 1)
               /\ raised_to st st' (base i))
              \/ (at_ (stacks st) (suitIndex (base i)) <> Some (rank (base i) - 1)
                  /\ warned_only st st'
                       (TriedToAddCard c (at_ (stacks st) (suitIndex (base i)))))))
  /\ (forall linked st o c actual link id0 rest,
        reaches_body state p linked st o c actual ->
        identity c infer_true = None ->
        first_promised_link p o link ->
        (forall c', In c' (cards link) -> order c' = o \/ In (order c') (plays st)) ->
        identities link = id0 :: rest ->
        exists st',
          visit p state linked st o = Ok st'
          /\ plays st' = add (plays st) o
          /\ ((at_ (stacks st) (suitIndex id0) = Some (rank id0 - 1)
               /\ raised_to st st' id0)
              \/ (at_ (stacks st) (suitIndex id0) <> Some (rank id0 - 1)
                  /\ warned_only st st'
                       (TriedToAddLink id0 (at_ (stacks st) (suitIndex id0))))))
  /\ (forall linked st o,
        playerIndex p = -1 ->
        contradicts_deck state p o \/ duplicates_unknown_play state p st o ->
        visit p state linked st o = Ok st)
  /\ (exists r, update_hypo_stacks (enough_fuel p state) p state = Some r
                 /\ (well_formed state p -> exists p' ws, r = Ok (p', ws))).
Proof.
  split; [|split; [|split; [|split]]].
  - intros linked st o st' Ho Hvisit.
    pose proof (visit_effect_of_visit p state linked st st' o Ho Hvisit) as Heff.
    destruct Heff as [| | st1 id w Hst1 Hnext | st1 id Hst1 Hin Hnext].
    + left. split; [reflexivity | left; reflexivity].
    + left. split; [reflexivity | left; reflexivity].
    + left. split; [destruct Hst1 as [-> | ->]; reflexivity |].
      right. exists w. destruct Hst1 as [-> | ->]; repeat split.
    + right. exists id. pose proof (raised_to_advance st1 id Hnext) as Hraised.
      destruct Hst1 as [-> | ->]; exact Hraised.
  - intros linked st o c actual i Hreach Hid.
    rewrite (visit_body state p linked st o c actual Hreach), Hid.
    eexists. split; [reflexivity |]. unfold known_play.
    destruct (next_rank st (base i)) eqn:Hnext; cbn [negb].
    + split; [reflexivity |]. left.
      split; [apply next_rank_true; exact Hnext | apply raised_to_advance; exact Hnext].
    + split; [reflexivity |]. right.
      split; [apply next_rank_false; exact Hnext | repeat split].
  - intros linked st o c actual link id0 rest Hreach Hid Hlink Hall Hids.
    rewrite (visit_body state p linked st o c actual Hreach), Hid.
    unfold unknown_play. rewrite (find_promised_link p o link Hlink).
    replace (forallb (fun c0 => has (plays (record_play st o)) (order c0)) (cards link))
      with true.
    2: { symmetry. apply forallb_forall. intros c' Hc'. cbn [record_play plays].
         apply has_add. apply Hall. exact Hc'. }
    rewrite Hids.
    destruct (next_rank (record_play st o) id0) eqn:Hnext; cbn [negb];
      eexists; (split; [reflexivity |]); (split; [reflexivity |]).
    + left. split; [exact (next_rank_true _ _ Hnext) |].
      exact (raised_to_advance (record_play st o) id0 Hnext).
    + right. split; [exact (next_rank_false _ _ Hnext) | repeat split].
  - intros linked st o Hcommon Hguard. apply visit_guarded; assumption.
  - destruct (update_hypo_stacks_result state p) as (r & Hr & _). exists r.
    split; [exact Hr |]. intros Hwf.
    destruct (update_hypo_stacks_returns state p Hwf) as (p' & ws & Hok).
    exists p', ws. congruence.
Qed.

End Calls.

(** *** A run on a concrete table

    Two players. Alice holds a red 1 (order 0); Bob holds a second red 1
    (order 1) and a yellow 1 (order 2). All three are clued. Commonly, the
    card of order 0 is known to be the red 1; the card of order 1 is red 1
    or yellow 1 and inferred red 1; the card of order 2 is yellow 1 or
    green 1. *)
Module Table.
Import PlainCards.

Definition held (s r o : Z) : Card :=
  mkCard (mkId s r) o true true false false false false false o [] [] [].

Definition thought (o : Z) (poss inf : list Card) : Card :=
  mkCard (mkId (-1) (-1)) o true true false false false false false o [] poss inf.

Definition r1 := plain_card 0 1.
Definition y1 := plain_card 1 1.
Definition g1 := plain_card 2 1.

Definition table : State := {|
  numPlayers := 2; ourPlayerIndex := 0;
  hands := [[held 0 1 0]; [held 0 1 1; held 1 1 2]];
  deck := [held 0 1 0; held 0 1 1; held 1 1 2];
  play_stacks := [0; 0; 0];
  discard_stacks := [[0; 0; 0; 0; 0]; [0; 0; 0; 0; 0]; [0; 0; 0; 0; 0]];
  max_ranks := [5; 5; 5];
  Basics.hypo_stacks := [[0; 0; 0]; [0; 0; 0]];
  state_suits := mkVariant ["Red"%string; "Yellow"%string; "Green"%string] None;
  score := 0; cardsLeft := 30; early_game := true; clue_tokens := 8 |}.

Definition common : Player := {|
  playerIndex := -1;
  all_possible := []; all_inferred := [];
  hypo_stacks := [0; 0; 0];
  thoughts := [thought 0 [r1] [r1]; thought 1 [r1; y1] [r1]; thought 2 [y1; g1] [y1; g1]];
  links := [];
  unknown_plays := [];
  waiting_connections := [] |}.

Definition first_call : option (Res (Player * list Warning)) :=
  Eval vm_compute in update_hypo_stacks (H := plain_api) 4 common table.

Definition after_first : Player :=
  Eval vm_compute in
    match first_call with Some (Ok (p1, _)) => p1 | _ => common end.

Definition first_warnings : list Warning :=
  Eval vm_compute in
    match first_call with Some (Ok (_, ws)) => ws | _ => [] end.

(** The red stack moves to 1, the card of order 2 is an unknown play, and
    the second red 1 is answered by a warning in each of the two passes. *)
Example first_call_result :
  update_hypo_stacks (H := plain_api) 4 common table = Some (Ok (after_first, first_warnings))
  /\ hypo_stacks after_first = [1; 0; 0]
  /\ unknown_plays after_first = [2]
  /\ length first_warnings = 2%nat.
Proof. vm_compute. repeat split. Qed.

Lemma table_well_formed : well_formed (H := plain_api) table common.
Proof.
  constructor.
  - intros o [<- | [<- | [<- | []]]]; eexists; reflexivity.
  - intros o [<- | [<- | [<- | []]]]; eexists; reflexivity.
  - intros wc [].
  - intros link [].
  - eexists. reflexivity.
Qed.

End Table.

(** *** A promised link against the deck

    Two players. Alice holds a yellow 2 (order 0), Bob a green 3 (order 1),
    both clued. Commonly, each is inferred to be red 1 or yellow 1, and a
    promised link says that the two cards hold the red 1. *)
Module PromisedLink.
Import PlainCards.

Definition r1 := plain_card 0 1.
Definition y1 := plain_card 1 1.
Definition y2 := plain_card 1 2.
Definition g3 := plain_card 2 3.

Definition table : State := {|
  numPlayers := 2; ourPlayerIndex := 0;
  hands := [[Table.held 1 2 0]; [Table.held 2 3 1]];
  deck := [Table.held 1 2 0; Table.held 2 3 1];
  play_stacks := [0; 0; 0];
  discard_stacks := [[0; 0; 0; 0; 0]; [0; 0; 0; 0; 0]; [0; 0; 0; 0; 0]];
  max_ranks := [5; 5; 5];
  Basics.hypo_stacks := [[0; 0; 0]; [0; 0; 0]];
  state_suits := mkVariant ["Red"%string; "Yellow"%string; "Green"%string] None;
  score := 0; cardsLeft := 30; early_game := true; clue_tokens := 8 |}.

Definition promise (id : Identity) : Link :=
  mkLink [Table.held 1 2 0; Table.held 2 3 1] [id] true.

Definition second_thought : Card := Table.thought 1 [r1; y1; g3] [r1; y1].

Definition common_with (link : Link) : Player := {|
  playerIndex := -1;
  all_possible := []; all_inferred := [];
  hypo_stacks := [0; 0; 0];
  thoughts := [Table.thought 0 [r1; y1; y2] [r1; y1]; second_thought];
  links := [link];
  unknown_plays := [];
  waiting_connections := [] |}.

Definition common : Player := common_with (promise (mkId 0 1)).

(** The loop variables when the card of order 0 has been recorded as an
    unknown play. *)
Definition first_recorded : Loop := mkLoop [0; 0; 0] [0] [] false [].

Lemma second_reaches_body (id : Identity) :
  reaches_body (H := plain_api) table (common_with (promise id)) [] first_recorded 1
    second_thought (Table.held 2 3 1).
Proof.
  split; [reflexivity |]. split; [reflexivity |].
  split; [intros e [] |]. split; [intros [] |].
  repeat split.
Qed.

Lemma second_completes (id : Identity) :
  first_promised_link (common_with (promise id)) 1 (promise id)
  /\ (forall c', In c' (cards (promise id)) ->
        order c' = 1 \/ In (order c') (plays first_recorded)).
Proof.
  split.
  - exists [], []. split; [reflexivity |]. split; [reflexivity |].
    split; [exists (Table.held 2 3 1); split; [right; left |]; reflexivity |].
    intros l [].
  - intros c' [<- | [<- | []]]; [right; left; reflexivity | left; reflexivity].
Qed.

End PromisedLink.

(** C4, as the specification states it, fails: for the common player, the
    second card of the promised link raises the red stack to 1, although no
    card of the deck is the red 1: the cards of the link are a yellow 2 and
    a green 3. The call returns red at 1 and both cards as unknown plays,
    without a warning. *)
Lemma update_hypo_stacks_promised_link_ignores_deck :
  playerIndex PromisedLink.common = -1
  /\ (forall c, In c (deck PromisedLink.table) -> base c <> mkId 0 1)
  /\ play_stacks PromisedLink.table = [0; 0; 0]
  /\ visit (H := PlainCards.plain_api) PromisedLink.common PromisedLink.table []
       PromisedLink.first_recorded 1
     = Ok (mkLoop [1; 0; 0] [0; 1] [mkId 0 1] true [])
  /\ exists p',
       update_hypo_stacks (H := PlainCards.plain_api) 4 PromisedLink.common PromisedLink.table
       = Some (Ok (p', []))
       /\ hypo_stacks p' = [1; 0; 0] /\ unknown_plays p' = [0; 1].
Proof.
  split; [reflexivity |].
  split; [intros c [<- | [<- | []]]; discriminate |].
  split; [reflexivity |]. split; [reflexivity |].
  eexists. split; [vm_compute; reflexivity |]. split; reflexivity.
Qed.

Lemma update_hypo_stacks_idempotent_witness :
  exists p2,
    update_hypo_stacks (H := PlainCards.plain_api) 4 Table.after_first Table.table
    = Some (Ok (p2, Table.first_warnings))
    /\ hypo_stacks p2 = hypo_stacks Table.after_first
    /\ unknown_plays p2 = unknown_plays Table.after_first.
Proof.
  apply (update_hypo_stacks_idempotent (H := PlainCards.plain_api)
           Table.table Table.common Table.after_first Table.first_warnings 4).
  vm_compute. reflexivity.
Defined.

(** On the table above, which is well formed, the call returns. *)
Lemma update_hypo_stacks_bounds_witness :
  exists p' ws,
    update_hypo_stacks (H := PlainCards.plain_api)
      (enough_fuel Table.common Table.table) Table.common Table.table = Some (Ok (p', ws)).
Proof.
  destruct (update_hypo_stacks_bounds (H := PlainCards.plain_api) Table.table Table.common)
    as (r & Hr & Hreturns & _).
  destruct (Hreturns Table.table_well_formed) as (p' & ws & ->).
  exists p', ws. exact Hr.
Defined.

(** On the first table: the known red 1 of order 0 raises the red stack;
    once red is at 1, the card of order 1, inferred red 1, is answered by a
    warning; and once the card of order 2 is an unknown play, the common
    player skips it, its deck identity being accounted for. On the table of
    the promised link: the second card of the link raises red to 1, and,
    were the link for the red 2, it would be answered by a warning. *)
Lemma update_hypo_stacks_advances_witness :
  (exists st',
     visit (H := PlainCards.plain_api) Table.common Table.table []
       (mkLoop [0; 0; 0] [] [] false []) 0 = Ok st'
     /\ plays st' = []
     /\ raised_to (mkLoop [0; 0; 0] [] [] false []) st' (mkId 0 1))
  /\ (exists st',
        visit (H := PlainCards.plain_api) Table.common Table.table []
          (mkLoop [1; 0; 0] [] [mkId 0 1] false []) 1 = Ok st'
        /\ plays st' = []
        /\ warned_only (mkLoop [1; 0; 0] [] [mkId 0 1] false []) st'
             (TriedToAddCard (Table.thought 1 [Table.r1; Table.y1] [Table.r1]) (Some 1)))
  /\ (exists st',
        visit (H := PlainCards.plain_api) PromisedLink.common PromisedLink.table []
          PromisedLink.first_recorded 1 = Ok st'
        /\ plays st' = [0; 1]
        /\ raised_to PromisedLink.first_recorded st' (mkId 0 1))
  /\ (exists st',
        visit (H := PlainCards.plain_api)
          (PromisedLink.common_with (PromisedLink.promise (mkId 0 2))) PromisedLink.table []
          PromisedLink.first_recorded 1 = Ok st'
        /\ plays st' = [0; 1]
        /\ warned_only PromisedLink.first_recorded st' (TriedToAddLink (mkId 0 2) (Some 0)))
  /\ visit (H := PlainCards.plain_api) Table.common Table.table []
       (mkLoop [1; 0; 0] [2] [mkId 0 1] false []) 2
     = Ok (mkLoop [1; 0; 0] [2] [mkId 0 1] false []).
Proof.
  destruct (update_hypo_stacks_advances (H := PlainCards.plain_api) Table.table Table.common)
    as (_ & Hknown & _ & Hguard & _).
  split; [| split; [| split; [| split]]].
  - destruct (Hknown [] (mkLoop [0; 0; 0] [] [] false []) 0
                (Table.thought 0 [Table.r1] [Table.r1]) (Table.held 0 1 0) Table.r1)
      as (st' & Hvisit & Hplays & [[_ Hraised] | [Hrank _]]).
    + split; [reflexivity |]. split; [reflexivity |].
      split; [intros e [] |]. split; [intros [] |]. repeat split.
    + reflexivity.
    + exists st'. split; [exact Hvisit | split; [exact Hplays | exact Hraised]].
    + exfalso. apply Hrank. reflexivity.
  - destruct (Hknown [] (mkLoop [1; 0; 0] [] [mkId 0 1] false []) 1
                (Table.thought 1 [Table.r1; Table.y1] [Table.r1]) (Table.held 0 1 1) Table.r1)
      as (st' & Hvisit & Hplays & [[Hrank _] | [_ Hwarned]]).
    + split; [reflexivity |]. split; [reflexivity |].
      split; [intros e [<- | []]; reflexivity |]. split; [intros [] |]. repeat split.
    + reflexivity.
    + discriminate Hrank.
    + exists st'. split; [exact Hvisit | split; [exact Hplays | exact Hwarned]].
  - destruct (update_hypo_stacks_advances (H := PlainCards.plain_api)
                PromisedLink.table PromisedLink.common) as (_ & _ & Hlink & _).
    destruct (Hlink [] PromisedLink.first_recorded 1 PromisedLink.second_thought
                (Table.held 2 3 1) (PromisedLink.promise (mkId 0 1)) (mkId 0 1) []
                (PromisedLink.second_reaches_body (mkId 0 1)) eq_refl
                (proj1 (PromisedLink.second_completes (mkId 0 1)))
                (proj2 (PromisedLink.second_completes (mkId 0 1))) eq_refl)
      as (st' & Hvisit & Hplays & [[_ Hraised] | [Hrank _]]).
    + exists st'. split; [exact Hvisit | split; [exact Hplays | exact Hraised]].
    + exfalso. apply Hrank. reflexivity.
  - destruct (update_hypo_stacks_advances (H := PlainCards.plain_api)
                PromisedLink.table (PromisedLink.common_with (PromisedLink.promise (mkId 0 2))))
      as (_ & _ & Hlink & _).
    destruct (Hlink [] PromisedLink.first_recorded 1 PromisedLink.second_thought
                (Table.held 2 3 1) (PromisedLink.promise (mkId 0 2)) (mkId 0 2) []
                (PromisedLink.second_reaches_body (mkId 0 2)) eq_refl
                (proj1 (PromisedLink.second_completes (mkId 0 2)))
                (proj2 (PromisedLink.second_completes (mkId 0 2))) eq_refl)
      as (st' & Hvisit & Hplays & [[Hrank _] | [_ Hwarned]]).
    + discriminate Hrank.
    + exists st'. split; [exact Hvisit | split; [exact Hplays | exact Hwarned]].
  - apply Hguard.
    + reflexivity.
    + right. exists (Table.thought 2 [Table.y1; Table.g1] [Table.y1; Table.g1]),
        (Table.held 1 1 2), (Table.held 1 1 2), (Table.held 1 1 2).
      repeat split.
      * right. right. left. reflexivity.
      * left. reflexivity.
Defined.

End PlayerFacts.

(** * Properties of conventions/playful-sieve.js *)
Module PlayfulSieveFacts.
Import PlayfulSieveJs.

Section Copies.
Context `{StateJs}.

(** C7: [minimalCopy] throws "Maximum recursive depth reached." when the
    copy depth of the state exceeds 3, and nothing is returned. When the
    copy depth is at most 3 it returns a new object, different from every
    object of the store, whose copy depth is the original's plus one; the
    original and every other object of the store are as they were. *)
Theorem minimalCopy_depth (store : Store) (this : nat) (self : Sieve) :
  store !! this = Some self ->
  (3 < copyDepth self -> minimalCopy this store = Throw max_depth_reached)
  /\ (copyDepth self <= 3 ->
      exists newState store' copied,
        minimalCopy this store = Ok (newState, store')
        /\ newState <> this
        /\ store !! newState = None
        /\ store' !! newState = Some copied
        /\ copyDepth copied = copyDepth self + 1
        /\ store' !! this = Some self
        /\ (forall other o, store !! other = Some o -> store' !! other = Some o)).
Proof.
  intros Hself. unfold minimalCopy. rewrite Hself. split.
  - intros Hdeep. apply Z.ltb_lt in Hdeep. rewrite Hdeep. reflexivity.
  - intros Hshallow. destruct (3 <? copyDepth self) eqn:Hdepth.
    { apply Z.ltb_lt in Hdepth. lia. }
    pose proof (lookup_lt_Some _ _ _ Hself) as Hlt.
    eexists _, _, _. split; [reflexivity |].
    split; [lia |].
    split; [apply lookup_ge_None; lia |].
    split; [apply list_lookup_middle; reflexivity |].
    split; [reflexivity |].
    split; [apply lookup_app_l_Some; exact Hself |].
    intros other o Hother. apply lookup_app_l_Some. exact Hother.
Qed.

(** The copy carries the copied properties of the original, and its hands
    point to the copy. *)
Lemma minimalCopy_properties (store store' : Store) (this newState : nat) (self copied : Sieve) :
  store !! this = Some self ->
  minimalCopy this store = Ok (newState, store') ->
  store' !! newState = Some copied ->
  play_stacks copied = play_stacks self /\ hypo_stacks copied = hypo_stacks self
  /\ discard_stacks copied = discard_stacks self /\ max_ranks copied = max_ranks self
  /\ List.map hand_cards (hands copied) = List.map hand_cards (hands self)
  /\ Forall (fun hand => hand_state hand = newState) (hands copied)
  /\ clue_tokens copied = clue_tokens self /\ strikes copied = strikes self
  /\ cardsLeft copied = cardsLeft self /\ locked_shifts copied = locked_shifts self.
Proof.
  intros Hself. unfold minimalCopy. rewrite Hself.
  destruct (3 <? copyDepth self); [discriminate |].
  intros Hcopy. injection Hcopy as <- <-. intros Hcopied.
  match type of Hcopied with
  | (store ++ [?c]) !! _ = _ =>
      assert (Heq : Some c = Some copied)
        by (rewrite <- Hcopied; symmetry; apply list_lookup_middle; reflexivity)
  end.
  injection Heq as <-.
  cbn. repeat split.
  - rewrite List.map_map. reflexivity.
  - apply List.Forall_forall. intros hand Hin. apply in_map_iff in Hin.
    destruct Hin as (h0 & <- & _). reflexivity.
Qed.

End Copies.

(** A state object built by a constructor that starts every counter at 0. *)
#[local] Instance zero_state : StateJs := {|
  new_State := fun t names our ss prog =>
    mkSieve t names our ss prog [] [] [] [] [] 0 8 0 true 0 0 0 0 [] 0 |}.

Definition fresh_game : Sieve :=
  mkSieve 1 ["Alice"%string; "Bob"%string] 0 ["Red"%string] true [2] [[2]; [2]] [[0; 0; 0; 0; 0]] [5]
    [mkHand [] 0; mkHand [] 0] 4 8 0 true 0 40 0 0 [] 0.

Lemma minimalCopy_depth_witness :
  (3 < copyDepth fresh_game ->
   minimalCopy (H := zero_state) 0 [fresh_game] = Throw max_depth_reached)
  /\ (copyDepth fresh_game <= 3 ->
      exists newState store' copied,
        minimalCopy (H := zero_state) 0 [fresh_game] = Ok (newState, store')
        /\ newState <> 0%nat
        /\ [fresh_game] !! newState = None
        /\ store' !! newState = Some copied
        /\ copyDepth copied = copyDepth fresh_game + 1
        /\ store' !! 0%nat = Some fresh_game
        /\ (forall other o, [fresh_game] !! other = Some o -> store' !! other = Some o)).
Proof. exact (minimalCopy_depth (H := zero_state) [fresh_game] 0 fresh_game eq_refl). Defined.

Example minimalCopy_too_deep :
  minimalCopy (H := zero_state) 0 [with_copyDepth fresh_game 4] = Throw max_depth_reached.
Proof. reflexivity. Qed.

Example minimalCopy_at_three :
  option_map copyDepth
    (match minimalCopy (H := zero_state) 0 [with_copyDepth fresh_game 3] with
     | Ok (n, store') => store' !! n
     | Throw _ => None
     end) = Some 4.
Proof. reflexivity. Qed.

End PlayfulSieveFacts.

(** * Properties of focus-possible.js *)
Module FocusPossibleFacts.
Import FocusPossibleJs.

(** An entry is dropped when an entry behind it has the same suit and rank:
    the duplicates removed, stated on the list itself. *)
Fixpoint keep_last (l : list FocusPossibility) : list FocusPossibility :=
  match l with
  | [] => []
  | p :: rest => if existsb (same_pair p) rest then keep_last rest else p :: keep_last rest
  end.

Lemma some_from_behind {A} (g : A -> bool) (i1 : Z) (l : list A) (i0 : Z) :
  i1 < i0 -> some_from i0 (fun i2 x => g x && (i1 <? i2)) l = existsb g l.
Proof.
  revert i0. induction l as [|x l IH]; intros i0 Hlt; [reflexivity |].
  cbn [some_from existsb]. rewrite IH by lia.
  replace (i1 <? i0) with true by (symmetry; apply Z.ltb_lt; lia).
  rewrite andb_true_r. reflexivity.
Qed.

Lemma some_from_after {A} (g : A -> bool) (pre : list A) (x : A) (rest : list A) (i0 : Z) :
  some_from i0 (fun i2 y => g y && (i0 + Z.of_nat (length pre) <? i2)) (pre ++ x :: rest)
  = existsb g rest.
Proof.
  revert i0. induction pre as [|y pre IH]; intros i0.
  - cbn [app length some_from]. rewrite Z.add_0_r, Z.ltb_irrefl, andb_false_r.
    cbn [orb]. apply some_from_behind. lia.
  - cbn [app length some_from].
    replace (i0 + Z.of_nat (S (length pre)) <? i0) with false
      by (symmetry; apply Z.ltb_ge; lia).
    rewrite andb_false_r. cbn [orb].
    replace (i0 + Z.of_nat (S (length pre))) with (i0 + 1 + Z.of_nat (length pre)) by lia.
    apply IH.
Qed.

Lemma remove_earlier_from (pre l : list FocusPossibility) :
  filter_from (Z.of_nat (length pre))
    (fun index1 p1 =>
       negb (some_from 0 (fun index2 p2 => same_pair p1 p2 && (index1 <? index2)) (pre ++ l)))
    l
  = keep_last l.
Proof.
  revert pre. induction l as [|p rest IH]; intros pre; [reflexivity |].
  cbn [filter_from keep_last].
  pose proof (some_from_after (same_pair p) pre p rest 0) as Hafter.
  rewrite Z.add_0_l in Hafter. rewrite Hafter.
  specialize (IH (pre ++ [p])). rewrite <- app_assoc in IH. cbn [app] in IH.
  rewrite length_app in IH. cbn [length] in IH.
  replace (Z.of_nat (length pre + 1)) with (Z.of_nat (length pre) + 1) in IH by lia.
  rewrite IH. destruct (existsb (same_pair p) rest); reflexivity.
Qed.

Lemma remove_earlier_duplicates_keep_last (l : list FocusPossibility) :
  remove_earlier_duplicates l = keep_last l.
Proof. exact (remove_earlier_from [] l). Qed.

Lemma keep_last_In (l : list FocusPossibility) (p : FocusPossibility) :
  In p (keep_last l) ->
  exists before after, l = before ++ p :: after /\ existsb (same_pair p) after = false.
Proof.
  induction l as [|q rest IH]; [intros [] |].
  cbn [keep_last]. destruct (existsb (same_pair q) rest) eqn:Hlater.
  - intros Hin. destruct (IH Hin) as (before & after & -> & Hnone).
    exists (q :: before), after. split; [reflexivity | exact Hnone].
  - intros [<- | Hin].
    + exists [], rest. split; [reflexivity | exact Hlater].
    + destruct (IH Hin) as (before & after & -> & Hnone).
      exists (q :: before), after. split; [reflexivity | exact Hnone].
Qed.

Lemma keep_last_subset (l : list FocusPossibility) (p : FocusPossibility) :
  In p (keep_last l) -> In p l.
Proof.
  intros Hin. destruct (keep_last_In l p Hin) as (before & after & -> & _).
  apply in_or_app. right. left. reflexivity.
Qed.

Lemma keep_last_last (before after : list FocusPossibility) (p : FocusPossibility) :
  existsb (same_pair p) after = false -> In p (keep_last (before ++ p :: after)).
Proof.
  intros Hnone. induction before as [|q before IH]; cbn [app keep_last].
  - rewrite Hnone. left. reflexivity.
  - destruct (existsb (same_pair q) (before ++ p :: after)); [exact IH | right; exact IH].
Qed.

(** No two entries that are kept have the same suit and rank. *)
Lemma keep_last_distinct (l : list FocusPossibility) (i j : nat) (p q : FocusPossibility) :
  (i < j)%nat -> keep_last l !! i = Some p -> keep_last l !! j = Some q ->
  same_pair p q = false.
Proof.
  revert i j. induction l as [|x rest IH]; intros i j Hlt Hi Hj; [discriminate Hi |].
  cbn [keep_last] in Hi, Hj. destruct (existsb (same_pair x) rest) eqn:Hlater.
  - exact (IH i j Hlt Hi Hj).
  - destruct j as [|j]; [lia |]. cbn in Hj. destruct i as [|i].
    + cbn in Hi. injection Hi as <-.
      assert (Hq : In q rest).
      { apply keep_last_subset. apply list_elem_of_In.
        apply list_elem_of_lookup. exists j. exact Hj. }
      destruct (same_pair x q) eqn:Hsame; [|reflexivity].
      assert (Hex : existsb (same_pair x) rest = true)
        by (apply existsb_exists; exists q; split; assumption).
      rewrite Hex in Hlater. discriminate Hlater.
    + cbn in Hi. apply (IH i j); [lia | exact Hi | exact Hj].
Qed.

Lemma same_pair_sym (p q : FocusPossibility) : same_pair p q = same_pair q p.
Proof.
  unfold same_pair, neq. rewrite (Z.eqb_sym (fp_suitIndex p)).
  destruct (fp_rank p) as [a|], (fp_rank q) as [b|]; try reflexivity.
  rewrite (Z.eqb_sym a b). reflexivity.
Qed.

(** The interpretation is of suit [s] and of rank [r]. *)
Definition is_of (p : FocusPossibility) (s r : Z) : Prop :=
  fp_suitIndex p = s /\ fp_rank p = Some r.

(** No entry of [l] is of suit [s] and rank [r]. *)
Definition none_of (l : list FocusPossibility) (s r : Z) : Prop :=
  forall q, In q l -> ~ is_of q s r.

Lemma same_pair_fields (p q : FocusPossibility) :
  same_pair p q = true <-> exists s r, is_of p s r /\ is_of q s r.
Proof.
  unfold same_pair, is_of, neq. split.
  - intros Hsame. apply andb_true_iff in Hsame. destruct Hsame as [Hs Hr].
    apply Z.eqb_eq in Hs.
    destruct (fp_rank p) as [a|]; [|discriminate Hr].
    destruct (fp_rank q) as [b|]; [|discriminate Hr].
    apply Z.eqb_eq in Hr. subst b.
    exists (fp_suitIndex p), a. repeat split. symmetry. exact Hs.
  - intros (s & r & [Hps Hpr] & [Hqs Hqr]). rewrite Hps, Hqs, Hpr, Hqr, !Z.eqb_refl.
    reflexivity.
Qed.

Lemma no_same_pair_fields (p : FocusPossibility) (l : list FocusPossibility) :
  existsb (same_pair p) l = false <-> forall s r, is_of p s r -> none_of l s r.
Proof.
  split.
  - intros Hnone s r Hp q Hq Hqsr.
    assert (Hex : existsb (same_pair p) l = true).
    { apply existsb_exists. exists q. split; [exact Hq |].
      apply same_pair_fields. exists s, r. split; assumption. }
    rewrite Hex in Hnone. discriminate Hnone.
  - intros Hall. destruct (existsb (same_pair p) l) eqn:Hex; [|reflexivity].
    apply existsb_exists in Hex. destruct Hex as (q & Hq & Hsame).
    apply same_pair_fields in Hsame. destruct Hsame as (s & r & Hp & Hqsr).
    exfalso. exact (Hall s r Hp q Hq Hqsr).
Qed.

Section Dedup.
Context `{FocusApi}.

(** C6: the list returned by [find_focus_possible] holds at most one entry
    of each suit index and rank: two entries at different positions are
    never of the same suit and rank. Each entry returned is the last entry
    generated of its suit and rank, and each last generated entry is
    returned. So when a play interpretation is generated and a save
    interpretation of the same suit and rank is the last one generated
    behind it, the save interpretation is returned, the play interpretation
    is not, and the save is the only entry of that suit and rank. *)
Theorem find_focus_possible_keeps_last (state : State) (action : ClueAction)
    (out : list FocusPossibility) :
  find_focus_possible state action = Ok out ->
  exists generated,
    generate_focus_possible state action = Ok generated
    /\ (forall i j p q s r, i <> j -> out !! i = Some p -> out !! j = Some q ->
                            is_of p s r -> ~ is_of q s r)
    /\ (forall p, In p out ->
          exists before after,
            generated = before ++ p :: after
            /\ forall s r, is_of p s r -> none_of after s r)
    /\ (forall before p after,
          generated = before ++ p :: after ->
          (forall s r, is_of p s r -> none_of after s r) ->
          In p out)
    /\ (forall before play between saved after s r,
          generated = before ++ play :: between ++ saved :: after ->
          save play = false -> save saved = true ->
          is_of play s r -> is_of saved s r -> none_of after s r ->
          In saved out /\ ~ In play out
          /\ forall q, In q out -> is_of q s r -> q = saved).
Proof.
  unfold find_focus_possible.
  destruct (generate_focus_possible state action) as [generated|m]; [|discriminate].
  cbn [Js.bind]. rewrite remove_earlier_duplicates_keep_last.
  intros Hout. injection Hout as <-. exists generated.
  assert (Hdistinct : forall i j p q s r, i <> j ->
            keep_last generated !! i = Some p -> keep_last generated !! j = Some q ->
            is_of p s r -> ~ is_of q s r).
  { intros i j p q s r Hne Hi Hj Hp Hq.
    assert (Hpq : same_pair p q = true)
      by (apply same_pair_fields; exists s, r; split; assumption).
    destruct (Nat.lt_trichotomy i j) as [Hlt | [Heq | Hgt]]; [| contradiction |].
    - rewrite (keep_last_distinct _ _ _ _ _ Hlt Hi Hj) in Hpq. discriminate Hpq.
    - rewrite same_pair_sym, (keep_last_distinct _ _ _ _ _ Hgt Hj Hi) in Hpq.
      discriminate Hpq. }
  split; [reflexivity |].
  split; [exact Hdistinct |].
  split.
  { intros p Hin. destruct (keep_last_In _ _ Hin) as (before & after & Hsplit & Hnone).
    exists before, after. split; [exact Hsplit |]. apply no_same_pair_fields. exact Hnone. }
  split.
  { intros before p after -> Hnone. apply keep_last_last.
    apply no_same_pair_fields. exact Hnone. }
  intros before play between saved after s r -> Hplay Hsaved Hps Hss Hnone.
  assert (Hin : In saved (keep_last (before ++ play :: between ++ saved :: after))).
  { replace (before ++ play :: between ++ saved :: after)
      with ((before ++ play :: between) ++ saved :: after)
      by (rewrite <- app_assoc; reflexivity).
    apply keep_last_last. apply no_same_pair_fields.
    intros s' r' [Hs' Hr']. pose proof Hss as [Hs Hr].
    assert (Hs_eq : s' = s) by congruence. assert (Hr_eq : r' = r) by congruence.
    rewrite Hs_eq, Hr_eq. exact Hnone. }
  assert (Honly : forall q, In q (keep_last (before ++ play :: between ++ saved :: after)) ->
                            is_of q s r -> q = saved).
  { intros q Hq Hqs.
    pose proof Hin as Hin'.
    apply list_elem_of_In, list_elem_of_lookup in Hin'. destruct Hin' as (j & Hj).
    apply list_elem_of_In, list_elem_of_lookup in Hq. destruct Hq as (i & Hi).
    destruct (Nat.eq_dec i j) as [-> | Hne].
    - rewrite Hi in Hj. injection Hj as ->. reflexivity.
    - exfalso. exact (Hdistinct i j q saved s r Hne Hi Hj Hqs Hss). }
  split; [exact Hin |]. split; [|exact Honly].
  intros Hbad. pose proof (Honly play Hbad Hps) as Heq. subst play.
  rewrite Hplay in Hsaved. discriminate Hsaved.
Qed.

End Dedup.

(** *** A rank clue that is both a play and a save

    Red is at 0 and Bob holds a known red 1. Alice is clued 2 on her chop
    card: the red 2 connects through Bob's red 1 (a play interpretation) and
    it is also a 2 save (no other red 2 is visible). *)
Module RankTwo.

Definition bobs_red_one : Card :=
  mkCard (mkId 0 1) 7 true true false false false false false 7 [] [] [].

Definition chop_card : Card :=
  mkCard (mkId (-1) (-1)) 3 true false true false false false false 3 [] [] [].

#[local] Instance api : FocusApi := {|
  determine_focus := fun hand touched =>
    match hand with
    | c :: _ => Ok (mkFocus c true)
    | [] => Throw TypeError
    end;
  find_connecting := fun hypo_state giver_ target_ s r already =>
    Ok (if neq r (Some 1) && (s =? 0) && negb (has already 7)
        then Some (mkConnection "known" 1 bobs_red_one [mkId 0 1] false)
        else None);
  isCritical := fun _ _ _ => Ok false;
  playableAway := fun state s r =>
    Ok (nsub (Some r) (nadd (at_ (play_stacks state) s) (Some 1)));
  visibleFind := fun _ _ _ _ => Ok [];
  card_matches := fun c s r => (suitIndex (base c) =? s) && (rank (base c) =? r);
  objEquals := fun a b => (clue_value a =? clue_value b)
                          && match clue_type a, clue_type b with
                             | COLOUR, COLOUR | RANK, RANK => true
                             | _, _ => false
                             end |}.

Definition table : State := {|
  numPlayers := 2; ourPlayerIndex := 0;
  hands := [[chop_card]; [bobs_red_one]]; deck := [];
  play_stacks := [0];
  discard_stacks := [[0; 0; 0; 0; 0]];
  max_ranks := [5];
  Basics.hypo_stacks := [[1]; [1]];
  state_suits := mkVariant ["Red"%string] None;
  score := 0; cardsLeft := 30; early_game := true; clue_tokens := 8 |}.

Definition two_clue : ClueAction := mkClueAction 1 0 [3] (mkBaseClue RANK 2).

Definition generated : list FocusPossibility :=
  Eval vm_compute in
    match generate_focus_possible table two_clue with Ok l => l | Throw _ => [] end.

Definition returned : list FocusPossibility :=
  Eval vm_compute in
    match find_focus_possible table two_clue with Ok l => l | Throw _ => [] end.

(** The play interpretation through Bob's card is generated first and the
    save behind it; only the save is returned. *)
Example generated_play_then_save :
  List.map (fun p => (fp_suitIndex p, fp_rank p, save p, length (fp_connections p))) generated
  = [(0, Some 2, false, 1%nat); (0, Some 2, true, 0%nat)]
  /\ List.map (fun p => (fp_suitIndex p, fp_rank p, save p)) returned = [(0, Some 2, true)].
Proof. split; reflexivity. Qed.

End RankTwo.

Lemma find_focus_possible_keeps_last_witness :
  exists generated,
    generate_focus_possible (H := RankTwo.api) RankTwo.table RankTwo.two_clue = Ok generated
    /\ (forall i j p q s r, i <> j -> RankTwo.returned !! i = Some p ->
                            RankTwo.returned !! j = Some q -> is_of p s r -> ~ is_of q s r)
    /\ (forall p, In p RankTwo.returned ->
          exists before after,
            generated = before ++ p :: after
            /\ forall s r, is_of p s r -> none_of after s r)
    /\ (forall before p after,
          generated = before ++ p :: after ->
          (forall s r, is_of p s r -> none_of after s r) ->
          In p RankTwo.returned)
    /\ (forall before play between saved after s r,
          generated = before ++ play :: between ++ saved :: after ->
          save play = false -> save saved = true ->
          is_of play s r -> is_of saved s r -> none_of after s r ->
          In saved RankTwo.returned /\ ~ In play RankTwo.returned
          /\ forall q, In q RankTwo.returned -> is_of q s r -> q = saved).
Proof.
  apply (find_focus_possible_keeps_last (H := RankTwo.api) RankTwo.table RankTwo.two_clue
           RankTwo.returned).
  vm_compute. reflexivity.
Defined.

End FocusPossibleFacts.

(** * Properties of interpret-discard.js *)
Module InterpretDiscardFacts.
Import PlayerJs InterpretDiscardJs.

(** *** Callbacks that read the index *)

Lemma some_from_false {A} (f : Z -> A -> bool) (l : list A) (i0 : Z) :
  (forall k x, l !! k = Some x -> f (i0 + Z.of_nat k) x = false) ->
  some_from i0 f l = false.
Proof.
  revert i0. induction l as [|x l IH]; intros i0 Hall; [reflexivity |].
  cbn [some_from]. pose proof (Hall 0%nat x eq_refl) as H0.
  rewrite Z.add_0_r in H0. rewrite H0. cbn [orb]. apply IH.
  intros k y Hk. replace (i0 + 1 + Z.of_nat k) with (i0 + Z.of_nat (S k)) by lia.
  apply Hall. exact Hk.
Qed.

Lemma findIndex_from_found {A} (f : Z -> A -> bool) (l : list A) (i0 : Z) :
  0 <= i0 -> findIndex_from i0 f l <> -1 ->
  exists k x, findIndex_from i0 f l = i0 + Z.of_nat k /\ l !! k = Some x
              /\ f (i0 + Z.of_nat k) x = true.
Proof.
  revert i0. induction l as [|x l IH]; intros i0 Hi0 Hfound; [contradiction |].
  cbn [findIndex_from] in *. destruct (f i0 x) eqn:Hf.
  - exists 0%nat, x. rewrite Z.add_0_r. repeat split. exact Hf.
  - destruct (IH (i0 + 1) ltac:(lia) Hfound) as (k & y & Hk & Hy & Hfy).
    exists (S k), y. replace (i0 + Z.of_nat (S k)) with (i0 + 1 + Z.of_nat k) by lia.
    repeat split; assumption.
Qed.

(** The entries before index [dc] that [g] keeps, counted from index [i0]. *)
Lemma filter_from_below {A} (g : A -> bool) (dc : Z) (l : list A) (i0 : Z) :
  i0 <= dc ->
  filter_from i0 (fun index x => (index <? dc) && g x) l
  = List.filter g (take (Z.to_nat (dc - i0)) l).
Proof.
  revert i0. induction l as [|x l IH]; intros i0 Hle.
  - rewrite take_nil. reflexivity.
  - cbn [filter_from]. destruct (Z.eq_dec i0 dc) as [-> | Hne].
    + rewrite Z.ltb_irrefl, Z.sub_diag. cbn [andb Z.to_nat take List.filter].
      clear IH Hle. revert x. induction l as [|y l IHl]; intros x; cbn [filter_from].
      * reflexivity.
      * replace (dc + 1 <? dc) with false by (symmetry; apply Z.ltb_ge; lia).
        cbn [andb].
        assert (Hnone : forall (m : list A) (j : Z), dc < j ->
                  filter_from j (fun index x0 => (index <? dc) && g x0) m = []).
        { induction m as [|z m IHm]; intros j Hj; [reflexivity |].
          cbn [filter_from].
          replace (j <? dc) with false by (symmetry; apply Z.ltb_ge; lia).
          cbn [andb]. apply IHm. lia. }
        apply Hnone. lia.
    + replace (i0 <? dc) with true by (symmetry; apply Z.ltb_lt; lia).
      cbn [andb]. replace (Z.to_nat (dc - i0)) with (S (Z.to_nat (dc - (i0 + 1)))) by lia.
      cbn [take List.filter]. rewrite IH by lia. reflexivity.
Qed.

Lemma some_from_true {A} (f : Z -> A -> bool) (l : list A) :
  forall i0 k x, l !! k = Some x -> f (i0 + Z.of_nat k) x = true -> some_from i0 f l = true.
Proof.
  induction l as [|y l IH]; intros i0 k x Hk Hf; [discriminate Hk |].
  cbn [some_from]. destruct k as [|k].
  - injection Hk as ->. rewrite Z.add_0_r in Hf. rewrite Hf. reflexivity.
  - rewrite (IH (i0 + 1) k x Hk); [apply orb_true_r |].
    replace (i0 + 1 + Z.of_nat k) with (i0 + Z.of_nat (S k)) by lia. exact Hf.
Qed.

Lemma findIndex_from_none {A} (f : Z -> A -> bool) (l : list A) :
  forall i0, 0 <= i0 -> findIndex_from i0 f l = -1 ->
  forall k x, l !! k = Some x -> f (i0 + Z.of_nat k) x = false.
Proof.
  induction l as [|y l IH]; intros i0 Hi0 Hnone k x Hk; [discriminate Hk |].
  cbn [findIndex_from] in Hnone. destruct (f i0 y) eqn:Hf; [lia |].
  destruct k as [|k].
  - injection Hk as <-. rewrite Z.add_0_r. exact Hf.
  - replace (i0 + Z.of_nat (S k)) with (i0 + 1 + Z.of_nat k) by lia.
    apply (IH (i0 + 1)); [lia | exact Hnone | exact Hk].
Qed.

Lemma findIndex_from_first {A} (f : Z -> A -> bool) (l : list A) :
  forall i0 k x,
    l !! k = Some x -> f (i0 + Z.of_nat k) x = true ->
    (forall k' x', (k' < k)%nat -> l !! k' = Some x' -> f (i0 + Z.of_nat k') x' = false) ->
    findIndex_from i0 f l = i0 + Z.of_nat k.
Proof.
  induction l as [|y l IH]; intros i0 k x Hk Hf Hbefore; [discriminate Hk |].
  cbn [findIndex_from]. destruct k as [|k].
  - injection Hk as ->. rewrite Z.add_0_r in Hf. rewrite Hf. lia.
  - pose proof (Hbefore 0%nat y ltac:(lia) eq_refl) as Hy. rewrite Z.add_0_r in Hy.
    rewrite Hy. rewrite (IH (i0 + 1) k x Hk); [lia | |].
    + replace (i0 + 1 + Z.of_nat k) with (i0 + Z.of_nat (S k)) by lia. exact Hf.
    + intros k' x' Hlt Hk'.
      replace (i0 + 1 + Z.of_nat k') with (i0 + Z.of_nat (S k')) by lia.
      apply (Hbefore (S k') x'); [lia | exact Hk'].
Qed.

Lemma findIndex_from_least {A} (f : Z -> A -> bool) (l : list A) :
  forall i0 k' x', l !! k' = Some x' -> f (i0 + Z.of_nat k') x' = true ->
  findIndex_from i0 f l <= i0 + Z.of_nat k'.
Proof.
  induction l as [|y l IH]; intros i0 k' x' Hk' Hf; [discriminate Hk' |].
  cbn [findIndex_from]. destruct (f i0 y) eqn:Hy; [lia |].
  destruct k' as [|k'].
  - injection Hk' as ->. rewrite Z.add_0_r in Hf. congruence.
  - specialize (IH (i0 + 1) k' x' Hk').
    replace (i0 + 1 + Z.of_nat k') with (i0 + Z.of_nat (S k')) in IH by lia.
    apply IH. exact Hf.
Qed.

Lemma at_lookup {A} (l : list A) (k : nat) : at_ l (Z.of_nat k) = l !! k.
Proof.
  unfold at_. replace (0 <=? Z.of_nat k) with true by (symmetry; apply Z.leb_le; lia).
  rewrite Nat2Z.id. reflexivity.
Qed.

Lemma at_some {A} (l : list A) (i : Z) (x : A) :
  at_ l i = Some x -> 0 <= i /\ l !! Z.to_nat i = Some x.
Proof.
  unfold at_. destruct (0 <=? i) eqn:Hle; [|discriminate].
  apply Z.leb_le in Hle. intros Hx. split; assumption.
Qed.

Section Claim.
Context `{CardApi} `{DiscardApi}.

(** The number of non-hidden connections strictly before index [dc]. *)
Definition non_hidden_before (wc : WaitingConnection) (dc : Z) : Z :=
  Z.of_nat (length (List.filter (fun conn => negb (hidden conn))
                      (take (Z.to_nat dc) (connections wc)))).

Lemma real_connects_counts (wc : WaitingConnection) (dc : Z) :
  0 <= dc -> real_connects wc dc = non_hidden_before wc dc.
Proof.
  intros Hdc. unfold real_connects, non_hidden_before.
  rewrite (filter_from_below (fun conn => negb (hidden conn)) dc (connections wc) 0 Hdc).
  rewrite Z.sub_0_r. reflexivity.
Qed.

(** The order of the discarded card is in the remaining chain of [wc]: it is
    the order of the card of a connection at or after [conn_index]. *)
Definition in_chain (action : DiscardAction) (wc : WaitingConnection) : Prop :=
  exists k conn,
    conn_index wc <= k /\ at_ (connections wc) k = Some conn
    /\ order (card conn) = da_order action.

(** [conn], at index [dc], is the first connection of the remaining chain of
    [wc] whose card has the discarded order. *)
Definition discarded_at (action : DiscardAction) (wc : WaitingConnection) (dc : Z)
    (conn : Connection) : Prop :=
  conn_index wc <= dc /\ at_ (connections wc) dc = Some conn
  /\ order (card conn) = da_order action
  /\ forall k conn', conn_index wc <= k < dc -> at_ (connections wc) k = Some conn' ->
                     order (card conn') <> da_order action.

(** No other waiting connection has the action index of the one at [i]. *)
Definition unshared (wcs : list WaitingConnection) (i : Z) (wc : WaitingConnection) : Prop :=
  forall j wc', j <> i -> at_ wcs j = Some wc' -> action_index wc' <> action_index wc.

(** The loop goes on after the waiting connection [wc] of index [j]: its
    action index is also that of a waiting connection that the loop has not
    cancelled, one behind it or one that does not hold the discarded
    order. *)
Definition passed_over (action : DiscardAction) (wcs : list WaitingConnection) (j : Z)
    (wc : WaitingConnection) : Prop :=
  exists k wc',
    at_ wcs k = Some wc' /\ action_index wc' = action_index wc
    /\ (j < k \/ ~ in_chain action wc').

(** "Check if sarcastic": the card of the connection was clued, the rank
    discarded is above the play stack of its suit and within the maximal
    rank, and the discard did not fail. *)
Definition may_be_sarcastic (s : State) (action : DiscardAction) (c : Card) : Prop :=
  clued c = true
  /\ (exists stack, at_ (play_stacks s) (da_suitIndex action) = Some stack
                    /\ stack < da_rank action)
  /\ (exists top, at_ (max_ranks s) (da_suitIndex action) = Some top
                  /\ da_rank action <= top)
  /\ failed action = false.

(** [r] is what [hands.findIndex(hand => hand.findOrder(o))] answers: the
    index of the first hand that holds the order [o], or -1. *)
Definition first_hand_with (hs : list (list Card)) (o r : Z) : Prop :=
  (r = -1 /\ forall hand, In hand hs -> findOrder hand o = false)
  \/ (exists hand, at_ hs r = Some hand /\ findOrder hand o = true
        /\ forall k hand', 0 <= k < r -> at_ hs k = Some hand' -> findOrder hand' o = false).

(** The game [g'] is the game [g2] in which the connection [conn], at index
    [dc] of the waiting connection [wc] of index [i], now points at the
    card [sarcastic] and at the player who holds it; nothing else differs. *)
Definition rewritten_onto (g2 g' : Game) (i : Z) (wc : WaitingConnection) (dc : Z)
    (conn : Connection) (sarcastic : Card) : Prop :=
  state g' = state g2 /\ me g' = me g2
  /\ playerIndex (common g') = playerIndex (common g2)
  /\ all_possible (common g') = all_possible (common g2)
  /\ all_inferred (common g') = all_inferred (common g2)
  /\ hypo_stacks (common g') = hypo_stacks (common g2)
  /\ thoughts (common g') = thoughts (common g2)
  /\ links (common g') = links (common g2)
  /\ unknown_plays (common g') = unknown_plays (common g2)
  /\ length (waiting_connections (common g')) = length (waiting_connections (common g2))
  /\ (forall j, j <> i ->
        at_ (waiting_connections (common g')) j = at_ (waiting_connections (common g2)) j)
  /\ (forall old, at_ (waiting_connections (common g2)) i = Some old ->
        exists wc' conn',
          at_ (waiting_connections (common g')) i = Some wc'
          /\ wc_giver wc' = wc_giver wc /\ wc_target wc' = wc_target wc
          /\ conn_index wc' = conn_index wc /\ focused_card wc' = focused_card wc
          /\ inference wc' = inference wc /\ action_index wc' = action_index wc
          /\ fake wc' = fake wc
          /\ length (connections wc') = length (connections wc)
          /\ (forall k, k <> dc -> at_ (connections wc') k = at_ (connections wc) k)
          /\ at_ (connections wc') dc = Some conn'
          /\ card conn' = sarcastic
          /\ first_hand_with (hands (state g2)) (order sarcastic) (reacting conn')
          /\ conn_type conn' = conn_type conn
          /\ conn_identities conn' = conn_identities conn
          /\ hidden conn' = hidden conn).

Lemma in_chain_found (action : DiscardAction) (wc : WaitingConnection) :
  in_chain action wc <-> dc_conn_index wc (da_order action) <> -1.
Proof.
  unfold in_chain, dc_conn_index. split.
  - intros (k & conn & Hk & Hconn & Horder) Hnone.
    apply at_some in Hconn. destruct Hconn as [Hk0 Hconn].
    pose proof (findIndex_from_none _ _ 0 ltac:(lia) Hnone _ _ Hconn) as Hf.
    cbn beta in Hf. rewrite Z.add_0_l, Z2Nat.id in Hf by lia.
    apply andb_false_iff in Hf. destruct Hf as [Hf | Hf].
    + apply Z.leb_gt in Hf. lia.
    + apply Z.eqb_neq in Hf. contradiction.
  - intros Hfound.
    destruct (findIndex_from_found _ (connections wc) 0 ltac:(lia) Hfound)
      as (k & conn & _ & Hconn & Hf).
    rewrite Z.add_0_l in Hf. apply andb_true_iff in Hf. destruct Hf as [Hk Horder].
    apply Z.leb_le in Hk. apply Z.eqb_eq in Horder.
    exists (Z.of_nat k), conn. rewrite at_lookup. repeat split; assumption.
Qed.

Lemma discarded_at_found (action : DiscardAction) (wc : WaitingConnection) (dc : Z)
    (conn : Connection) :
  discarded_at action wc dc conn -> dc_conn_index wc (da_order action) = dc.
Proof.
  intros (Hdc & Hconn & Horder & Hfirst). unfold dc_conn_index.
  apply at_some in Hconn. destruct Hconn as [Hdc0 Hconn].
  rewrite (findIndex_from_first _ (connections wc) 0 (Z.to_nat dc) conn Hconn).
  - lia.
  - rewrite Z.add_0_l, Z2Nat.id by lia. apply andb_true_intro. split.
    + apply Z.leb_le. exact Hdc.
    + apply Z.eqb_eq. exact Horder.
  - intros k' conn' Hlt Hk'. rewrite Z.add_0_l.
    destruct (conn_index wc <=? Z.of_nat k') eqn:Hle; [|reflexivity].
    apply Z.leb_le in Hle. cbn [andb]. apply Z.eqb_neq.
    apply (Hfirst (Z.of_nat k') conn'); [lia |]. rewrite at_lookup. exact Hk'.
Qed.

Lemma maybe_sarcastic_fields (s : State) (action : DiscardAction) (c : Card) :
  maybe_sarcastic s action c = true <-> may_be_sarcastic s action c.
Proof.
  unfold maybe_sarcastic, may_be_sarcastic, ngt, nlt, nle. split.
  - intros Hall. apply andb_true_iff in Hall. destruct Hall as [Hall Hfailed].
    apply andb_true_iff in Hall. destruct Hall as [Hall Htop].
    apply andb_true_iff in Hall. destruct Hall as [Hclued Hstack].
    split; [exact Hclued |].
    destruct (at_ (play_stacks s) (da_suitIndex action)) as [stack|]; [|discriminate Hstack].
    destruct (at_ (max_ranks s) (da_suitIndex action)) as [top|]; [|discriminate Htop].
    apply Z.ltb_lt in Hstack. apply Z.leb_le in Htop. apply negb_true_iff in Hfailed.
    split; [exists stack; split; [reflexivity | exact Hstack] |].
    split; [exists top; split; [reflexivity | exact Htop] | exact Hfailed].
  - intros (Hclued & (stack & Hstack & Hlt) & (top & Htop & Hle) & Hfailed).
    rewrite Hclued, Hstack, Htop, Hfailed. cbn [andb negb].
    apply andb_true_intro. split; [|reflexivity].
    apply andb_true_intro. split; [apply Z.ltb_lt; exact Hlt | apply Z.leb_le; exact Hle].
Qed.

Lemma scan_connections_skip (g : Game) (action : DiscardAction) (to_remove : list Z)
    (pre rest : list WaitingConnection) (i0 : Z) :
  (forall wc', In wc' pre -> dc_conn_index wc' (da_order action) = -1) ->
  scan_connections g action to_remove i0 (pre ++ rest)
  = scan_connections g action to_remove (i0 + Z.of_nat (length pre)) rest.
Proof.
  revert i0. induction pre as [|wc' pre IH]; intros i0 Hnone.
  - cbn [app length]. rewrite Z.add_0_r. reflexivity.
  - cbn [app scan_connections]. unfold scan_connection at 1.
    rewrite (Hnone wc' (or_introl eq_refl)). cbn [Z.eqb Pos.eqb Js.bind].
    rewrite IH by (intros w Hw; apply Hnone; right; exact Hw).
    f_equal. cbn [length]. lia.
Qed.

(** The indexes in [to_remove] are below [i0] and are indexes of waiting
    connections that hold the discarded order. *)
Definition holders_below (action : DiscardAction) (wcs : list WaitingConnection) (i0 : Z)
    (to_remove : list Z) : Prop :=
  forall m, In m to_remove ->
    m < i0 /\ exists wc_m, at_ wcs m = Some wc_m /\ in_chain action wc_m.

Lemma others_wait_passed (action : DiscardAction) (wcs : list WaitingConnection) (j : Z)
    (wc : WaitingConnection) (to_remove : list Z) :
  at_ wcs j = Some wc -> in_chain action wc ->
  holders_below action wcs j to_remove ->
  passed_over action wcs j wc ->
  others_wait wcs (action_index wc) (to_remove ++ [j]) = true.
Proof.
  intros Hat Hchain Hbelow (k & wc' & Hk & Hsame & Hfree).
  apply at_some in Hk. destruct Hk as [Hk0 Hk].
  unfold others_wait. apply (some_from_true _ wcs 0 (Z.to_nat k) wc' Hk).
  rewrite Z.add_0_l, Z2Nat.id by lia. rewrite Hsame, Z.eqb_refl. cbn [andb].
  apply negb_true_iff. destruct (has (to_remove ++ [j]) k) eqn:Hhas; [|reflexivity].
  exfalso. apply PlayerFacts.has_In in Hhas. apply in_app_iff in Hhas.
  assert (Hat_k : at_ wcs k = Some wc').
  { unfold at_. replace (0 <=? k) with true by (symmetry; apply Z.leb_le; lia). exact Hk. }
  destruct Hhas as [Hin | [<- | []]].
  - destruct (Hbelow k Hin) as (Hlt & wc_k & Hwc_k & Hchain_k).
    rewrite Hat_k in Hwc_k. injection Hwc_k as <-.
    destruct Hfree as [Hgt | Hno]; [lia | exact (Hno Hchain_k)].
  - rewrite Hat in Hat_k. injection Hat_k as <-.
    destruct Hfree as [Hgt | Hno]; [lia | exact (Hno Hchain)].
Qed.

(** The loop goes through a stretch of waiting connections whose holders of
    the discarded order are all passed over. *)
Lemma scan_connections_pass (g : Game) (action : DiscardAction)
    (pre rest : list WaitingConnection) :
  forall i0 to_remove,
    0 <= i0 ->
    holders_below action (waiting_connections (common g)) i0 to_remove ->
    (forall k wc_k, pre !! k = Some wc_k ->
       at_ (waiting_connections (common g)) (i0 + Z.of_nat k) = Some wc_k) ->
    (forall k wc_k, pre !! k = Some wc_k -> in_chain action wc_k ->
       passed_over action (waiting_connections (common g)) (i0 + Z.of_nat k) wc_k) ->
    exists to_remove',
      scan_connections g action to_remove i0 (pre ++ rest)
      = scan_connections g action to_remove' (i0 + Z.of_nat (length pre)) rest
      /\ holders_below action (waiting_connections (common g))
           (i0 + Z.of_nat (length pre)) to_remove'.
Proof.
  induction pre as [|wc pre IH]; intros i0 to_remove Hi0 Hbelow Hplace Hpass.
  - exists to_remove. cbn [app length]. rewrite Z.add_0_r. split; [reflexivity | exact Hbelow].
  - pose proof (Hplace 0%nat wc eq_refl) as Hat. rewrite Z.add_0_r in Hat.
    assert (Hstep : exists tr1,
              scan_connection g action to_remove i0 wc = Ok (Cancelled tr1)
              /\ holders_below action (waiting_connections (common g)) (i0 + 1) tr1).
    { unfold scan_connection.
      destruct (dc_conn_index wc (da_order action) =? -1) eqn:Hdc.
      - exists to_remove. split; [reflexivity |].
        intros m Hm. destruct (Hbelow m Hm) as [Hlt Hholder]. split; [lia | exact Hholder].
      - apply Z.eqb_neq in Hdc.
        assert (Hchain : in_chain action wc) by (apply in_chain_found; exact Hdc).
        destruct (findIndex_from_found _ (connections wc) 0 ltac:(lia) Hdc)
          as (k & conn & Hk & Hconn & _).
        fold (dc_conn_index wc (da_order action)) in Hk.
        unfold at_or_throw. rewrite Hk, Z.add_0_l, at_lookup, Hconn. cbn [Js.bind].
        pose proof (Hpass 0%nat wc eq_refl Hchain) as Hover. rewrite Z.add_0_r in Hover.
        rewrite (others_wait_passed action _ i0 wc to_remove Hat Hchain Hbelow Hover).
        exists (to_remove ++ [i0]). split; [reflexivity |].
        intros m Hm. apply in_app_iff in Hm. destruct Hm as [Hm | [<- | []]].
        + destruct (Hbelow m Hm) as [Hlt Hholder]. split; [lia | exact Hholder].
        + split; [lia |]. exists wc. split; assumption. }
    destruct Hstep as (tr1 & Hone & Hbelow1).
    destruct (IH (i0 + 1) tr1 ltac:(lia) Hbelow1) as (tr' & Hrun & Hbelow').
    + intros k wc_k Hk. replace (i0 + 1 + Z.of_nat k) with (i0 + Z.of_nat (S k)) by lia.
      apply Hplace. exact Hk.
    + intros k wc_k Hk Hchain.
      replace (i0 + 1 + Z.of_nat k) with (i0 + Z.of_nat (S k)) by lia.
      apply Hpass; assumption.
    + exists tr'. cbn [app scan_connections length]. rewrite Hone. cbn [Js.bind].
      replace (i0 + Z.of_nat (S (length pre))) with (i0 + 1 + Z.of_nat (length pre)) by lia.
      split; [exact Hrun | exact Hbelow'].
Qed.

Lemma others_wait_unshared (wcs : list WaitingConnection) (i : Z) (wc : WaitingConnection)
    (to_remove : list Z) :
  unshared wcs i wc -> others_wait wcs (action_index wc) (to_remove ++ [i]) = false.
Proof.
  intros Hun. unfold others_wait. apply some_from_false. intros k wc' Hk.
  rewrite Z.add_0_l. destruct (Z.eq_dec (Z.of_nat k) i) as [<- | Hne].
  - replace (has (to_remove ++ [Z.of_nat k]) (Z.of_nat k)) with true.
    + cbn. apply andb_false_r.
    + symmetry. apply PlayerFacts.has_In. apply in_app_iff. right. left. reflexivity.
  - assert (Hat : at_ wcs (Z.of_nat k) = Some wc') by (rewrite at_lookup; exact Hk).
    pose proof (Hun _ _ Hne Hat) as Hdiff.
    replace (action_index wc =? action_index wc') with false
      by (symmetry; apply Z.eqb_neq; congruence).
    reflexivity.
Qed.

Lemma reacting_first_hand (hs : list (list Card)) (o : Z) :
  first_hand_with hs o (findIndex_from 0 (fun _ hand => findOrder hand o) hs).
Proof.
  destruct (Z.eq_dec (findIndex_from 0 (fun _ hand => findOrder hand o) hs) (-1))
    as [Hnone | Hfound].
  - left. split; [exact Hnone |]. intros hand Hin.
    apply list_elem_of_In, list_elem_of_lookup in Hin. destruct Hin as (k & Hk).
    exact (findIndex_from_none _ hs 0 ltac:(lia) Hnone k hand Hk).
  - right. destruct (findIndex_from_found _ hs 0 ltac:(lia) Hfound) as (k & hand & Hk & Hhand & Hf).
    rewrite Hk, Z.add_0_l. exists hand. rewrite at_lookup.
    split; [exact Hhand |]. split; [exact Hf |].
    intros k' hand' Hk' Hhand'. apply at_some in Hhand'. destruct Hhand' as [_ Hhand'].
    destruct (findOrder hand' o) eqn:Hyes; [|reflexivity].
    pose proof (findIndex_from_least (fun _ h => findOrder h o) hs 0 (Z.to_nat k') hand'
                  Hhand' Hyes) as Hleast.
    rewrite Hk in Hleast. lia.
Qed.

Lemma rewrite_connection_fields (g2 : Game) (i : Z) (wc : WaitingConnection) (dc : Z)
    (conn : Connection) (sarcastic : Card) :
  at_ (connections wc) dc = Some conn ->
  rewritten_onto g2 (rewrite_connection g2 i wc dc sarcastic) i wc dc conn sarcastic.
Proof.
  intros Hconn. unfold rewrite_connection. rewrite Hconn.
  unfold rewritten_onto. cbn.
  repeat (split; [reflexivity |]).
  split; [apply PlayerFacts.length_set_at |].
  split; [intros j Hne; apply PlayerFacts.at_set_at_other; congruence |].
  intros old Hold. eexists _, _.
  split; [exact (PlayerFacts.at_set_at_same _ _ _ _ Hold) |].
  cbn. repeat (split; [reflexivity |]).
  split; [apply PlayerFacts.length_set_at |].
  split; [intros k Hne; apply PlayerFacts.at_set_at_other; congruence |].
  split; [exact (PlayerFacts.at_set_at_same _ _ _ _ Hconn) |].
  cbn. split; [reflexivity |]. split; [apply reacting_first_hand |].
  repeat split.
Qed.

(** C5 (amended): take a waiting connection whose remaining chain holds the
    discarded order, whose action index no other waiting connection has,
    and such that the loop passes over every waiting connection before it
    that holds the discarded order too. If the discard may be sarcastic and
    the sarcastic interpretation finds exactly one card, the connection is
    rewritten onto that card and the player who holds it, and nothing is
    rewound; otherwise the game is rewound to the action index of the
    waiting connection, ignoring the connection at the count of non-hidden
    connections before the discarded one. *)
Theorem interpret_discard_first_connection (game g1 : Game) (action : DiscardAction)
    (c : Card) (i : Z) (wc : WaitingConnection) (dc : Z) (conn : Connection) :
  onDiscard game action = Ok g1 ->
  at_ (waiting_connections (common g1)) i = Some wc ->
  discarded_at action wc dc conn ->
  unshared (waiting_connections (common g1)) i wc ->
  (forall j wc', 0 <= j < i -> at_ (waiting_connections (common g1)) j = Some wc' ->
                 in_chain action wc' ->
                 passed_over action (waiting_connections (common g1)) j wc') ->
  (may_be_sarcastic (state g1) action (card conn) ->
   forall found g2, interpret_sarcastic g1 action = Ok (found, g2) ->
     (forall sarcastic, found = [sarcastic] ->
        exists g', interpret_discard game action c = Ok (Rewritten g')
                   /\ rewritten_onto g2 g' i wc dc conn sarcastic)
     /\ (length found <> 1%nat ->
         interpret_discard game action c
         = Ok (Rewound g2 (action_index wc)
                 (Ignore (non_hidden_before wc dc) (da_order action)) None)))
  /\ (~ may_be_sarcastic (state g1) action (card conn) ->
      interpret_discard game action c
      = Ok (Rewound g1 (action_index wc)
              (Ignore (non_hidden_before wc dc) (da_order action)) None)).
Proof.
  intros Hdiscard Hat Hdisc Hun Hpassed.
  pose proof (discarded_at_found action wc dc conn Hdisc) as Hdc.
  destruct Hdisc as (_ & Hconn & _ & _).
  destruct (at_some _ _ _ Hat) as [Hi Hlook].
  destruct (at_some _ _ _ Hconn) as [Hdc0 _].
  pose proof (take_drop_middle _ _ _ Hlook) as Hsplit.
  pose proof (lookup_lt_Some _ _ _ Hlook) as Hlen.
  set (wcs := waiting_connections (common g1)) in *.
  set (pre := take (Z.to_nat i) wcs) in *.
  set (rest := drop (S (Z.to_nat i)) wcs) in *.
  assert (Hpre_len : length pre = Z.to_nat i) by (unfold pre; rewrite length_take; lia).
  assert (Hplace : forall k wc_k, pre !! k = Some wc_k -> at_ wcs (0 + Z.of_nat k) = Some wc_k).
  { intros k wc_k Hk. pose proof (lookup_lt_Some _ _ _ Hk) as Hklt.
    unfold pre in Hk. rewrite lookup_take_lt in Hk by lia.
    rewrite Z.add_0_l, at_lookup. exact Hk. }
  destruct (scan_connections_pass g1 action pre (wc :: rest) 0 [] ltac:(lia)) as (tr & Hrun & _).
  { intros m []. }
  { exact Hplace. }
  { intros k wc_k Hk Hchain. pose proof (lookup_lt_Some _ _ _ Hk) as Hklt.
    apply Hpassed; [lia | exact (Hplace k wc_k Hk) | exact Hchain]. }
  rewrite Hsplit, Hpre_len, Z.add_0_l, Z2Nat.id in Hrun by lia.
  assert (Hscan : forall r,
            scan_connection g1 action tr i wc = Ok (Returned r) ->
            interpret_discard game action c = Ok r).
  { intros r Hr. unfold interpret_discard. rewrite Hdiscard. cbn [Js.bind].
    fold wcs. rewrite Hrun. cbn [scan_connections]. rewrite Hr. reflexivity. }
  unfold scan_connection in Hscan. rewrite Hdc in Hscan.
  replace (dc =? -1) with false in Hscan by (symmetry; apply Z.eqb_neq; lia).
  unfold at_or_throw in Hscan. rewrite Hconn in Hscan. cbn [Js.bind] in Hscan.
  fold wcs in Hscan. rewrite (others_wait_unshared _ _ _ tr Hun) in Hscan.
  rewrite (real_connects_counts wc _ Hdc0) in Hscan.
  split.
  - intros Hsarc found g2 Hfound. apply maybe_sarcastic_fields in Hsarc.
    rewrite Hsarc, Hfound in Hscan. cbn [Js.bind] in Hscan. split.
    + intros sarcastic ->. eexists. split; [apply Hscan; reflexivity |].
      apply rewrite_connection_fields. exact Hconn.
    + intros Hcount. destruct found as [|s [|s' more]];
        [| cbn in Hcount; lia |]; apply Hscan; reflexivity.
  - intros Hsarc.
    assert (Hno : maybe_sarcastic (state g1) action (card conn) = false).
    { destruct (maybe_sarcastic (state g1) action (card conn)) eqn:Hyes; [|reflexivity].
      exfalso. apply Hsarc. apply maybe_sarcastic_fields. exact Hyes. }
    rewrite Hno in Hscan. apply Hscan. reflexivity.
Qed.

End Claim.

(** *** Two waiting connections that hold the same card

    Bob's red 3 (order 5) is finessed by a clue on Cathy's red 4 (order 8),
    interpreted at action 10; a later clue on Cathy's red 5 (order 9),
    interpreted at action 20, connects through the same red 3 and then the
    red 4. Bob then discards the red 3, which was never clued. The
    collaborators do nothing here: no sarcastic candidate is found. *)
Module TwoConnections.

#[local] Instance quiet : DiscardApi := {|
  onDiscard := fun g _ => Ok g;
  interpret_sarcastic := fun g _ => Ok ([], g);
  findOrder := fun hand o => existsb (fun c => order c =? o) hand;
  restore_elim := fun g _ => Ok g;
  undo_hypo_stacks := fun g _ => Ok g;
  team_elim := fun g => Ok g |}.

Definition discarded : Card :=
  mkCard (mkId 0 3) 5 true false false false false false false 5 [] [] [].

Definition focus_card (o : Z) : Card :=
  mkCard (mkId (-1) (-1)) o true true true false false false false o [] [] [].

Definition through_red_three (kind : string) : Connection :=
  mkConnection kind 1 discarded [mkId 0 3] false.

Definition through_red_four : Connection :=
  mkConnection "prompt" 2 (focus_card 8) [mkId 0 4] false.

Definition first_wc : WaitingConnection :=
  mkWaitingConnection [through_red_three "finesse"] 0 2 0 (focus_card 8) (mkId 0 4) 10 false.

Definition second_wc : WaitingConnection :=
  mkWaitingConnection [through_red_three "playable"; through_red_four] 0 2 0
    (focus_card 9) (mkId 0 5) 20 false.

Definition table : State := {|
  numPlayers := 3; ourPlayerIndex := 0;
  hands := [[]; [discarded]; [focus_card 8; focus_card 9]];
  deck := [];
  play_stacks := [2];
  discard_stacks := [[0; 0; 0; 0; 0]];
  max_ranks := [5];
  Basics.hypo_stacks := [[2]; [2]; [2]];
  state_suits := mkVariant ["Red"%string] None;
  score := 2; cardsLeft := 30; early_game := true; clue_tokens := 8 |}.

Definition everyone : Player := {|
  playerIndex := -1;
  all_possible := []; all_inferred := [];
  hypo_stacks := [2];
  thoughts := [];
  links := [];
  unknown_plays := [];
  waiting_connections := [first_wc; second_wc] |}.

Definition game : Game := mkGame everyone table everyone.

Definition discard : DiscardAction := mkDiscardAction 5 1 0 3 false.

Lemma second_unshared : unshared (waiting_connections (common game)) 1 second_wc.
Proof.
  intros j wc' Hne Hat. destruct (Z.eq_dec j 0) as [-> | Hne0].
  - cbn in Hat. injection Hat as <-. cbn. lia.
  - exfalso. unfold at_ in Hat. destruct (0 <=? j) eqn:Hle; [|discriminate Hat].
    apply Z.leb_le in Hle. rewrite lookup_ge_None_2 in Hat; [discriminate Hat |].
    cbn. lia.
Qed.


End TwoConnections.

(** The same table with a third waiting connection, which has the action
    index of the first one and does not hold the discarded order: the loop
    passes over the first waiting connection and acts on the second. *)
Module ThreeConnections.
Import TwoConnections.

Definition third_wc : WaitingConnection :=
  mkWaitingConnection [through_red_four] 0 2 0 (focus_card 9) (mkId 0 5) 10 false.

Definition everyone : Player := {|
  playerIndex := -1;
  all_possible := []; all_inferred := [];
  hypo_stacks := [2];
  thoughts := [];
  links := [];
  unknown_plays := [];
  waiting_connections := [first_wc; second_wc; third_wc] |}.

Definition game : Game := mkGame everyone table everyone.

Lemma second_of_three_unshared : unshared (waiting_connections (common game)) 1 second_wc.
Proof.
  intros j wc' Hne Hat. destruct (at_some _ _ _ Hat) as [Hj Hlook].
  destruct (Z.to_nat j) as [|[|[|n]]] eqn:Hn; cbn in Hlook; try discriminate Hlook;
    [| lia |]; injection Hlook as <-; cbn; lia.
Qed.

Lemma first_passed_over :
  forall j wc', 0 <= j < 1 -> at_ (waiting_connections (common game)) j = Some wc' ->
    in_chain discard wc' -> passed_over discard (waiting_connections (common game)) j wc'.
Proof.
  intros j wc' Hj Hat _. assert (j = 0) as -> by lia. cbn in Hat. injection Hat as <-.
  exists 2, third_wc. split; [reflexivity |]. split; [reflexivity | left; lia].
Qed.

End ThreeConnections.

(** A clued red 3 (order 5) in Bob's hand connects, after Alice's red 2
    (order 3), to Cathy's red 4; Cathy holds the other red 3 (order 7),
    clued too. Bob discards his red 3. *)
Module SarcasticDiscard.

Definition clued_three (o : Z) : Card :=
  mkCard (mkId 0 3) o true true false false false false false o [] [] [].

Definition red_two : Card :=
  mkCard (mkId 0 2) 3 true true false false false false false 3 [] [] [].

Definition through_red_two : Connection :=
  mkConnection "known" 0 red_two [mkId 0 2] false.

Definition through_clued_three : Connection :=
  mkConnection "prompt" 1 (clued_three 5) [mkId 0 3] false.

Definition waiting : WaitingConnection :=
  mkWaitingConnection [through_red_two; through_clued_three; TwoConnections.through_red_four]
    0 2 0 (TwoConnections.focus_card 8) (mkId 0 4) 30 false.

Definition table : State := {|
  numPlayers := 3; ourPlayerIndex := 0;
  hands := [[red_two]; [clued_three 5]; [clued_three 7; TwoConnections.focus_card 8]];
  deck := [];
  play_stacks := [1];
  discard_stacks := [[0; 0; 0; 0; 0]];
  max_ranks := [5];
  Basics.hypo_stacks := [[2]; [2]; [2]];
  state_suits := mkVariant ["Red"%string] None;
  score := 1; cardsLeft := 30; early_game := false; clue_tokens := 6 |}.

Definition everyone : Player := {|
  playerIndex := -1;
  all_possible := []; all_inferred := [];
  hypo_stacks := [2];
  thoughts := [];
  links := [];
  unknown_plays := [];
  waiting_connections := [waiting] |}.

Definition game : Game := mkGame everyone table everyone.

Definition discard : DiscardAction := mkDiscardAction 5 1 0 3 false.

(** The sarcastic interpretation finds Cathy's red 3. *)
#[local] Instance one_found : DiscardApi := {|
  onDiscard := fun g _ => Ok g;
  interpret_sarcastic := fun g _ => Ok ([clued_three 7], g);
  findOrder := fun hand o => existsb (fun c => order c =? o) hand;
  restore_elim := fun g _ => Ok g;
  undo_hypo_stacks := fun g _ => Ok g;
  team_elim := fun g => Ok g |}.

Lemma waiting_unshared : unshared (waiting_connections (common game)) 0 waiting.
Proof.
  intros j wc' Hne Hat. destruct (at_some _ _ _ Hat) as [Hj Hlook].
  destruct (Z.to_nat j) as [|n] eqn:Hn; [lia | discriminate Hlook].
Qed.

Lemma discarded_second : discarded_at discard waiting 1 through_clued_three.
Proof.
  split; [cbn; lia |]. split; [reflexivity |]. split; [reflexivity |].
  intros k conn' Hk Hat. cbn in Hk. assert (k = 0) as -> by lia.
  cbn in Hat. injection Hat as <-. cbn. lia.
Qed.

Lemma sarcastic_possible : may_be_sarcastic table discard (clued_three 5).
Proof.
  split; [reflexivity |].
  split; [exists 1; split; [reflexivity | cbn; lia] |].
  split; [exists 5; split; [reflexivity | cbn; lia] | reflexivity].
Qed.

End SarcasticDiscard.

(** C5, as the specification states it, fails for the second of the two
    waiting connections: its remaining chain holds the discarded order and
    no other waiting connection has its action index (20), and the discard
    cannot be sarcastic, yet the game is not rewound to 20 but to the action
    index of the first one (10), because the loop returns at the first
    waiting connection it acts on. *)
Lemma interpret_discard_second_connection_ignored :
  onDiscard (DiscardApi := TwoConnections.quiet) TwoConnections.game TwoConnections.discard
  = Ok TwoConnections.game
  /\ at_ (waiting_connections (common TwoConnections.game)) 1 = Some TwoConnections.second_wc
  /\ discarded_at TwoConnections.discard TwoConnections.second_wc 0
       (TwoConnections.through_red_three "playable")
  /\ unshared (waiting_connections (common TwoConnections.game)) 1 TwoConnections.second_wc
  /\ ~ may_be_sarcastic (state TwoConnections.game) TwoConnections.discard
         (card (TwoConnections.through_red_three "playable"))
  /\ action_index TwoConnections.second_wc = 20
  /\ non_hidden_before TwoConnections.second_wc 0 = 0
  /\ interpret_discard (H := PlainCards.plain_api) (H0 := TwoConnections.quiet)
       TwoConnections.game TwoConnections.discard TwoConnections.discarded
     = Ok (Rewound TwoConnections.game 10 (Ignore 0 5) None)
  /\ interpret_discard (H := PlainCards.plain_api) (H0 := TwoConnections.quiet)
       TwoConnections.game TwoConnections.discard TwoConnections.discarded
     <> Ok (Rewound TwoConnections.game (action_index TwoConnections.second_wc)
              (Ignore (non_hidden_before TwoConnections.second_wc 0)
                 (da_order TwoConnections.discard)) None).
Proof.
  split; [reflexivity |]. split; [reflexivity |].
  split; [split; [cbn; lia |]; split; [reflexivity |]; split; [reflexivity |];
          intros k conn' Hk; cbn in Hk; lia |].
  split; [exact TwoConnections.second_unshared |].
  split; [intros [Hclued _]; discriminate Hclued |].
  split; [reflexivity |]. split; [reflexivity |]. split; [reflexivity |].
  vm_compute. discriminate.
Qed.

Lemma interpret_discard_first_connection_witness :
  (exists g',
     interpret_discard (H := PlainCards.plain_api) (H0 := SarcasticDiscard.one_found)
       SarcasticDiscard.game SarcasticDiscard.discard (SarcasticDiscard.clued_three 5)
     = Ok (Rewritten g')
     /\ rewritten_onto (H0 := SarcasticDiscard.one_found) SarcasticDiscard.game g' 0
          SarcasticDiscard.waiting 1 SarcasticDiscard.through_clued_three
          (SarcasticDiscard.clued_three 7))
  /\ interpret_discard (H := PlainCards.plain_api) (H0 := TwoConnections.quiet)
       SarcasticDiscard.game SarcasticDiscard.discard (SarcasticDiscard.clued_three 5)
     = Ok (Rewound SarcasticDiscard.game 30 (Ignore 1 5) None)
  /\ interpret_discard (H := PlainCards.plain_api) (H0 := TwoConnections.quiet)
       ThreeConnections.game TwoConnections.discard TwoConnections.discarded
     = Ok (Rewound ThreeConnections.game 20 (Ignore 0 5) None).
Proof.
  split; [| split].
  - refine (proj1 (proj1 (interpret_discard_first_connection
                     (H := PlainCards.plain_api) (H0 := SarcasticDiscard.one_found)
                     SarcasticDiscard.game SarcasticDiscard.game SarcasticDiscard.discard
                     (SarcasticDiscard.clued_three 5) 0 SarcasticDiscard.waiting 1
                     SarcasticDiscard.through_clued_three
                     eq_refl eq_refl SarcasticDiscard.discarded_second
                     SarcasticDiscard.waiting_unshared _)
                   SarcasticDiscard.sarcastic_possible
                   [SarcasticDiscard.clued_three 7] SarcasticDiscard.game eq_refl)
              (SarcasticDiscard.clued_three 7) eq_refl).
    intros j wc' Hj. lia.
  - refine (proj2 (proj1 (interpret_discard_first_connection
                     (H := PlainCards.plain_api) (H0 := TwoConnections.quiet)
                     SarcasticDiscard.game SarcasticDiscard.game SarcasticDiscard.discard
                     (SarcasticDiscard.clued_three 5) 0 SarcasticDiscard.waiting 1
                     SarcasticDiscard.through_clued_three
                     eq_refl eq_refl SarcasticDiscard.discarded_second
                     SarcasticDiscard.waiting_unshared _)
                   SarcasticDiscard.sarcastic_possible
                   [] SarcasticDiscard.game eq_refl)
              _).
    + intros j wc' Hj. lia.
    + cbn. lia.
  - refine (proj2 (interpret_discard_first_connection
                     (H := PlainCards.plain_api) (H0 := TwoConnections.quiet)
                     ThreeConnections.game ThreeConnections.game TwoConnections.discard
                     TwoConnections.discarded 1 TwoConnections.second_wc 0
                     (TwoConnections.through_red_three "playable")
                     eq_refl eq_refl _ ThreeConnections.second_of_three_unshared
                     ThreeConnections.first_passed_over)
              _).
    + split; [cbn; lia |]. split; [reflexivity |]. split; [reflexivity |].
      intros k conn' Hk. cbn in Hk. lia.
    + intros [Hclued _]. discriminate Hclued.
Defined.

End InterpretDiscardFacts.

(** * Properties of determine-clue.js *)
Module DetermineClueFacts.
Import PlayerJs DetermineClueJs.

Lemma find_res_none {A} (f : A -> Res bool) (l : list A) :
  find_res f l = Ok None -> forall x, In x l -> f x = Ok false.
Proof.
  induction l as [|a l IH]; intros Hfind x Hin; [destruct Hin |].
  cbn [find_res] in Hfind. destruct (f a) as [[|]|m] eqn:Hfa; cbn [Js.bind] in Hfind;
    try discriminate Hfind.
  destruct Hin as [<- | Hin]; [exact Hfa | exact (IH Hfind x Hin)].
Qed.

Lemma maxOn_In {A} (value_of : A -> Q) (l : list A) (x : A) :
  maxOn value_of l = Some x -> In x l.
Proof.
  revert x. induction l as [|a l IH]; intros x Hmax; [discriminate Hmax |].
  cbn [maxOn] in Hmax. destruct (maxOn value_of l) as [best|].
  - destruct (Qle_bool (value_of best) (value_of a)).
    + injection Hmax as <-. left. reflexivity.
    + injection Hmax as <-. right. apply IH. reflexivity.
  - injection Hmax as <-. left. reflexivity.
Qed.

Section Focus.
Context `{CardApi} `{ClueApi}.

(** The belief about the target card in the game that simulates the clue
    has not been reset and matches its inferences. *)
Definition focus_belief_kept (hypo_game : Game) (target_card : Card) : Prop :=
  exists thought,
    at_ (thoughts (common hypo_game)) (order target_card) = Some thought
    /\ reset thought = false /\ matches_inferences thought = true.

(** The target card is one of the cards of the target's hand. *)
Definition holds_card (game : Game) (target_ : Z) (target_card : Card) : Prop :=
  exists hand c,
    at_ (hands (state game)) target_ = Some hand /\ In c hand /\ order c = order target_card.

Lemma incorrect_focus (game hypo_game : Game) (target_card : Card) (bad : list Card) (c : Card) :
  order c = order target_card ->
  incorrect game hypo_game target_card bad c = Ok false ->
  focus_belief_kept hypo_game target_card.
Proof.
  intros Horder. unfold incorrect, at_or_throw. rewrite Horder.
  destruct (at_ (thoughts (common hypo_game)) (order target_card)) as [thought|] eqn:Hthought;
    cbn [Js.bind]; [|discriminate].
  rewrite Z.eqb_refl. intros Hok. injection Hok as Hok.
  apply orb_false_elim in Hok. destruct Hok as [Hreset Hmatch].
  exists thought. split; [exact Hthought |]. split; [exact Hreset |].
  apply negb_false_iff. exact Hmatch.
Qed.

(** A clue that [evaluate_clue] accepts keeps the belief about the target
    card. *)
Lemma evaluate_clue_focus (game hypo_game : Game) (action : ClueAction) (target_ : Z)
    (target_card : Card) (bad : list Card) :
  holds_card game target_ target_card ->
  evaluate_clue game action target_ target_card bad = Ok (Some hypo_game) ->
  simulate_clue game action = Ok hypo_game /\ focus_belief_kept hypo_game target_card.
Proof.
  intros (hand & c & Hhand & Hin & Horder). unfold evaluate_clue, at_or_throw.
  destruct (simulate_clue game action) as [hypo|m]; cbn [Js.bind]; [|discriminate].
  rewrite Hhand. cbn [Js.bind].
  destruct (find_res _ hand) as [[bad_card|]|m] eqn:Hfind; cbn [Js.bind]; try discriminate.
  intros Hsome. injection Hsome as <-. split; [reflexivity |].
  eapply incorrect_focus; [exact Horder |].
  exact (find_res_none _ _ Hfind c Hin).
Qed.

(** The action that [determine_clue] simulates for a clue. *)
Definition simulated_action (game : Game) (target_ : Z) (hand : list Card) (c : Clue)
    : ClueAction :=
  clue_action game target_
    (List.map order (clueTouched hand c (state_suits (state game)))) c.

Lemma consider_accepted (game : Game) (target_ : Z) (target_card : Card)
    (options : option ClueOptions) (hand : option (list Card)) (c c' : Clue) (r : ClueResult) :
  consider game target_ target_card options hand c = Ok (Some (c', r)) ->
  c' = c /\ exists cards_ bad hypo_game,
    hand = Some cards_
    /\ evaluate_clue game (simulated_action game target_ cards_ c) target_ target_card bad
       = Ok (Some hypo_game).
Proof.
  unfold consider. destruct hand as [cards_|]; [|discriminate].
  destruct (determine_focus cards_ (common game) _) as [focus|m]; cbn [Js.bind];
    [|discriminate].
  destruct (negb (order (focus_card focus) =? order target_card)); [discriminate |].
  destruct options as [opts|]; [|discriminate].
  destruct (if opt_save opts then _ else _) as [[|]|m]; cbn [Js.bind]; try discriminate.
  destruct (bad_touch_cards_of game _) as [bad|m]; cbn [Js.bind]; [|discriminate].
  destruct (evaluate_clue game _ target_ target_card bad) as [[hypo_game|]|m] eqn:Heval;
    cbn [Js.bind]; try discriminate.
  destruct (get_result game hypo_game c _) as [res|m]; cbn [Js.bind]; [|discriminate].
  destruct (if chop focus then _ else _) as [keep|m]; cbn [Js.bind]; [|discriminate].
  intros Hsome. injection Hsome as <- _. split; [reflexivity |].
  exists cards_, bad, hypo_game. split; [reflexivity | exact Heval].
Qed.

Lemma consider_all_accepted (game : Game) (target_ : Z) (target_card : Card)
    (options : option ClueOptions) (hand : option (list Card)) (possible_clues : list Clue) :
  forall results, consider_all game target_ target_card options hand possible_clues = Ok results ->
  forall c r, In (c, r) results ->
    exists cards_ bad hypo_game,
      hand = Some cards_
      /\ evaluate_clue game (simulated_action game target_ cards_ c) target_ target_card bad
         = Ok (Some hypo_game).
Proof.
  induction possible_clues as [|c0 rest IH]; intros results Hall c r Hin.
  - injection Hall as <-. destruct Hin.
  - cbn [consider_all] in Hall.
    destruct (consider game target_ target_card options hand c0) as [entry|m] eqn:Hone;
      cbn [Js.bind] in Hall; [|discriminate Hall].
    destruct (consider_all game target_ target_card options hand rest) as [others|m];
      cbn [Js.bind] in Hall; [|discriminate Hall].
    injection Hall as <-. destruct entry as [[c' r']|].
    + destruct Hin as [Heq | Hin].
      * injection Heq as -> ->. destruct (consider_accepted _ _ _ _ _ _ _ _ Hone) as [-> Hex].
        exact Hex.
      * exact (IH others eq_refl c r Hin).
    + exact (IH others eq_refl c r Hin).
Qed.

(** C3: when [determine_clue] returns a clue for a card that the target
    holds, the game that simulates this clue has a belief about the target
    card that was not reset and that matches its inferences. A clue whose
    simulation leaves the card reset is therefore never returned. *)
Theorem determine_clue_focus_not_reset (game : Game) (target_ : Z) (target_card : Card)
    (options : option ClueOptions) (best : ResultClue) :
  holds_card game target_ target_card ->
  determine_clue game target_ target_card options = Ok (Some best) ->
  exists hand hypo_game,
    at_ (hands (state game)) target_ = Some hand
    /\ simulate_clue game
         (simulated_action game target_ hand
            (mkClue (rc_type best) (rc_value best) (rc_target best)))
       = Ok hypo_game
    /\ focus_belief_kept hypo_game target_card.
Proof.
  intros Hholds. unfold determine_clue.
  destruct (consider_all game target_ target_card options _ _) as [results|m] eqn:Hall;
    cbn [Js.bind]; [|discriminate].
  destruct (maxOn _ results) as [[c r]|] eqn:Hmax; [|discriminate].
  intros Hbest. injection Hbest as <-. cbn [rc_type rc_value rc_target].
  apply maxOn_In in Hmax.
  destruct (consider_all_accepted _ _ _ _ _ _ results Hall c r Hmax)
    as (cards_ & bad & hypo_game & Hhand & Heval).
  destruct (evaluate_clue_focus _ _ _ _ _ _ Hholds Heval) as [Hsim Hkept].
  exists cards_, hypo_game. split; [exact Hhand |]. split; [|exact Hkept].
  destruct c as [ty v tg]. exact Hsim.
Qed.

End Focus.

(** *** A clue on a known red 1

    Bob holds a clued red 1 (order 0) that everyone knows to be the red 1.
    The collaborators are the simplest ones: a clue touches the whole hand,
    the focus is the first card, every clue is safe, and the simulation
    leaves the beliefs as they are. *)
Module OneCard.

Definition bobs_card : Card :=
  mkCard (mkId 0 1) 0 true true false false false false false 0 [] [] [].

Definition belief : Card :=
  mkCard (mkId (-1) (-1)) 0 true true false false false false false 0 []
    [PlainCards.plain_card 0 1] [PlainCards.plain_card 0 1].

#[local] Instance simple : ClueApi := {|
  simulate_clue := fun g _ => Ok g;
  direct_clues := fun _ target_ _ _ => [mkClue COLOUR 0 target_; mkClue RANK 1 target_];
  clueTouched := fun hand _ _ => hand;
  determine_focus := fun hand _ _ =>
    match hand with
    | c :: _ => Ok (mkFocus c true)
    | [] => Throw TypeError
    end;
  clue_safe := fun _ _ _ => Ok true;
  elim_result := fun _ _ _ _ => (1, 1);
  bad_touch_result := fun _ _ _ _ => (0, 0);
  playables_result := fun _ _ _ => ([], []);
  chop_after_clue := fun _ _ => None;
  cardValue := fun _ _ _ _ => Ok 0%Q;
  find_clue_value := fun r => inject_Z (elim r) |}.

Definition table : State := {|
  numPlayers := 2; ourPlayerIndex := 0;
  hands := [[]; [bobs_card]];
  deck := [bobs_card];
  play_stacks := [0];
  discard_stacks := [[0; 0; 0; 0; 0]];
  max_ranks := [5];
  Basics.hypo_stacks := [[1]; [1]];
  state_suits := mkVariant ["Red"%string] None;
  score := 0; cardsLeft := 30; early_game := true; clue_tokens := 8 |}.

Definition everyone : Player := {|
  playerIndex := -1;
  all_possible := []; all_inferred := [];
  hypo_stacks := [1];
  thoughts := [belief];
  links := [];
  unknown_plays := [];
  waiting_connections := [] |}.

Definition game : Game := mkGame table everyone everyone.

Definition no_result : ResultClue := mkResultClue RANK 0 0 (mkClueResult 0 0 0 0 0%Q [] []).

Definition best : ResultClue :=
  Eval vm_compute in
    match determine_clue (H := PlainCards.plain_api) game 1 bobs_card
            (Some (mkClueOptions false false false)) with
    | Ok (Some b) => b
    | _ => no_result
    end.

(** Both clues are accepted and score the same: the colour clue, first in
    the enumeration, is returned. *)
Example best_is_colour : rc_type best = COLOUR /\ rc_value best = 0 /\ rc_target best = 1.
Proof. repeat split. Qed.

Lemma bob_holds_card : holds_card game 1 bobs_card.
Proof. exists [bobs_card], bobs_card. repeat split. left. reflexivity. Qed.

End OneCard.

Lemma determine_clue_focus_not_reset_witness :
  exists hand hypo_game,
    at_ (hands (state OneCard.game)) 1 = Some hand
    /\ simulate_clue (ClueApi := OneCard.simple) OneCard.game
         (simulated_action (H0 := OneCard.simple) OneCard.game 1 hand
            (mkClue (rc_type OneCard.best) (rc_value OneCard.best) (rc_target OneCard.best)))
       = Ok hypo_game
    /\ focus_belief_kept (H := PlainCards.plain_api) hypo_game OneCard.bobs_card.
Proof.
  apply (determine_clue_focus_not_reset (H := PlainCards.plain_api) (H0 := OneCard.simple)
           OneCard.game 1 OneCard.bobs_card (Some (mkClueOptions false false false))
           OneCard.best OneCard.bob_holds_card).
  vm_compute. reflexivity.
Defined.

(** A simulation that resets the belief about the target card makes
    [evaluate_clue] refuse the clue, and [determine_clue] return nothing. *)
Module ResetCard.

Definition reset_belief : Card :=
  mkCard (mkId (-1) (-1)) 0 true true false false false true false 0 []
    [PlainCards.plain_card 0 1] [PlainCards.plain_card 0 1].

Definition after_reset (g : Game) : Game :=
  mkGame (state g)
    (mkPlayer (-1) [] [] [1] [reset_belief] [] [] [])
    (me g).

#[local] Instance resetting : ClueApi := {|
  simulate_clue := fun g _ => Ok (after_reset g);
  direct_clues := direct_clues (ClueApi := OneCard.simple);
  clueTouched := clueTouched (ClueApi := OneCard.simple);
  determine_focus := determine_focus (ClueApi := OneCard.simple);
  clue_safe := clue_safe (ClueApi := OneCard.simple);
  elim_result := elim_result (ClueApi := OneCard.simple);
  bad_touch_result := bad_touch_result (ClueApi := OneCard.simple);
  playables_result := playables_result (ClueApi := OneCard.simple);
  chop_after_clue := chop_after_clue (ClueApi := OneCard.simple);
  cardValue := cardValue (ClueApi := OneCard.simple);
  find_clue_value := find_clue_value (ClueApi := OneCard.simple) |}.

Example reset_is_refused :
  determine_clue (H := PlainCards.plain_api) (H0 := resetting) OneCard.game 1 OneCard.bobs_card
    (Some (mkClueOptions false false false)) = Ok None.
Proof. vm_compute. reflexivity. Qed.

End ResetCard.

End DetermineClueFacts.

(** * Further properties of basics/hanabi-util.js and variants.js *)
Module HanabiUtilMore.
Import HanabiUtil.

(** X1: The stack decides both functions: with the stack of the suit at [h],
    [playableAway] is [rank - h - 1], and the identity is basic trash exactly
    when that is negative or the rank is above the suit's maximum. Without a
    stack for the suit, [playableAway] is [NaN] and only the maximum can
    make the identity trash. *)
Theorem isBasicTrash_by_playableAway (state : State) (id : Identity) :
  (forall h, at_ (play_stacks state) (suitIndex id) = Some h ->
     playableAway state id = Some (rank id - h - 1)
     /\ (isBasicTrash state id = true <->
         rank id - h - 1 < 0
         \/ exists m, at_ (max_ranks state) (suitIndex id) = Some m /\ m < rank id))
  /\ (at_ (play_stacks state) (suitIndex id) = None ->
      playableAway state id = None
      /\ (isBasicTrash state id = true <->
          exists m, at_ (max_ranks state) (suitIndex id) = Some m /\ m < rank id)).
Proof.
  unfold playableAway, isBasicTrash, ngt, nlt, nle, nsub, nadd. split.
  - intros h ->. split; [f_equal; lia |].
    rewrite orb_true_iff, Z.leb_le.
    destruct (at_ (max_ranks state) (suitIndex id)) as [m|].
    + rewrite Z.ltb_lt. split.
      * intros [Hle | Hlt]; [left; lia | right; exists m; split; [reflexivity | exact Hlt]].
      * intros [Hneg | (m' & Hm' & Hlt)]; [left; lia |].
        injection Hm' as <-. right. exact Hlt.
    + split.
      * intros [Hle | Hf]; [left; lia | discriminate Hf].
      * intros [Hneg | (m' & Hm' & _)]; [left; lia | discriminate Hm'].
  - intros ->. split; [reflexivity |]. cbn [orb].
    destruct (at_ (max_ranks state) (suitIndex id)) as [m|].
    + rewrite Z.ltb_lt. split.
      * intros Hlt. exists m. split; [reflexivity | exact Hlt].
      * intros (m' & Hm' & Hlt). injection Hm' as <-. exact Hlt.
    + split; [discriminate |]. intros (m' & Hm' & _). discriminate Hm'.
Qed.

Lemma isBasicTrash_by_playableAway_witness :
  playableAway HanabiUtilFacts.stacks_state (mkId 0 4) = Some (4 - 3 - 1)
  /\ (isBasicTrash HanabiUtilFacts.stacks_state (mkId 0 4) = true <->
      4 - 3 - 1 < 0
      \/ exists m, at_ (max_ranks HanabiUtilFacts.stacks_state) 0 = Some m /\ m < 4).
Proof.
  exact (proj1 (isBasicTrash_by_playableAway HanabiUtilFacts.stacks_state (mkId 0 4))
           3 eq_refl).
Defined.

(** X2: Every rank from 1 to 5 of a suit of the variant has one, two or three
    copies, and one copy in a dark suit; a suit index outside the variant
    makes [cardCount] throw. *)
Theorem cardCount_bounds (variant : Variant) (s r : Z) :
  (forall suit, at_ (suits variant) s = Some suit -> 1 <= r <= 5 ->
     exists n, cardCount variant (mkId s r) = Ok (Some n) /\ 1 <= n <= 3
               /\ (dark suit = true -> n = 1))
  /\ (at_ (suits variant) s = None -> cardCount variant (mkId s r) = Throw TypeError).
Proof.
  unfold cardCount, at_or_throw. cbn [suitIndex rank]. split.
  - intros suit -> Hr. cbn [Js.bind]. destruct (dark suit).
    + exists 1. split; [reflexivity |]. split; [lia | reflexivity].
    + destruct (match criticalRank variant with Some r0 => r0 =? r | None => false end).
      * exists 1. split; [reflexivity |]. split; [lia | reflexivity].
      * assert (Hcases : r = 1 \/ r = 2 \/ r = 3 \/ r = 4 \/ r = 5) by lia.
        destruct Hcases as [-> | [-> | [-> | [-> | ->]]]]; cbn;
          eexists; (split; [reflexivity |]); (split; [lia | discriminate]).
  - intros ->. reflexivity.
Qed.

Lemma cardCount_bounds_witness :
  exists n, cardCount (mkVariant ["Red"%string; "Black"%string] None) (mkId 1 1) = Ok (Some n)
            /\ 1 <= n <= 3 /\ (dark "Black" = true -> n = 1).
Proof.
  apply (proj1 (cardCount_bounds (mkVariant ["Red"%string; "Black"%string] None) 1 1)
           "Black"%string); [reflexivity | lia].
Defined.

(** X3: A 5 has a single copy in every suit of every variant, so it is critical
    exactly while none has been discarded. *)
Theorem five_is_critical_until_discarded (state : State) (s : Z) (suit : string)
    (row : list Z) :
  at_ (suits (state_suits state)) s = Some suit ->
  at_ (discard_stacks state) s = Some row ->
  isCritical state (mkId s 5) = Ok (neq (at_ row 4) (Some 0)).
Proof.
  intros Hsuit Hrow. unfold isCritical, cardCount, at_or_throw. cbn [suitIndex rank].
  rewrite Hrow, Hsuit. cbn [Js.bind]. destruct (dark suit); [reflexivity |].
  destruct (match criticalRank (state_suits state) with
            | Some r => r =? 5 | None => false end); reflexivity.
Qed.

Lemma five_is_critical_until_discarded_witness :
  isCritical HanabiUtilFacts.two_ones_discarded (mkId 0 5) = Ok (neq (Some 0) (Some 0)).
Proof.
  exact (five_is_critical_until_discarded HanabiUtilFacts.two_ones_discarded 0
           "Red"%string [2; 0; 0; 0; 0] eq_refl eq_refl).
Defined.

(** The sum of a list of numbers. *)
Definition total (l : list Z) : Z := fold_right Z.add 0 l.

Lemma fold_left_add_total (l : list Z) (a : Z) :
  fold_left (fun acc curr => acc + curr) l a = a + total l.
Proof.
  revert a. induction l as [|x l IH]; intros a; cbn [fold_left total fold_right].
  - lia.
  - rewrite IH. unfold total. lia.
Qed.

(** X4: [getPace] is score + cards left + players - the sum of the maximal
    ranks, and it throws when the state has no suit at all (a [reduce] of
    an empty array without an initial value). *)
Theorem getPace_formula (state : State) :
  (max_ranks state <> [] ->
   getPace state
   = Ok (score state + cardsLeft state + numPlayers state - total (max_ranks state)))
  /\ (max_ranks state = [] -> getPace state = Throw TypeError).
Proof.
  unfold getPace. destruct (max_ranks state) as [|m rest]; split.
  - intros Hne. contradiction.
  - reflexivity.
  - intros _. rewrite fold_left_add_total. reflexivity.
  - discriminate.
Qed.

Lemma getPace_formula_witness :
  getPace HanabiUtilFacts.stacks_state = Ok (3 + 30 + 3 - total [5; 5; 5]).
Proof.
  refine (proj1 (getPace_formula HanabiUtilFacts.stacks_state) _). discriminate.
Defined.

Section Values.
Context `{CardApi}.

Lemma cardValue_known_unfold (state : State) (c : Card) (order_ : Z) :
  suitIndex (base c) <> -1 \/ instanceofCard c = false ->
  cardValue state c order_ = cardValue_known state (base c) order_.
Proof.
  intros Hknown. destruct c as [b o isCard cl nc fi cm rs rw di cs poss inf].
  cbn in Hknown. cbn [cardValue base].
  assert (Hbranch : (suitIndex b =? -1) && isCard = false).
  { destruct Hknown as [Hne | ->]; [|apply andb_false_r].
    apply Z.eqb_neq in Hne. rewrite Hne. reflexivity. }
  rewrite Hbranch. reflexivity.
Qed.

(** X5: A card whose identity is known and basic trash is worth 0, whatever the
    hands hold: the hands are not read at all. *)
Theorem cardValue_of_basic_trash (state : State) (c : Card) (order_ : Z) :
  suitIndex (base c) <> -1 \/ instanceofCard c = false ->
  isBasicTrash state (base c) = true ->
  cardValue state c order_ = Ok (Some 0%Q).
Proof.
  intros Hknown Htrash. rewrite (cardValue_known_unfold state c order_ Hknown).
  unfold cardValue_known, isTrash. rewrite Htrash. reflexivity.
Qed.

(** X6: An unknown card of our hand whose possibilities are all known, basic
    trash identities is worth 0. *)
Theorem cardValue_of_unknown_trash (state : State) (c : Card) (order_ : Z) :
  suitIndex (base c) = -1 -> instanceofCard c = true -> possible c <> [] ->
  (forall p, In p (possible c) ->
     (suitIndex (base p) <> -1 \/ instanceofCard p = false)
     /\ isBasicTrash state (base p) = true) ->
  exists v, cardValue state c order_ = Ok (Some v) /\ (v == 0)%Q.
Proof.
  intros Hsuit Hcard Hposs Hall.
  rewrite HanabiUtilFacts.cardValue_unknown_unfold by assumption.
  assert (Hzero : forall x, (x == 0)%Q -> to_double x = 0%Q).
  { intros x Hx. rewrite (HanabiUtilFacts.to_double_compat x 0 Hx). reflexivity. }
  assert (Hsum : forall acc, (acc == 0)%Q ->
            exists s, fold_left (HanabiUtilFacts.add_value state) (possible c)
                        (Ok (Some acc)) = Ok (Some s) /\ (s == 0)%Q).
  { clear Hposs. induction (possible c) as [|p poss IH]; intros acc Hacc.
    - exists acc. split; [reflexivity | exact Hacc].
    - cbn [fold_left]. unfold HanabiUtilFacts.add_value at 2. cbn [Js.bind].
      destruct (Hall p (or_introl eq_refl)) as [Hknown Htrash].
      rewrite (cardValue_known_unfold state p (-1) Hknown).
      unfold cardValue_known, isTrash. rewrite Htrash. cbn [Js.bind qadd].
      rewrite (Hzero (acc + 0)%Q) by (rewrite Hacc; reflexivity).
      apply (IH (fun q Hq => Hall q (or_intror Hq))). reflexivity. }
  destruct (Hsum 0%Q ltac:(reflexivity)) as (s & Hs & Hs0).
  rewrite Hs. cbn [Js.bind]. destruct (possible c) as [|p poss]; [contradiction |].
  cbn [length qdiv_length]. eexists. split; [reflexivity |].
  rewrite (Hzero (s / inject_Z (Z.of_nat (S (length poss))))%Q); [reflexivity |].
  rewrite Hs0. field. intros Hnone.
  apply (Qeq_bool_neq (inject_Z (Z.of_nat (S (length poss)))) 0); [|exact Hnone].
  unfold Qeq_bool, inject_Z. cbn [Qnum Qden]. apply Z.eqb_neq. lia.
Qed.

End Values.

(** *** What a player holds does not change what the player may still have *)

Definition with_hands (s : State) (hs : list (list Card)) : State :=
  mkState (numPlayers s) (ourPlayerIndex s) hs (deck s) (play_stacks s) (discard_stacks s)
    (max_ranks s) (hypo_stacks s) (state_suits s) (score s) (cardsLeft s) (early_game s)
    (clue_tokens s).

Lemma In_range (n x : Z) : In x (range n) -> 0 <= x < n.
Proof.
  unfold range. intros Hin. apply in_map_iff in Hin. destruct Hin as (k & <- & Hk).
  apply in_seq in Hk. lia.
Qed.

Lemma fold_left_ext_In {A B} (f g : A -> B -> A) (l : list B) (a : A) :
  (forall acc x, In x l -> f acc x = g acc x) -> fold_left f l a = fold_left g l a.
Proof.
  revert a. induction l as [|x l IH]; intros a Hext; [reflexivity |].
  cbn [fold_left]. rewrite (Hext a x (or_introl eq_refl)).
  apply IH. intros acc y Hy. apply Hext. right. exact Hy.
Qed.

Section Visible.
Context `{CardApi}.

Lemma visibleFind_skips_ignored (state : State) (hs : list (list Card)) (ref : PlayerRef)
    (id : Identity) (options : FindOptions) (ignore : list PlayerRef) :
  fo_ignore options = Some ignore ->
  (forall i, 0 <= i < numPlayers state -> includes ignore i = false ->
             at_ hs i = at_ (hands state) i) ->
  visibleFind (with_hands state hs) ref id options = visibleFind state ref id options.
Proof.
  intros Hignore Hsame. unfold visibleFind. cbn [with_hands numPlayers hands ourPlayerIndex].
  apply fold_left_ext_In. intros acc i Hi. apply In_range in Hi.
  destruct acc as [found|m]; [|reflexivity]. cbn [Js.bind]. rewrite Hignore.
  destruct (includes ignore i) eqn:Hin; [reflexivity |].
  unfold at_or_throw. rewrite (Hsame i Hi Hin). reflexivity.
Qed.

(** X7: [unknownIdentities(state, i, identity)] does not read the hand of player
    [i]: replacing that hand by any other leaves the count (or the
    exception) as it was. *)
Theorem unknownIdentities_ignores_own_hand (state : State) (i : Z) (hand : list Card)
    (id : Identity) :
  unknownIdentities (with_hands state (set_at (hands state) i hand)) (RefIndex i) id
  = unknownIdentities state (RefIndex i) id.
Proof.
  unfold unknownIdentities.
  rewrite (visibleFind_skips_ignored state (set_at (hands state) i hand) (RefIndex i) id
             (mkFindOptions None None (Some [RefIndex i]) false) [RefIndex i] eq_refl).
  - reflexivity.
  - intros j _ Hj. apply PlayerFacts.at_set_at_other.
    unfold includes in Hj. cbn [existsb] in Hj. rewrite orb_false_r in Hj.
    apply Z.eqb_neq in Hj. exact Hj.
Qed.

End Visible.

(** *** [refer_right] *)
Section Refer.
Import ReferRightJs.

Lemma refer_loop_result (fuel : nat) (hand : list Card) :
  forall target t, refer_loop fuel hand target = Some (Ok t) ->
  exists c, at_ hand t = Some c /\ clued_before c = false.
Proof.
  induction fuel as [|fuel IH]; intros target t Hrun; [discriminate Hrun |].
  cbn [refer_loop] in Hrun. destruct target as [t0|]; [|discriminate Hrun].
  destruct (at_ hand t0) as [c|] eqn:Hc; [|discriminate Hrun].
  destruct (clued_before c) eqn:Hbefore.
  - exact (IH _ _ Hrun).
  - injection Hrun as <-. exists c. split; assumption.
Qed.

(** X8: When [refer_right] returns, the index is inside the hand and its card
    is unclued or newly clued. *)
Theorem refer_right_result (fuel : nat) (hand : list Card) (index t : Z) :
  refer_right fuel hand index = Some (Ok t) ->
  0 <= t < Z.of_nat (length hand)
  /\ exists c, at_ hand t = Some c /\ (clued c = false \/ newly_clued c = true).
Proof.
  intros Hrun. destruct (refer_loop_result _ _ _ _ Hrun) as (c & Hc & Hbefore).
  split.
  - unfold at_ in Hc. destruct (0 <=? t) eqn:Hle; [|discriminate Hc].
    apply Z.leb_le in Hle. apply lookup_lt_Some in Hc. lia.
  - exists c. split; [exact Hc |]. unfold clued_before in Hbefore.
    destruct (clued c); [right | left; reflexivity].
    destruct (newly_clued c); [reflexivity | discriminate Hbefore].
Qed.

Lemma at_in_hand (hand : list Card) (t : Z) :
  0 <= t < Z.of_nat (length hand) -> exists c, at_ hand t = Some c.
Proof.
  intros Ht. unfold at_. replace (0 <=? t) with true by (symmetry; apply Z.leb_le; lia).
  apply lookup_lt_is_Some. lia.
Qed.

Lemma js_rem_step (t len : Z) :
  0 <= t < len -> js_rem (t + 1) len = Some ((t + 1) mod len).
Proof.
  intros Ht. unfold js_rem. replace (len =? 0) with false by (symmetry; apply Z.eqb_neq; lia).
  rewrite Z.rem_mod_nonneg by lia. reflexivity.
Qed.

(** From a position inside the hand, with a card that ends the loop at most
    [n - 1] steps to the right (around the end of the hand), [n] tests are
    enough, and the loop stops at the first such card. *)
Lemma refer_loop_finds (hand : list Card) (n : nat) :
  forall t k,
    0 <= t < Z.of_nat (length hand) -> (k < n)%nat ->
    (exists c, at_ hand ((t + Z.of_nat k) mod Z.of_nat (length hand)) = Some c
               /\ clued_before c = false) ->
    exists k', (k' <= k)%nat
      /\ refer_loop n hand (Some t)
         = Some (Ok ((t + Z.of_nat k') mod Z.of_nat (length hand)))
      /\ forall j c, (j < k')%nat ->
           at_ hand ((t + Z.of_nat j) mod Z.of_nat (length hand)) = Some c ->
           clued_before c = true.
Proof.
  induction n as [|n IH]; intros t k Ht Hk Hgood; [lia |].
  cbn [refer_loop]. destruct (at_in_hand hand t Ht) as (c0 & Hc0). rewrite Hc0.
  destruct (clued_before c0) eqn:Hbefore.
  - destruct k as [|k].
    { destruct Hgood as (c & Hc & Hstop). rewrite Z.add_0_r, Z.mod_small in Hc by lia.
      rewrite Hc0 in Hc. injection Hc as <-. rewrite Hbefore in Hstop. discriminate Hstop. }
    rewrite (js_rem_step t _ Ht).
    set (len := Z.of_nat (length hand)) in *.
    assert (Hshift : forall j, ((t + 1) mod len + Z.of_nat j) mod len
                               = (t + Z.of_nat (S j)) mod len).
    { intros j. rewrite Zplus_mod_idemp_l. f_equal. lia. }
    destruct (IH ((t + 1) mod len) k) as (k' & Hle & Hrun & Hfirst).
    + apply Z.mod_pos_bound. lia.
    + lia.
    + rewrite Hshift. exact Hgood.
    + exists (S k'). split; [lia |]. split.
      * rewrite Hrun, Hshift. reflexivity.
      * intros j c Hj Hc. destruct j as [|j].
        -- rewrite Z.add_0_r, Z.mod_small in Hc by lia. rewrite Hc0 in Hc.
           injection Hc as <-. exact Hbefore.
        -- apply (Hfirst j c); [lia |]. rewrite Hshift. exact Hc.
  - exists 0%nat. split; [lia |]. split.
    + rewrite Z.add_0_r, Z.mod_small by lia. reflexivity.
    + intros j c Hj. lia.
Qed.

(** X9: With an index inside the hand (or -1) and a card that is unclued or
    newly clued somewhere in the hand, [refer_right] returns within as many
    tests as the hand has cards, at the first such card to the right of the
    index, around the end of the hand. *)
Theorem refer_right_terminates (hand : list Card) (index g : Z) (c : Card) :
  -1 <= index < Z.of_nat (length hand) ->
  at_ hand g = Some c -> clued_before c = false ->
  exists k, (k < length hand)%nat
    /\ refer_right (length hand) hand index
       = Some (Ok ((index + 1 + Z.of_nat k) mod Z.of_nat (length hand)))
    /\ forall j c', (j < k)%nat ->
         at_ hand ((index + 1 + Z.of_nat j) mod Z.of_nat (length hand)) = Some c' ->
         clued_before c' = true.
Proof.
  intros Hindex Hg Hstop. set (len := Z.of_nat (length hand)) in *.
  assert (Hgr : 0 <= g < len).
  { unfold at_ in Hg. destruct (0 <=? g) eqn:Hle; [|discriminate Hg].
    apply Z.leb_le in Hle. apply lookup_lt_Some in Hg. lia. }
  assert (Hlen : 0 < len) by lia.
  set (t := (index + 1) mod len).
  assert (Ht : 0 <= t < len) by (apply Z.mod_pos_bound; lia).
  assert (Hstart : js_rem (index + 1) len = Some t).
  { unfold js_rem. replace (len =? 0) with false by (symmetry; apply Z.eqb_neq; lia).
    rewrite Z.rem_mod_nonneg by lia. reflexivity. }
  set (k := Z.to_nat ((g - t) mod len)).
  assert (Hk : (k < length hand)%nat).
  { pose proof (Z.mod_pos_bound (g - t) len Hlen). lia. }
  assert (Hat : (t + Z.of_nat k) mod len = g).
  { unfold k. rewrite Z2Nat.id by (apply Z.mod_pos_bound; lia).
    rewrite Zplus_mod_idemp_r. replace (t + (g - t)) with g by lia.
    apply Z.mod_small. lia. }
  destruct (refer_loop_finds hand (length hand) t k Ht Hk) as (k' & Hle & Hrun & Hfirst).
  { fold len. rewrite Hat. exists c. split; assumption. }
  assert (Hshift : forall j, (t + Z.of_nat j) mod len = (index + 1 + Z.of_nat j) mod len).
  { intros j. unfold t. apply Zplus_mod_idemp_l. }
  exists k'. split; [lia |]. split.
  - unfold refer_right. fold len. rewrite Hstart, Hrun. fold len. rewrite Hshift. reflexivity.
  - intros j c' Hj Hc'. apply (Hfirst j c' Hj). fold len. rewrite Hshift. exact Hc'.
Qed.



End Refer.

Definition played_red (r : Z) : Card := PlainCards.plain_card 0 r.

Definition one_or_two : Card :=
  mkCard (mkId (-1) (-1)) 0 true false false false false false false 0 []
    [played_red 1; played_red 2] [].

Lemma cardValue_of_basic_trash_witness :
  cardValue (H := PlainCards.plain_api) HanabiUtilFacts.stacks_state (played_red 2) (-1)
  = Ok (Some 0%Q).
Proof.
  apply (cardValue_of_basic_trash (H := PlainCards.plain_api)).
  - left. discriminate.
  - reflexivity.
Defined.

Lemma cardValue_of_unknown_trash_witness :
  exists v,
    cardValue (H := PlainCards.plain_api) HanabiUtilFacts.stacks_state one_or_two 0
    = Ok (Some v) /\ (v == 0)%Q.
Proof.
  apply (cardValue_of_unknown_trash (H := PlainCards.plain_api)).
  - reflexivity.
  - reflexivity.
  - discriminate.
  - intros p [<- | [<- | []]]; (split; [left; discriminate | reflexivity]).
Defined.

Definition held (o : Z) (was_clued now_clued : bool) : Card :=
  mkCard (mkId (-1) (-1)) o true was_clued now_clued false false false false o [] [] [].

(** Slots 0 and 1 were clued earlier, slot 2 is touched by the present clue,
    slot 3 is unclued. *)
Definition four_cards : list Card :=
  [held 0 true false; held 1 true false; held 2 true true; held 3 false false].


Lemma refer_right_result_witness :
  0 <= 2 < Z.of_nat (length four_cards)
  /\ exists c, at_ four_cards 2 = Some c /\ (clued c = false \/ newly_clued c = true).
Proof.
  apply (refer_right_result 4 four_cards 3 2). reflexivity.
Defined.

Lemma refer_right_terminates_witness :
  exists k, (k < length four_cards)%nat
    /\ ReferRightJs.refer_right (length four_cards) four_cards 3
       = Some (Ok ((3 + 1 + Z.of_nat k) mod Z.of_nat (length four_cards)))
    /\ forall j c', (j < k)%nat ->
         at_ four_cards ((3 + 1 + Z.of_nat j) mod Z.of_nat (length four_cards)) = Some c' ->
         ReferRightJs.clued_before c' = true.
Proof.
  apply (refer_right_terminates four_cards 3 3 (held 3 false false)).
  - cbn. lia.
  - reflexivity.
  - reflexivity.
Defined.


End HanabiUtilMore.

(** ** Facts about the touch rules of variants.js and [direct_clues] *)
Module VariantTouchFacts.
Import VariantTouchJs.

Lemma filter_res_kept {A} (f : A -> Res bool) (l : list A) :
  forall kept, filter_res f l = Ok kept ->
  forall x, In x kept <-> In x l /\ f x = Ok true.
Proof.
  induction l as [|a l IH]; intros kept Hrun x.
  - injection Hrun as <-. cbn. tauto.
  - cbn [filter_res Js.bind] in Hrun.
    destruct (f a) as [keep|m] eqn:Hfa; [|discriminate Hrun]. cbn [Js.bind] in Hrun.
    destruct (filter_res f l) as [rest|m] eqn:Hrest; [|discriminate Hrun].
    cbn [Js.bind] in Hrun. injection Hrun as <-. specialize (IH rest eq_refl x).
    destruct keep; cbn [In]; rewrite IH; split.
    + intros [<- | [Hin Hfx]]; [split; [left; reflexivity | exact Hfa] | split; [right |]; assumption].
    + intros [[<- | Hin] Hfx]; [left; reflexivity | right; split; assumption].
    + intros [Hin Hfx]. split; [right |]; assumption.
    + intros [[<- | Hin] Hfx]; [congruence | split; assumption].
Qed.

Lemma filter_res_defined {A} (f : A -> Res bool) (l : list A) :
  forall kept, filter_res f l = Ok kept -> forall x, In x l -> exists b, f x = Ok b.
Proof.
  induction l as [|a l IH]; intros kept Hrun x Hin; [destruct Hin |].
  cbn [filter_res Js.bind] in Hrun.
  destruct (f a) as [keep|m] eqn:Hfa; [|discriminate Hrun]. cbn [Js.bind] in Hrun.
  destruct (filter_res f l) as [rest|m]; [|discriminate Hrun].
  destruct Hin as [<- | Hin]; [exists keep; exact Hfa | exact (IH rest eq_refl x Hin)].
Qed.

Lemma filter_res_pure {A} (f : A -> Res bool) (g : A -> bool) (l : list A) :
  (forall x, In x l -> f x = Ok (g x)) -> filter_res f l = Ok (List.filter g l).
Proof.
  induction l as [|a l IH]; intros Hfg; [reflexivity |].
  cbn [filter_res List.filter]. rewrite (Hfg a (or_introl eq_refl)). cbn [Js.bind].
  rewrite IH by (intros x Hx; apply Hfg; right; exact Hx). cbn [Js.bind].
  destruct (g a); reflexivity.
Qed.

Lemma filter_res_throws {A} (f : A -> Res bool) (l : list A) (m : string) :
  (forall x, In x l -> f x = Ok false \/ f x = Throw m) ->
  forall x, In x l -> f x = Throw m -> filter_res f l = Throw m.
Proof.
  induction l as [|a l IH]; intros Hall x Hin Hx; [destruct Hin |].
  cbn [filter_res]. destruct (Hall a (or_introl eq_refl)) as [Ha | Ha]; rewrite Ha; cbn [Js.bind].
  - destruct Hin as [<- | Hin]; [congruence |].
    rewrite (IH (fun y Hy => Hall y (or_intror Hy)) x Hin Hx). reflexivity.
  - reflexivity.
Qed.

Lemma filter_res_only {A} (f : A -> Res bool) (l : list A) (m : string) :
  (forall x, In x l -> f x = Ok false \/ f x = Throw m) ->
  filter_res f l = Ok [] \/ filter_res f l = Throw m.
Proof.
  induction l as [|a l IH]; intros Hall; [left; reflexivity |].
  cbn [filter_res]. destruct (Hall a (or_introl eq_refl)) as [Ha | Ha]; rewrite Ha; cbn [Js.bind].
  - destruct (IH (fun y Hy => Hall y (or_intror Hy))) as [Hr | Hr]; rewrite Hr; [left | right];
      reflexivity.
  - right. reflexivity.
Qed.



Lemma In_range_bounds (n x : Z) : In x (range n) -> 0 <= x < n.
Proof.
  unfold range. intros Hin. apply in_map_iff in Hin. destruct Hin as (k & <- & Hk).
  apply in_seq in Hk. lia.
Qed.


(** A suit whose name matches none of the patterns of variants.js. *)
Definition ordinary (suit : string) : bool :=
  negb (whitish suit || rainbowish suit || brownish suit || pinkish suit
        || contains "Prism" suit).

(** A variant in which rank [r] is clued by its own number alone. *)
Definition plain_rank (rules : Rules) (r : Z) : bool :=
  negb (is_special rules r) && negb (chimneys rules) && negb (funnels rules).

Lemma ordinary_names (suit : string) :
  ordinary suit = true ->
  whitish suit = false /\ rainbowish suit = false /\ brownish suit = false
  /\ pinkish suit = false
  /\ ((suit =? "Null") || (suit =? "Dark Null"))%string = false
  /\ ((suit =? "Omni") || (suit =? "Dark Omni"))%string = false
  /\ ((suit =? "Prism") || (suit =? "Dark Prism"))%string = false.
Proof.
  unfold ordinary. intros Hord. apply negb_true_iff in Hord.
  apply orb_false_iff in Hord. destruct Hord as [Hord Hprism].
  apply orb_false_iff in Hord. destruct Hord as [Hord Hp].
  apply orb_false_iff in Hord. destruct Hord as [Hord Hb].
  apply orb_false_iff in Hord. destruct Hord as [Hw Hr].
  repeat (split; [assumption |]).
  assert (Hne : forall name, whitish name || rainbowish name || contains "Prism" name = true ->
                             (suit =? name)%string = false).
  { intros name Hname. apply String.eqb_neq. intros ->.
    rewrite Hw, Hr, Hprism in Hname. discriminate Hname. }
  repeat split; apply orb_false_iff; split; apply Hne; reflexivity.
Qed.

(** Walks [cardTouched] down to its last comparison, for a card of an
    ordinary suit and of a rank without special rule. *)
Ltac own_suit_or_rank Hsuit Hord Hplain :=
  let Hw := fresh "Hw" in let Hr := fresh "Hr" in let Hb := fresh "Hb" in
  let Hp := fresh "Hp" in let Hnull := fresh "Hnull" in let Homni := fresh "Homni" in
  let Hprism := fresh "Hprism" in let Hrank := fresh "Hrank" in
  let Hspecial := fresh "Hspecial" in let Hchim := fresh "Hchim" in
  let Hfun := fresh "Hfun" in
  unfold cardTouched; rewrite Hsuit;
  destruct (ordinary_names _ Hord) as (Hw & Hr & Hb & Hp & Hnull & Homni & Hprism);
  rewrite Hnull, Homni;
  pose proof Hplain as Hrank; unfold plain_rank in Hrank;
  apply andb_true_iff in Hrank; destruct Hrank as [Hrank Hfun];
  apply andb_true_iff in Hrank; destruct Hrank as [Hspecial Hchim];
  apply negb_true_iff in Hspecial, Hchim, Hfun;
  match goal with
  | |- context [type ?clue] =>
      destruct (type clue);
      [rewrite Hw, Hr, Hprism, Hspecial | rewrite Hb, Hp, Hspecial, Hchim, Hfun];
      reflexivity
  end.

(** X11: For a card of an ordinary suit and of a rank without special rule, a
    colour clue touches it exactly when it names the card's suit, and a rank
    clue exactly when it names the card's rank. *)
Theorem cardTouched_ordinary (rules : Rules) (card : Identity) (suit : string) (clue : Clue) :
  at_ (suits (variant rules)) (suitIndex card) = Some suit ->
  ordinary suit = true ->
  plain_rank rules (rank card) = true ->
  cardTouched card rules clue
  = Ok (match type clue with
        | COLOUR => suitIndex card =? value clue
        | RANK => rank card =? value clue
        end).
Proof. intros Hsuit Hord Hplain. own_suit_or_rank Hsuit Hord Hplain. Qed.

Lemma filter_res_sublist {A} (f : A -> Res bool) (l : list A) :
  forall kept, filter_res f l = Ok kept -> sublist kept l.
Proof.
  induction l as [|a l IH]; intros kept Hrun.
  - injection Hrun as <-. constructor.
  - cbn [filter_res Js.bind] in Hrun.
    destruct (f a) as [keep|m]; [|discriminate Hrun]. cbn [Js.bind] in Hrun.
    destruct (filter_res f l) as [rest|m]; [|discriminate Hrun].
    cbn [Js.bind] in Hrun. injection Hrun as <-.
    destruct keep; [apply sublist_skip | apply sublist_cons]; apply IH; reflexivity.
Qed.

(** The rank clues to the target, in the order of the loop. *)
Definition rank_clues (target : Z) : list Clue :=
  List.map (fun r => mkClue RANK r target) [1; 2; 3; 4; 5].

Lemma colour_loop_empty (rules : Rules) (target : Z) (card : Identity) :
  filter_res (cluable_and_touching rules card)
    (List.map (fun suitIndex => mkClue COLOUR suitIndex target)
       (range_to (suits_length rules)))
  = Ok [].
Proof. reflexivity. Qed.

(** X12: [direct_clues] never returns a colour clue: the bound of its colour
    loop is the [length] of the variant object, which is [undefined]. When
    it returns, it returns exactly the rank clues from 1 to 5 to the target
    that can be given and that touch the card, in ascending order, and
    nothing if rank clues are excluded. *)
Theorem direct_clues_exact (rules : Rules) (target : Z) (card : Identity)
    (options : option Options) (found : list Clue) :
  direct_clues rules target card options = Ok found ->
  (forall clue, In clue found <->
     (type clue = RANK /\ VariantTouchJs.target clue = target /\ 1 <= value clue <= 5
      /\ (match options with Some o => excludeRank o | None => false end) = false
      /\ isCluable rules clue = Ok true /\ cardTouched card rules clue = Ok true))
  /\ sublist found (rank_clues target).
Proof.
  unfold direct_clues. intros Hrun. rewrite colour_loop_empty in Hrun.
  assert (Hcolours : (if (match options with Some o => excludeColour o | None => false end)
                      then Ok [] else Ok []) = Ok (@nil Clue))
    by (destruct (match options with Some o => excludeColour o | None => false end);
        reflexivity).
  rewrite Hcolours in Hrun. cbn [Js.bind] in Hrun.
  set (test := cluable_and_touching rules card) in *.
  assert (Htest : forall clue, test clue = Ok true <->
            isCluable rules clue = Ok true /\ cardTouched card rules clue = Ok true).
  { intros clue. unfold test, cluable_and_touching.
    destruct (isCluable rules clue) as [[|]|m]; cbn [Js.bind]; split;
      first [intros [Hc _]; discriminate Hc | intros Ht; discriminate Ht
            | intros Ht; split; [reflexivity | exact Ht] | intros [_ Ht]; exact Ht]. }
  assert (Hrank_clue : forall clue, In clue (rank_clues target) <->
            type clue = RANK /\ VariantTouchJs.target clue = target /\ 1 <= value clue <= 5).
  { intros [ty v tg]. unfold rank_clues. cbn [type value VariantTouchJs.target]. split.
    - intros Hin. apply in_map_iff in Hin. destruct Hin as (r & Heq & Hr).
      injection Heq as <- <- <-. cbn [In] in Hr. repeat split; lia.
    - intros (-> & -> & Hv). apply in_map_iff. exists v. split; [reflexivity |].
      cbn [In]. lia. }
  destruct (match options with Some o => excludeRank o | None => false end).
  - cbn [Js.bind app] in Hrun. injection Hrun as <-. split; [|apply sublist_nil_l].
    intros clue. split; [intros [] | intros (_ & _ & _ & Hbad & _); discriminate Hbad].
  - fold (rank_clues target) in Hrun.
    destruct (filter_res test (rank_clues target)) as [ranks|m] eqn:Hr; [|discriminate Hrun].
    cbn [Js.bind app] in Hrun. injection Hrun as <-.
    split; [|exact (filter_res_sublist _ _ _ Hr)].
    intros clue. rewrite (filter_res_kept test _ ranks Hr), Htest, Hrank_clue. tauto.
Qed.

(** X13: For a card of an ordinary suit of the variant, of a rank from 1 to 5
    that has no special rule and that a rank clue may name, [direct_clues]
    without exclusions returns exactly one clue, the card's rank: the
    colour clue that touches the card is not among the clues returned. *)
Theorem direct_clues_ordinary (rules : Rules) (target : Z) (card : Identity) (suit : string) :
  at_ (suits (variant rules)) (suitIndex card) = Some suit ->
  ordinary suit = true ->
  plain_rank rules (rank card) = true ->
  1 <= rank card <= 5 ->
  isCluable rules (mkClue RANK (rank card) target) = Ok true ->
  cardTouched card rules (mkClue COLOUR (suitIndex card) target) = Ok true
  /\ direct_clues rules target card None = Ok [mkClue RANK (rank card) target].
Proof.
  intros Hsuit Hord Hplain Hrank Hcluable.
  assert (Htouch : forall clue, cardTouched card rules clue
                                = Ok (match type clue with
                                      | COLOUR => suitIndex card =? value clue
                                      | RANK => rank card =? value clue
                                      end))
    by (intros clue; own_suit_or_rank Hsuit Hord Hplain).
  split.
  { rewrite Htouch. cbn [type value]. rewrite Z.eqb_refl. reflexivity. }
  unfold direct_clues. rewrite colour_loop_empty. cbn [Js.bind].
  rewrite (filter_res_pure _ (fun c => rank card =? value c)).
  2:{ intros c Hin. apply in_map_iff in Hin. destruct Hin as (r & <- & Hr').
      unfold cluable_and_touching.
      rewrite Htouch. cbn [type value].
      destruct (Z.eqb_spec (rank card) r) as [<- | Hne].
      - rewrite Hcluable. reflexivity.
      - unfold isCluable. cbn [type Js.bind].
        destruct (match clueRanks rules with Some _ => _ | None => _ end); reflexivity. }
  cbn [Js.bind app].
  assert (Hcases : rank card = 1 \/ rank card = 2 \/ rank card = 3 \/ rank card = 4
                   \/ rank card = 5) by lia.
  destruct Hcases as [-> | [-> | [-> | [-> | ->]]]]; reflexivity.
Qed.

(** X14: For a card whose suit index is outside the variant (an unknown card has
    -1), [direct_clues] throws a TypeError as soon as rank clues are not
    excluded and some rank from 1 to 5 may be clued. *)
Theorem direct_clues_unknown_card (rules : Rules) (target : Z) (card : Identity)
    (options : option Options) (r : Z) :
  at_ (suits (variant rules)) (suitIndex card) = None ->
  (match options with Some o => excludeRank o | None => false end) = false ->
  1 <= r <= 5 ->
  isCluable rules (mkClue RANK r target) = Ok true ->
  direct_clues rules target card options = Throw TypeError.
Proof.
  intros Hsuit Hexclude Hr Hcluable. unfold direct_clues. rewrite Hexclude.
  assert (Htest : forall clue, cluable_and_touching rules card clue = Ok false
                               \/ cluable_and_touching rules card clue = Throw TypeError).
  { intros clue. unfold cluable_and_touching, isCluable, cardTouched, at_or_throw.
    rewrite Hsuit. destruct (type clue).
    - destruct (at_ (suits (variant rules)) (value clue)); cbn [Js.bind]; [|right; reflexivity].
      destruct (negb _); [right | left]; reflexivity.
    - cbn [Js.bind]. destruct (match clueRanks rules with Some _ => _ | None => _ end);
        [right | left]; reflexivity. }
  assert (Hranks : filter_res (cluable_and_touching rules card)
                     (List.map (fun rank => mkClue RANK rank target) [1; 2; 3; 4; 5])
                   = Throw TypeError).
  { apply (filter_res_throws _ _ _ (fun x _ => Htest x) (mkClue RANK r target)).
    - apply in_map_iff. exists r. split; [reflexivity |]. cbn [In]. lia.
    - unfold cluable_and_touching. rewrite Hcluable. cbn [Js.bind]. unfold cardTouched.
      rewrite Hsuit. reflexivity. }
  rewrite Hranks.
  destruct (match options with Some o => excludeColour o | None => false end);
    [reflexivity |].
  destruct (filter_res_only _ (List.map (fun s => mkClue COLOUR s target)
              (range_to (suits_length rules)))
              TypeError (fun x _ => Htest x)) as [Hc | Hc]; rewrite Hc; reflexivity.
Qed.

Definition no_variant : Rules :=
  mkRules (mkVariant ["Red"; "Yellow"; "Green"; "Blue"; "Purple"]%string None)
    None false false false false false false false None.

Definition rainbow_white : Rules :=
  mkRules (mkVariant ["Red"; "Blue"; "Rainbow"; "White"]%string None)
    None false false false false false false false None.

Lemma cardTouched_ordinary_witness :
  cardTouched (mkId 2 4) no_variant (mkClue COLOUR 2 1) = Ok true.
Proof.
  apply (cardTouched_ordinary no_variant (mkId 2 4) "Green" (mkClue COLOUR 2 1));
    reflexivity.
Defined.

Lemma direct_clues_exact_witness :
  (forall clue, In clue [mkClue RANK 3 1] <->
     (type clue = RANK /\ VariantTouchJs.target clue = 1 /\ 1 <= value clue <= 5
      /\ false = false
      /\ isCluable rainbow_white clue = Ok true
      /\ cardTouched (mkId 2 3) rainbow_white clue = Ok true))
  /\ sublist [mkClue RANK 3 1] (rank_clues 1).
Proof.
  apply (direct_clues_exact rainbow_white 1 (mkId 2 3) None). reflexivity.
Defined.

Lemma direct_clues_ordinary_witness :
  cardTouched (mkId 2 4) no_variant (mkClue COLOUR 2 1) = Ok true
  /\ direct_clues no_variant 1 (mkId 2 4) None = Ok [mkClue RANK 4 1].
Proof.
  apply (direct_clues_ordinary no_variant 1 (mkId 2 4) "Green");
    first [reflexivity | cbn; lia].
Defined.

Lemma direct_clues_unknown_card_witness :
  direct_clues no_variant 1 (mkId (-1) (-1)) None = Throw TypeError.
Proof.
  apply (direct_clues_unknown_card no_variant 1 (mkId (-1) (-1)) None 1);
    first [reflexivity | lia].
Defined.

End VariantTouchFacts.

(** ** More facts about Player.js *)
Module PlayerMore.
Import PlayerJs PlayerViewJs.

Section Loop.
Context `{CardApi}.
Variables (p : Player) (state : State) (linked : list Z).

(** A property of the loop variables that every iteration keeps holds when
    the loop ends. *)
Lemma fold_visit_invariant (P : Loop -> Prop) (os : list Z) :
  (forall o, In o os -> In o (hand_orders state)) ->
  (forall st o st', In o (hand_orders state) -> P st ->
                    visit p state linked st o = Ok st' -> P st') ->
  forall st st', P st ->
    fold_left (PlayerFacts.visit_next p state linked) os (Ok st) = Ok st' -> P st'.
Proof.
  intros Hos Hstep. induction os as [|o os IH]; intros st st' HP Hfold.
  - injection Hfold as <-. exact HP.
  - cbn [fold_left] in Hfold. unfold PlayerFacts.visit_next at 2 in Hfold.
    cbn [Js.bind] in Hfold.
    destruct (visit p state linked st o) as [st1|m] eqn:Hvisit.
    + apply (IH (fun o' Ho' => Hos o' (or_intror Ho')) st1 st'); [|exact Hfold].
      apply (Hstep st o st1); [apply Hos; left; reflexivity | exact HP | exact Hvisit].
    + rewrite PlayerFacts.fold_visit_throw in Hfold. discriminate Hfold.
Qed.

Lemma hypo_loop_invariant (P : Loop -> Prop) :
  (forall st, P st -> P (clear_found st)) ->
  (forall st o st', In o (hand_orders state) -> P st ->
                    visit p state linked st o = Ok st' -> P st') ->
  forall fuel st st', P st -> hypo_loop fuel p state linked st = Some (Ok st') -> P st'.
Proof.
  intros Hclear Hstep. induction fuel as [|fuel IH]; intros st st' HP Hrun;
    [discriminate Hrun |].
  cbn [hypo_loop] in Hrun.
  destruct (scan p state linked (clear_found st)) as [st1|m] eqn:Hscan;
    [|discriminate Hrun].
  assert (HP1 : P st1).
  { apply (fold_visit_invariant P (hand_orders state) (fun o Ho => Ho) Hstep
             (clear_found st) st1 (Hclear st HP)). exact Hscan. }
  destruct (found_new_playable st1).
  - exact (IH st1 st' HP1 Hrun).
  - injection Hrun as <-. exact HP1.
Qed.

(** What the player must think of a card for the loop to record it as an
    unknown play. *)
Definition plays_blind (o : Z) : Prop :=
  exists c, at_ (thoughts p) o = Some c /\ saved c = true /\ has linked o = false
            /\ identity c infer_true = None.

Lemma visit_plays (st st' : Loop) (o : Z) :
  visit p state linked st o = Ok st' ->
  forall x, In x (plays st') -> In x (plays st) \/ (x = o /\ plays_blind o).
Proof.
  unfold visit, at_or_throw. intros Hvisit x Hx.
  destruct (at_ (thoughts p) o) as [c|] eqn:Hc; [|discriminate Hvisit].
  cbn [Js.bind] in Hvisit.
  destruct (negb (saved c) || existsb (fun e => matches c e no_options) (good_touch_elim st)
            || has linked o) eqn:Hskip.
  { injection Hvisit as <-. left. exact Hx. }
  apply orb_false_iff in Hskip. destruct Hskip as [Hskip Hlinked].
  apply orb_false_iff in Hskip. destruct Hskip as [Hsaved _].
  apply negb_false_iff in Hsaved.
  destruct (playable_now p state st o c) as [[|]|m]; cbn [Js.bind] in Hvisit;
    [| injection Hvisit as <-; left; exact Hx | discriminate Hvisit].
  destruct (at_ (deck state) o) as [actual|]; [|discriminate Hvisit].
  cbn [Js.bind] in Hvisit.
  destruct (false_update p state st o (identity c infer_true) (identity actual no_options))
    as [[|]|m]; cbn [Js.bind] in Hvisit;
    [injection Hvisit as <-; left; exact Hx | | discriminate Hvisit].
  destruct (identity c infer_true) as [i|] eqn:Hid.
  - injection Hvisit as <-. left. unfold known_play in Hx.
    destruct (negb (next_rank st (base i))); exact Hx.
  - assert (Hadded : In x (add (plays st) o)).
    { unfold unknown_play in Hvisit.
      destruct (List.find _ (links p)) as [promised_link|];
        [|injection Hvisit as <-; exact Hx].
      destruct (forallb _ (cards promised_link)); [|injection Hvisit as <-; exact Hx].
      destruct (identities promised_link) as [|id0 rest]; [discriminate Hvisit |].
      destruct (negb (next_rank (record_play st o) id0)); injection Hvisit as <-; exact Hx. }
    apply PlayerFacts.In_add in Hadded. destruct Hadded as [-> | Hold]; [right | left; exact Hold].
    split; [reflexivity |]. exists c. repeat split; assumption.
Qed.

End Loop.

Section Calls.
Context `{CardApi}.

(** X15: Every unknown play that a call of [update_hypo_stacks] leaves is a card
    that the player thinks saved, that is not among the linked orders, and
    to which the player gives no identity. *)
Theorem unknown_plays_are_blind (state : State) (p p' : Player) (ws : list Warning)
    (fuel : nat) (linked : list Z) (o : Z) :
  update_hypo_stacks fuel p state = Some (Ok (p', ws)) ->
  linkedOrders p state = Ok linked ->
  In o (unknown_plays p') ->
  In o (hand_orders state) /\ plays_blind p linked o.
Proof.
  unfold update_hypo_stacks. intros Hrun Hlinked Ho. rewrite Hlinked in Hrun.
  destruct (hypo_loop fuel p state linked (mkLoop (play_stacks state) [] [] true []))
    as [[st|m]|] eqn:Hloop; try discriminate Hrun.
  injection Hrun as <- <-. cbn [with_hypo unknown_plays] in Ho.
  apply (hypo_loop_invariant p state linked
           (fun st => forall x, In x (plays st) ->
                                In x (hand_orders state) /\ plays_blind p linked x)
           (fun st HP => HP)) with (fuel := fuel) (st' := st)
           (st := mkLoop (play_stacks state) [] [] true []).
  - intros st0 o0 st1 Ho0 HP Hvisit x Hx.
    destruct (visit_plays p state linked st0 st1 o0 Hvisit x Hx) as [Hold | [-> Hblind]].
    + exact (HP x Hold).
    + split; assumption.
  - intros x [].
  - exact Hloop.
  - exact Ho.
Qed.

(** X16: When the player thinks no card of any hand saved (or all the cards they
    think saved are linked), one pass ends the loop: the hypothetical stacks
    are the play stacks, there is no unknown play and nothing is logged. *)
Theorem update_hypo_stacks_nothing_saved (state : State) (p : Player) (linked : list Z) :
  linkedOrders p state = Ok linked ->
  (forall o, In o (hand_orders state) ->
     exists c, at_ (thoughts p) o = Some c /\ (saved c = false \/ has linked o = true)) ->
  update_hypo_stacks 1 p state
  = Some (Ok (mkPlayer (playerIndex p) (all_possible p) (all_inferred p) (play_stacks state)
                (thoughts p) (links p) [] (waiting_connections p), [])).
Proof.
  intros Hlinked Hskip. unfold update_hypo_stacks. rewrite Hlinked. cbn [hypo_loop].
  assert (Hscan : forall st, scan p state linked st = Ok st).
  { intros st. unfold scan.
    assert (Hfold : forall os, (forall o, In o os -> In o (hand_orders state)) ->
              fold_left (fun acc order_ => let* s := acc in visit p state linked s order_)
                os (Ok st) = Ok st).
    { induction os as [|o os IH]; intros Hos; [reflexivity |].
      cbn [fold_left Js.bind].
      destruct (Hskip o (Hos o (or_introl eq_refl))) as (c & Hc & Hwhy).
      assert (Hvisit : visit p state linked st o = Ok st).
      { unfold visit, at_or_throw. rewrite Hc. cbn [Js.bind].
        destruct Hwhy as [-> | ->]; [reflexivity |]. rewrite orb_true_r. reflexivity. }
      rewrite Hvisit. apply IH. intros o' Ho'. apply Hos. right. exact Ho'. }
    apply Hfold. trivial. }
  rewrite Hscan. reflexivity.
Qed.

Lemma pointwise_sum (a : list Z) :
  forall b, length b = length a ->
  (forall s v, at_ a s = Some v -> exists v', at_ b s = Some v' /\ v <= v') ->
  forall x y, x <= y -> fold_left Z.add a x <= fold_left Z.add b y.
Proof.
  induction a as [|u a IH]; intros b Hlen Hpoint x y Hxy.
  - destruct b; [exact Hxy | discriminate Hlen].
  - destruct b as [|w b]; [discriminate Hlen |]. cbn [fold_left].
    apply IH.
    + cbn [length] in Hlen. lia.
    + intros s v Hs.
      assert (Hs0 : 0 <= s).
      { unfold at_ in Hs. destruct (0 <=? s) eqn:Hle; [apply Z.leb_le; exact Hle | discriminate Hs]. }
      destruct (Hpoint (s + 1) v) as (v' & Hv' & Hle).
      * unfold at_ in *. replace (0 <=? s) with true in Hs by (symmetry; apply Z.leb_le; lia).
        replace (0 <=? s + 1) with true by (symmetry; apply Z.leb_le; lia).
        replace (Z.to_nat (s + 1)) with (S (Z.to_nat s)) by lia. exact Hs.
      * exists v'. split; [|exact Hle].
        unfold at_ in *. replace (0 <=? s) with true by (symmetry; apply Z.leb_le; lia).
        replace (0 <=? s + 1) with true in Hv' by (symmetry; apply Z.leb_le; lia).
        replace (Z.to_nat (s + 1)) with (S (Z.to_nat s)) in Hv' by lia. exact Hv'.
    + destruct (Hpoint 0 u eq_refl) as (v' & Hv' & Hle). cbn in Hv'.
      injection Hv' as <-. lia.
Qed.

(** X17: After a call of [update_hypo_stacks] the hypothetical score is at least
    the sum of the play stacks; in a game without suits, reading it throws a
    TypeError. *)
Theorem hypo_score_after_update (state : State) (p p' : Player) (ws : list Warning)
    (fuel : nat) :
  update_hypo_stacks fuel p state = Some (Ok (p', ws)) ->
  match play_stacks state with
  | [] => hypo_score p' = Throw TypeError
  | first :: rest =>
      exists n, hypo_score p' = Ok n /\ fold_left Z.add rest first <= n
  end.
Proof.
  unfold update_hypo_stacks. intros Hrun.
  destruct (linkedOrders p state) as [linked|m]; [|discriminate Hrun].
  destruct (hypo_loop fuel p state linked (mkLoop (play_stacks state) [] [] true []))
    as [[st|m]|] eqn:Hloop; try discriminate Hrun.
  injection Hrun as <- <-.
  assert (Hgrows : PlayerFacts.grows state (PlayerFacts.start state) st).
  { apply (hypo_loop_invariant p state linked
             (fun st => PlayerFacts.grows state (PlayerFacts.start state) st))
      with (fuel := fuel) (st := PlayerFacts.start state).
    - intros st0 [Hl Hs Hp]. constructor; assumption.
    - intros st0 o st1 Ho HP Hvisit.
      apply (PlayerFacts.grows_trans state _ st0); [exact HP |].
      apply (PlayerFacts.effect_grows p state o st0 st1 Ho).
      exact (PlayerFacts.visit_effect_of_visit p state linked st0 st1 o Ho Hvisit).
    - apply PlayerFacts.grows_refl.
    - exact Hloop. }
  destruct Hgrows as [Hlen Hstacks _]. cbn [PlayerFacts.start stacks] in Hlen, Hstacks.
  unfold hypo_score. cbn [with_hypo hypo_stacks unknown_plays].
  destruct (play_stacks state) as [|first rest] eqn:Hplay.
  - destruct (stacks st); [reflexivity | discriminate Hlen].
  - destruct (stacks st) as [|h hs] eqn:Hst; [discriminate Hlen |].
    eexists. split; [reflexivity |].
    assert (Hsum : fold_left Z.add (first :: rest) 0 <= fold_left Z.add (h :: hs) 0).
    { apply pointwise_sum; [exact Hlen | exact Hstacks | lia]. }
    cbn [fold_left] in Hsum. rewrite !Z.add_0_l in Hsum. lia.
Qed.

End Calls.

Section Views.
Context `{CardApi} `{StateApi}.

Lemma every_res_all {A} (f : A -> Res bool) (l : list A) :
  every_res f l = Ok true -> forall x, In x l -> f x = Ok true.
Proof.
  induction l as [|a l IH]; intros Hall x Hin; [destruct Hin |].
  cbn [every_res] in Hall. destruct (f a) as [[|]|m] eqn:Hfa; cbn [Js.bind] in Hall;
    try discriminate Hall.
  destruct Hin as [<- | Hin]; [exact Hfa | exact (IH Hall x Hin)].
Qed.

Lemma some_res_none {A} (f : A -> Res bool) (l : list A) :
  (forall x, In x l -> f x = Ok false) -> some_res f l = Ok false.
Proof.
  induction l as [|a l IH]; intros Hall; [reflexivity |].
  cbn [some_res]. rewrite (Hall a (or_introl eq_refl)). cbn [Js.bind].
  apply IH. intros x Hx. apply Hall. right. exact Hx.
Qed.

Lemma some_res_false {A} (f : A -> Res bool) (l : list A) :
  some_res f l = Ok false -> forall x, In x l -> f x = Ok false.
Proof.
  induction l as [|a l IH]; intros Hrun x Hin; [destruct Hin |].
  cbn [some_res] in Hrun. destruct (f a) as [[|]|m] eqn:Hfa; cbn [Js.bind] in Hrun;
    try discriminate Hrun.
  destruct Hin as [<- | Hin]; [exact Hfa | exact (IH Hrun x Hin)].
Qed.

Lemma some_res_never {A} (f : A -> Res bool) (l : list A) (b : bool) :
  (forall x, In x l -> f x <> Ok true) -> some_res f l = Ok b -> b = false.
Proof.
  induction l as [|a l IH]; intros Hnever Hrun.
  - injection Hrun as <-. reflexivity.
  - cbn [some_res] in Hrun. destruct (f a) as [[|]|m] eqn:Hfa; cbn [Js.bind] in Hrun.
    + exfalso. exact (Hnever a (or_introl eq_refl) Hfa).
    + apply IH; [|exact Hrun]. intros x Hx. apply Hnever. right. exact Hx.
    + discriminate Hrun.
Qed.

(** X18: A player whose hand is empty is thought locked. *)
Theorem thinksLocked_empty_hand (p : Player) (state : State) (i : Z) (linked : list Z) :
  linkedOrders p state = Ok linked ->
  at_ (hands state) i = Some [] ->
  thinksLocked p state i = Ok true.
Proof.
  intros Hlinked Hhand.
  unfold thinksLocked, thinksLoaded, thinksPlayables, thinksTrash, at_or_throw.
  rewrite Hhand, Hlinked. reflexivity.
Qed.

(** X19: When a player is thought locked, every card of the hand is thought
    saved, and neither a playable card nor a trash card is known in it. *)
Theorem thinksLocked_nothing_known (p : Player) (state : State) (i : Z) :
  thinksLocked p state i = Ok true ->
  thinksPlayables p state i = Ok [] /\ thinksTrash p state i = Ok []
  /\ exists hand, at_ (hands state) i = Some hand
       /\ forall c, In c hand ->
            exists thought, at_ (thoughts p) (order c) = Some thought /\ saved thought = true.
Proof.
  unfold thinksLocked, thinksLoaded, at_or_throw. intros Hlocked.
  destruct (at_ (hands state) i) as [hand|] eqn:Hhand; [|discriminate Hlocked].
  cbn [Js.bind] in Hlocked.
  destruct (every_res _ hand) as [[|]|m] eqn:Hevery; cbn [Js.bind] in Hlocked;
    try discriminate Hlocked.
  destruct (thinksPlayables p state i) as [playables|m]; [|discriminate Hlocked].
  cbn [Js.bind] in Hlocked.
  destruct playables as [|c0 playables];
    [|cbn in Hlocked; discriminate Hlocked].
  cbn [length Z.of_nat Z.ltb Z.compare] in Hlocked.
  destruct (thinksTrash p state i) as [trash|m]; [|discriminate Hlocked].
  cbn [Js.bind] in Hlocked.
  destruct trash as [|c0 trash]; [|cbn in Hlocked; discriminate Hlocked].
  split; [reflexivity |]. split; [reflexivity |].
  exists hand. split; [reflexivity |]. intros c Hc.
  pose proof (every_res_all _ _ Hevery c Hc) as Hsaved. cbn beta in Hsaved.
  unfold at_or_throw in Hsaved.
  destruct (at_ (thoughts p) (order c)) as [thought|]; [|discriminate Hsaved].
  cbn [Js.bind] in Hsaved. injection Hsaved as Hsaved.
  exists thought. split; [reflexivity | exact Hsaved].
Qed.

(** X20: A card of the hand all of whose possibilities are basic trash is among
    the trash that [thinksTrash] returns; in particular a card without any
    possibility left is. *)
Theorem thinksTrash_basic (p : Player) (state : State) (i : Z) (hand trash : list Card)
    (c thought : Card) :
  thinksTrash p state i = Ok trash ->
  at_ (hands state) i = Some hand -> In c hand ->
  at_ (thoughts p) (order c) = Some thought ->
  (forall poss, In poss (possibilities thought) -> state_isBasicTrash state poss = true) ->
  In c trash.
Proof.
  unfold thinksTrash, at_or_throw. intros Hrun Hhand Hc Hthought Hall.
  rewrite Hhand in Hrun. cbn [Js.bind] in Hrun.
  apply (VariantTouchFacts.filter_res_kept _ _ _ Hrun c). split; [exact Hc |].
  destruct (VariantTouchFacts.filter_res_defined _ _ _ Hrun c Hc) as (b & Hb).
  rewrite Hb. rewrite Hthought in Hb. cbn [Js.bind] in Hb.
  rewrite some_res_none in Hb
    by (intros poss Hposs; rewrite (Hall poss Hposs); reflexivity).
  cbn [Js.bind negb] in Hb.
  destruct (map_res _ (possibilities thought)) as [logged|m]; [|discriminate Hb].
  cbn [Js.bind] in Hb. injection Hb as <-. reflexivity.
Qed.

(** X21: Nothing is visible elsewhere for a card that is part of a link: such a
    card is returned by [thinksTrash] only if all its possibilities are
    basic trash. *)
Theorem thinksTrash_linked_card (p : Player) (state : State) (i : Z) (trash : list Card)
    (c : Card) (link : Link) (lc : Card) :
  thinksTrash p state i = Ok trash ->
  In c trash ->
  In link (links p) -> In lc (cards link) -> order lc = order c ->
  exists thought, at_ (thoughts p) (order c) = Some thought
    /\ forall poss, In poss (possibilities thought) -> state_isBasicTrash state poss = true.
Proof.
  unfold thinksTrash, at_or_throw. intros Hrun Hc Hlink Hlc Horder.
  destruct (at_ (hands state) i) as [hand|]; [|discriminate Hrun]. cbn [Js.bind] in Hrun.
  apply (VariantTouchFacts.filter_res_kept _ _ _ Hrun c) in Hc. destruct Hc as [_ Htest].
  destruct (at_ (thoughts p) (order c)) as [thought|]; [|discriminate Htest].
  cbn [Js.bind] in Htest. exists thought. split; [reflexivity |].
  destruct (some_res _ (possibilities thought)) as [[|]|m] eqn:Hsome;
    cbn [Js.bind] in Htest; try discriminate Htest.
  intros poss Hposs. pose proof (some_res_false _ _ Hsome poss Hposs) as Hone.
  cbn beta in Hone.
  destruct (state_isBasicTrash state poss); [reflexivity |].
  destruct (visible_elsewhere p state poss (order c)) as [elsewhere|m] eqn:Hvis;
    [|discriminate Hone].
  cbn [Js.bind] in Hone. injection Hone as Hone. apply negb_false_iff in Hone. subst elsewhere.
  assert (Hlinked : existsb (fun l => existsb (fun x => order x =? order c) (cards l)) (links p)
                    = true).
  { apply existsb_exists. exists link. split; [exact Hlink |].
    apply existsb_exists. exists lc. split; [exact Hlc |]. apply Z.eqb_eq. exact Horder. }
  unfold visible_elsewhere in Hvis. apply some_res_never in Hvis; [discriminate Hvis |].
  intros x _. unfold at_or_throw. destruct (at_ (thoughts p) (order x)); [|discriminate].
  cbn [Js.bind]. rewrite Hlinked, andb_false_r. discriminate.
Qed.

(** X22: Every card that [thinksPlayables] returns is a card of the hand outside
    the linked orders, with at least one playable possibility, whose
    possibilities are all playable (or basic trash, if the card is chop
    moved), and that matches its inferences. *)
Theorem thinksPlayables_sound (p : Player) (state : State) (i : Z) (playables : list Card)
    (c : Card) :
  thinksPlayables p state i = Ok playables ->
  In c playables ->
  exists linked hand thought,
    linkedOrders p state = Ok linked /\ at_ (hands state) i = Some hand
    /\ In c hand /\ ~ In (order c) linked
    /\ at_ (thoughts p) (order c) = Some thought
    /\ (exists poss, In poss (possibilities thought) /\ isPlayable state poss = true)
    /\ (forall poss, In poss (possibilities thought) ->
          isPlayable state poss = true
          \/ (chop_moved thought = true /\ state_isBasicTrash state poss = true))
    /\ matches_inferences thought = true.
Proof.
  unfold thinksPlayables, at_or_throw. intros Hrun Hc.
  destruct (linkedOrders p state) as [linked|m]; [|discriminate Hrun]. cbn [Js.bind] in Hrun.
  destruct (at_ (hands state) i) as [hand|]; [|discriminate Hrun]. cbn [Js.bind] in Hrun.
  apply (VariantTouchFacts.filter_res_kept _ _ _ Hrun c) in Hc. destruct Hc as [Hin Htest].
  destruct (has linked (order c)) eqn:Hlinked; [discriminate Htest |].
  destruct (at_ (thoughts p) (order c)) as [thought|]; [|discriminate Htest].
  cbn [Js.bind] in Htest. injection Htest as Htest.
  apply andb_true_iff in Htest. destruct Htest as [Htest Hmatches].
  apply andb_true_iff in Htest. destruct Htest as [Hevery Hsome].
  exists linked, hand, thought. repeat (split; [reflexivity |]).
  split; [exact Hin |]. split.
  { intros Hbad. apply PlayerFacts.has_In in Hbad. congruence. }
  split; [reflexivity |]. split.
  { apply existsb_exists in Hsome. exact Hsome. }
  split; [|exact Hmatches].
  intros poss Hposs. rewrite forallb_forall in Hevery. specialize (Hevery poss Hposs).
  apply orb_true_iff in Hevery. destruct Hevery as [Hcm | Hplay]; [right | left; exact Hplay].
  destruct (chop_moved thought); [split; [reflexivity | exact Hcm] | discriminate Hcm].
Qed.

End Views.

Definition unsaved (o : Z) : Card :=
  mkCard (mkId (-1) (-1)) o true false false false false false false o []
    [PlayerFacts.Table.r1] [PlayerFacts.Table.r1].

(** A player who thinks no card of the table clued. *)
Definition stranger : Player := {|
  playerIndex := 1;
  all_possible := []; all_inferred := [];
  hypo_stacks := [3; 3; 3];
  thoughts := [unsaved 0; unsaved 1; unsaved 2];
  links := [];
  unknown_plays := [7];
  waiting_connections := [] |}.

Lemma unknown_plays_are_blind_witness :
  In 2 (hand_orders PlayerFacts.Table.table)
  /\ plays_blind (H := PlainCards.plain_api) PlayerFacts.Table.common [] 2.
Proof.
  apply (unknown_plays_are_blind (H := PlainCards.plain_api) PlayerFacts.Table.table
           PlayerFacts.Table.common PlayerFacts.Table.after_first
           PlayerFacts.Table.first_warnings 4 [] 2).
  - vm_compute. reflexivity.
  - reflexivity.
  - left. reflexivity.
Defined.

Lemma update_hypo_stacks_nothing_saved_witness :
  update_hypo_stacks (H := PlainCards.plain_api) 1 stranger PlayerFacts.Table.table
  = Some (Ok (mkPlayer 1 [] [] [0; 0; 0] [unsaved 0; unsaved 1; unsaved 2] [] [] [], [])).
Proof.
  apply (update_hypo_stacks_nothing_saved (H := PlainCards.plain_api)
           PlayerFacts.Table.table stranger []).
  - reflexivity.
  - intros o [<- | [<- | [<- | []]]]; eexists; (split; [reflexivity | left; reflexivity]).
Defined.

Lemma hypo_score_after_update_witness :
  exists n, hypo_score PlayerFacts.Table.after_first = Ok n /\ fold_left Z.add [0; 0] 0 <= n.
Proof.
  apply (hypo_score_after_update (H := PlainCards.plain_api) PlayerFacts.Table.table
           PlayerFacts.Table.common PlayerFacts.Table.after_first
           PlayerFacts.Table.first_warnings 4).
  vm_compute. reflexivity.
Defined.

(** For the examples, a possibility is playable when it is the next rank of
    its play stack. *)
#[local] Instance next_rank_playable : StateApi :=
  {| isPlayable := fun state c => neq (HanabiUtil.playableAway state (base c)) (Some 0) |}.

Definition r3 : Card := PlainCards.plain_card 0 3.

(** One player holds a clued red 3 that is neither playable nor trash. *)
Definition locked_table : State :=
  HanabiUtilMore.with_hands PlayerFacts.Table.table [[PlayerFacts.Table.held 0 3 0]].

Definition locked_view : Player :=
  mkPlayer (-1) [] [] [0; 0; 0] [PlayerFacts.Table.thought 0 [r3] [r3]] [] [] [].

(** The table once red 1 has been played, and a player who links the two
    red 1s still held. *)
Definition red_played : State := {|
  numPlayers := 2; ourPlayerIndex := 0;
  hands := hands PlayerFacts.Table.table;
  deck := deck PlayerFacts.Table.table;
  play_stacks := [1; 0; 0];
  discard_stacks := discard_stacks PlayerFacts.Table.table;
  max_ranks := [5; 5; 5];
  Basics.hypo_stacks := [[1; 0; 0]; [1; 0; 0]];
  state_suits := state_suits PlayerFacts.Table.table;
  score := 1; cardsLeft := 29; early_game := true; clue_tokens := 8 |}.

Definition linking : Player :=
  mkPlayer (-1) [] [] [1; 0; 0] (thoughts PlayerFacts.Table.common)
    [mkLink [PlayerFacts.Table.held 0 1 0; PlayerFacts.Table.held 0 1 1] [mkId 0 1] false]
    [] [].

Lemma thinksLocked_empty_hand_witness :
  thinksLocked (H := PlainCards.plain_api) PlayerFacts.Table.common
    (HanabiUtilMore.with_hands PlayerFacts.Table.table [[]; [PlayerFacts.Table.held 0 1 1]]) 0
  = Ok true.
Proof.
  apply (thinksLocked_empty_hand (H := PlainCards.plain_api) PlayerFacts.Table.common _ 0 []);
    reflexivity.
Defined.

Lemma thinksLocked_nothing_known_witness :
  thinksPlayables (H := PlainCards.plain_api) locked_view locked_table 0 = Ok []
  /\ thinksTrash (H := PlainCards.plain_api) locked_view locked_table 0 = Ok []
  /\ exists hand, at_ (hands locked_table) 0 = Some hand
       /\ forall c, In c hand ->
            exists thought, at_ (thoughts locked_view) (order c) = Some thought
                            /\ saved (CardApi := PlainCards.plain_api) thought = true.
Proof.
  apply (thinksLocked_nothing_known (H := PlainCards.plain_api) locked_view locked_table 0).
  vm_compute. reflexivity.
Defined.

Lemma thinksTrash_basic_witness :
  In (PlayerFacts.Table.held 0 1 1) [PlayerFacts.Table.held 0 1 1].
Proof.
  apply (thinksTrash_basic (H := PlainCards.plain_api) linking red_played 1
           [PlayerFacts.Table.held 0 1 1; PlayerFacts.Table.held 1 1 2]
           [PlayerFacts.Table.held 0 1 1] (PlayerFacts.Table.held 0 1 1)
           (PlayerFacts.Table.thought 1 [PlayerFacts.Table.r1; PlayerFacts.Table.y1]
              [PlayerFacts.Table.r1])).
  - vm_compute. reflexivity.
  - reflexivity.
  - left. reflexivity.
  - reflexivity.
  - intros poss [<- | []]. reflexivity.
Defined.

Lemma thinksTrash_linked_card_witness :
  exists thought, at_ (thoughts linking) 1 = Some thought
    /\ forall poss, In poss (possibilities (CardApi := PlainCards.plain_api) thought) ->
         state_isBasicTrash (CardApi := PlainCards.plain_api) red_played poss = true.
Proof.
  apply (thinksTrash_linked_card (H := PlainCards.plain_api) linking red_played 1
           [PlayerFacts.Table.held 0 1 1] (PlayerFacts.Table.held 0 1 1)
           (mkLink [PlayerFacts.Table.held 0 1 0; PlayerFacts.Table.held 0 1 1] [mkId 0 1] false)
           (PlayerFacts.Table.held 0 1 1)).
  - vm_compute. reflexivity.
  - left. reflexivity.
  - left. reflexivity.
  - right. left. reflexivity.
  - reflexivity.
Defined.

Lemma thinksPlayables_sound_witness :
  exists linked hand thought,
    linkedOrders (H := PlainCards.plain_api) PlayerFacts.Table.common PlayerFacts.Table.table
    = Ok linked
    /\ at_ (hands PlayerFacts.Table.table) 1 = Some hand
    /\ In (PlayerFacts.Table.held 1 1 2) hand
    /\ ~ In (order (PlayerFacts.Table.held 1 1 2)) linked
    /\ at_ (thoughts PlayerFacts.Table.common) (order (PlayerFacts.Table.held 1 1 2))
       = Some thought
    /\ (exists poss, In poss (possibilities (CardApi := PlainCards.plain_api) thought)
                     /\ isPlayable PlayerFacts.Table.table poss = true)
    /\ (forall poss, In poss (possibilities (CardApi := PlainCards.plain_api) thought) ->
          isPlayable PlayerFacts.Table.table poss = true
          \/ (chop_moved thought = true
              /\ state_isBasicTrash (CardApi := PlainCards.plain_api)
                   PlayerFacts.Table.table poss = true))
    /\ matches_inferences (CardApi := PlainCards.plain_api) thought = true.
Proof.
  apply (thinksPlayables_sound (H := PlainCards.plain_api) PlayerFacts.Table.common
           PlayerFacts.Table.table 1
           [PlayerFacts.Table.held 0 1 1; PlayerFacts.Table.held 1 1 2]).
  - vm_compute. reflexivity.
  - right. left. reflexivity.
Defined.

End PlayerMore.

(** ** More facts about focus-possible.js *)
Module FocusPossibleMore.
Import FocusPossibleJs.

Section Entries.
Context `{FocusApi}.

Lemma fold_res_throw {A B} (f : A -> B -> Res A) (l : list B) (m : string) :
  fold_left (fun acc x => let* a := acc in f a x) l (Throw m) = Throw m.
Proof. induction l as [|x l IH]; [reflexivity | exact IH]. Qed.

(** A property of the accumulator that every step keeps holds of the
    result of a loop that ends without an exception. *)
Lemma fold_res_invariant {A B} (P : A -> Prop) (R : B -> Prop) (f : A -> B -> Res A)
    (l : list B) :
  (forall a x a', P a -> R x -> f a x = Ok a' -> P a') ->
  (forall x, In x l -> R x) ->
  forall a a', P a -> fold_left (fun acc x => let* a := acc in f a x) l (Ok a) = Ok a' -> P a'.
Proof.
  intros Hstep. induction l as [|x l IH]; intros HR a a' HP Hfold.
  - injection Hfold as <-. exact HP.
  - cbn [fold_left Js.bind] in Hfold. destruct (f a x) as [a1|m] eqn:Hfx.
    + apply (IH (fun y Hy => HR y (or_intror Hy)) a1 a'); [|exact Hfold].
      exact (Hstep a x a1 HP (HR x (or_introl eq_refl)) Hfx).
    + rewrite fold_res_throw in Hfold. discriminate Hfold.
Qed.

(** Each connection found raises the stack rank by one. *)
Lemma rank_loop_counts (n : nat) (action : ClueAction) (s : Z) :
  forall st st', rank_loop n action s st = Ok st' ->
  rl_stack_rank st' - Z.of_nat (length (rl_connections st'))
  = rl_stack_rank st - Z.of_nat (length (rl_connections st)).
Proof.
  induction n as [|n IH]; intros st st' Hrun.
  - injection Hrun as <-. reflexivity.
  - cbn [rank_loop] in Hrun.
    destruct (find_connecting _ _ _ _ _ _) as [[connecting|]|m]; cbn [Js.bind] in Hrun.
    + rewrite (IH _ _ Hrun). cbn [rl_stack_rank rl_connections].
      rewrite length_app. cbn [length]. lia.
    + injection Hrun as <-. reflexivity.
    + discriminate Hrun.
Qed.

(** What [find_rank_focus] may propose for the suit [s] under a clue of rank
    [r]: a save without connections, or a play whose connections fill the
    ranks between the play stack and [r]. *)
Definition rank_entry (state : State) (r s : Z) (fp : FocusPossibility) : Prop :=
  fp_suitIndex fp = s /\ fp_rank fp = Some r
  /\ (save fp = true -> fp_connections fp = [])
  /\ (save fp = false ->
      exists stack, at_ (play_stacks state) s = Some stack
                    /\ stack + 1 + Z.of_nat (length (fp_connections fp)) = r).

Lemma rank_plays_entries (state : State) (r : Z) (action : ClueAction) (focused_card : Card)
    (s : Z) (plays : list FocusPossibility) :
  rank_plays state r action focused_card s = Ok plays ->
  forall fp, In fp plays -> rank_entry state r s fp.
Proof.
  unfold rank_plays. intros Hrun fp Hfp.
  destruct (at_ (play_stacks state) s) as [stack|] eqn:Hstack; cbn [nadd neq] in Hrun.
  - destruct (Z.eqb_spec r (stack + 1)) as [-> | Hne].
    + injection Hrun as <-. destruct Hfp as [<- | []].
      split; [reflexivity |]. split; [reflexivity |]. split; [discriminate |].
      intros _. exists stack. split; [exact Hstack |]. cbn. lia.
    + destruct (stack + 1 <? r); [|injection Hrun as <-; destruct Hfp].
      destruct (rank_loop _ action s _) as [st|m] eqn:Hloop; [|discriminate Hrun].
      cbn [Js.bind] in Hrun. injection Hrun as <-.
      pose proof (rank_loop_counts _ _ _ _ _ Hloop) as Hcount.
      cbn [rl_stack_rank rl_connections length] in Hcount.
      destruct (Z.eqb_spec r (rl_stack_rank st)) as [Heq | _]; [|destruct Hfp].
      destruct Hfp as [<- | []].
      split; [reflexivity |]. split; [reflexivity |]. split; [discriminate |].
      intros _. exists stack. split; [exact Hstack |]. cbn [play_possibility fp_connections]. lia.
  - injection Hrun as <-. destruct Hfp.
Qed.

Lemma rank_saves_entries (state : State) (r : Z) (action : ClueAction) (focused_card : Card)
    (s : Z) (saves : list FocusPossibility) :
  rank_saves state r action focused_card s = Ok saves ->
  forall fp, In fp saves -> fp = save_possibility s r.
Proof.
  unfold rank_saves. intros Hrun fp Hfp.
  destruct (playableAway state s r) as [away|m]; [|discriminate Hrun]. cbn [Js.bind] in Hrun.
  destruct (neq away (Some 0)); [injection Hrun as <-; destruct Hfp |].
  destruct (is_black state s && ((r =? 3) || (r =? 4))); [injection Hrun as <-; destruct Hfp |].
  destruct (if r =? 2 then _ else _) as [save2|m]; [|discriminate Hrun].
  cbn [Js.bind] in Hrun.
  destruct (isCritical state s r) as [critical|m]; [|discriminate Hrun].
  cbn [Js.bind] in Hrun. injection Hrun as <-.
  destruct (critical || save2); [|destruct Hfp].
  destruct Hfp as [<- | []]. reflexivity.
Qed.

(** X23: Every interpretation that [find_rank_focus] returns has the rank of the
    clue and a suit of the game; a save has no connection, and a play has
    exactly as many connections as there are ranks between the play stack of
    its suit and the clue's rank. *)
Theorem find_rank_focus_entries (state : State) (r : Z) (action : ClueAction)
    (found : list FocusPossibility) (fp : FocusPossibility) :
  find_rank_focus state r action = Ok found ->
  In fp found ->
  0 <= fp_suitIndex fp < Z.of_nat (length (suits (state_suits state)))
  /\ rank_entry state r (fp_suitIndex fp) fp.
Proof.
  unfold find_rank_focus. intros Hrun Hfp.
  destruct (at_or_throw (hands state) (target action)) as [hand|m]; [|discriminate Hrun].
  cbn [Js.bind] in Hrun.
  destruct (determine_focus hand (list_ action)) as [focus|m]; [|discriminate Hrun].
  cbn [Js.bind] in Hrun.
  set (n := Z.of_nat (length (suits (state_suits state)))) in *.
  revert fp Hfp.
  apply (fold_res_invariant
           (fun l => forall fp, In fp l -> 0 <= fp_suitIndex fp < n
                                          /\ rank_entry state r (fp_suitIndex fp) fp)
           (fun s => 0 <= s < n)
           (fun focus_possible s =>
              let* plays := rank_plays state r action (focused focus) s in
              if chop focus then
                let* saves := rank_saves state r action (focused focus) s in
                Ok (focus_possible ++ plays ++ saves)
              else Ok (focus_possible ++ plays))
           (range n)) with (a := []).
  - intros acc s acc' Hacc Hs Hstep fp Hfp.
    destruct (rank_plays state r action (focused focus) s) as [plays|m] eqn:Hplays;
      [|discriminate Hstep]. cbn [Js.bind] in Hstep.
    assert (Hplay : forall q, In q plays -> 0 <= fp_suitIndex q < n
                                            /\ rank_entry state r (fp_suitIndex q) q).
    { intros q Hq. pose proof (rank_plays_entries _ _ _ _ _ _ Hplays q Hq) as Hentry.
      destruct Hentry as [Hsuit Hrest]. rewrite Hsuit. split; [exact Hs |].
      split; [exact Hsuit | exact Hrest]. }
    destruct (chop focus).
    + destruct (rank_saves state r action (focused focus) s) as [saves|m] eqn:Hsaves;
        [|discriminate Hstep]. cbn [Js.bind] in Hstep. injection Hstep as <-.
      apply in_app_iff in Hfp. destruct Hfp as [Hold | Hnew]; [exact (Hacc fp Hold) |].
      apply in_app_iff in Hnew. destruct Hnew as [Hp | Hsv]; [exact (Hplay fp Hp) |].
      rewrite (rank_saves_entries _ _ _ _ _ _ Hsaves fp Hsv).
      cbn [save_possibility fp_suitIndex]. split; [exact Hs |].
      split; [reflexivity |]. split; [reflexivity |]. split; [reflexivity | discriminate].
    + injection Hstep as <-. apply in_app_iff in Hfp.
      destruct Hfp as [Hold | Hp]; [exact (Hacc fp Hold) | exact (Hplay fp Hp)].
  - intros s Hs. apply VariantTouchFacts.In_range_bounds. exact Hs.
  - intros fp [].
  - exact Hrun.
Qed.

(** The invariant of the loop of [find_colour_focus], started at the rank
    [start]: the next rank is [start] plus the number of connections made,
    and every play recorded so far has as many connections as its rank is
    above [start]. *)
Definition colour_invariant (s start : Z) (st : ColourLoop) : Prop :=
  cl_next_playable_rank st = start + Z.of_nat (length (cl_connections st))
  /\ forall fp, In fp (cl_focus_possible st) ->
       fp_suitIndex fp = s /\ save fp = false
       /\ fp_rank fp = Some (start + Z.of_nat (length (fp_connections fp))).

Lemma colour_loop_invariant (n : nat) (action : ClueAction) (s start : Z) (focused_card : Card) :
  forall st st', colour_invariant s start st ->
  colour_loop n action s focused_card st = Ok st' -> colour_invariant s start st'.
Proof.
  induction n as [|n IH]; intros st st' Hinv Hrun.
  - cbn [colour_loop] in Hrun. destruct (cl_connecting st); injection Hrun as <-; exact Hinv.
  - cbn [colour_loop] in Hrun.
    destruct (cl_connecting st) as [connecting|]; [|injection Hrun as <-; exact Hinv].
    destruct (_ && _ && _ && _); [injection Hrun as <-; exact Hinv |].
    destruct (find_connecting _ _ _ _ _ _) as [found|m]; [|discriminate Hrun].
    cbn [Js.bind] in Hrun. apply (IH _ _) in Hrun; [exact Hrun |].
    destruct Hinv as [Hnext Hplays]. split.
    + cbn [cl_next_playable_rank cl_connections]. rewrite length_app. cbn [length]. lia.
    + cbn [cl_focus_possible]. intros fp Hfp.
      destruct (String.eqb (conn_type connecting) "finesse"); [|exact (Hplays fp Hfp)].
      apply in_app_iff in Hfp. destruct Hfp as [Hold | [<- | []]]; [exact (Hplays fp Hold) |].
      cbn [play_possibility fp_suitIndex save fp_rank fp_connections].
      repeat split. rewrite Hnext. reflexivity.
Qed.

Lemma colour_saves_entries (state : State) (s : Z) (action : ClueAction) (hand : list Card)
    (next : Z) (saves : list FocusPossibility) :
  colour_saves state s action hand next = Ok saves ->
  forall fp, In fp saves -> exists r, next < r < 5 /\ fp = save_possibility s r.
Proof.
  unfold colour_saves. intros Hrun.
  apply (fold_res_invariant
           (fun l => forall fp, In fp l -> exists r, next < r < 5 /\ fp = save_possibility s r)
           (fun r => next < r < 5)
           (fun saves r =>
              if is_black state s && ((r =? 2) || (r =? 5)) && (fill_ins hand (list_ action) <? 2)
              then Ok saves
              else
                let* critical := isCritical state s r in
                Ok (if critical then saves ++ [save_possibility s r] else saves))
           (ranks_above next)) with (a := []).
  - intros acc r acc' Hacc Hr Hstep fp Hfp.
    destruct (_ && _ && _); [injection Hstep as <-; exact (Hacc fp Hfp) |].
    destruct (isCritical state s r) as [[|]|m]; cbn [Js.bind] in Hstep;
      [| injection Hstep as <-; exact (Hacc fp Hfp) | discriminate Hstep].
    injection Hstep as <-. apply in_app_iff in Hfp.
    destruct Hfp as [Hold | [<- | []]]; [exact (Hacc fp Hold) |].
    exists r. split; [exact Hr | reflexivity].
  - intros r Hr. unfold ranks_above in Hr. apply in_map_iff in Hr.
    destruct Hr as (k & <- & Hk). apply VariantTouchFacts.In_range_bounds in Hk. lia.
  - intros fp [].
  - exact Hrun.
Qed.

(** X24: [find_colour_focus] always proposes at least one interpretation, all of
    them of the suit asked for. A play has as many connections as its rank
    is above the next playable rank of the suit; a save has none, and its
    rank lies strictly between the next playable rank and 5. *)
Theorem find_colour_focus_entries (state : State) (s : Z) (action : ClueAction)
    (found : list FocusPossibility) :
  find_colour_focus state s action = Ok found ->
  found <> []
  /\ forall fp, In fp found ->
       fp_suitIndex fp = s
       /\ (save fp = false ->
           fp_rank fp = nadd (nadd (at_ (play_stacks state) s) (Some 1))
                          (Some (Z.of_nat (length (fp_connections fp)))))
       /\ (save fp = true ->
           fp_connections fp = []
           /\ exists stack r, at_ (play_stacks state) s = Some stack
                              /\ fp_rank fp = Some r /\ stack + 1 < r < 5).
Proof.
  unfold find_colour_focus. intros Hrun.
  destruct (at_or_throw (hands state) (target action)) as [hand|m]; [|discriminate Hrun].
  cbn [Js.bind] in Hrun.
  destruct (determine_focus hand (list_ action)) as [focus|m]; [|discriminate Hrun].
  cbn [Js.bind] in Hrun.
  destruct (find_connecting state _ _ s _ _) as [connecting|m]; [|discriminate Hrun].
  cbn [Js.bind] in Hrun.
  destruct (at_ (play_stacks state) s) as [stack|]; cbn [nadd] in Hrun |- *.
  2:{ injection Hrun as <-. split; [discriminate |]. intros fp [<- | []].
      repeat split; discriminate. }
  destruct (colour_loop _ action s (focused focus) _) as [st|m] eqn:Hloop;
    [|discriminate Hrun].
  cbn [Js.bind] in Hrun.
  assert (Hinv : colour_invariant s (stack + 1) st).
  { apply (colour_loop_invariant _ _ _ _ _ _ _) with (2 := Hloop).
    split; [cbn; lia | intros fp []]. }
  destruct Hinv as [Hnext Hplays].
  assert (Hfront : forall fp,
            In fp (cl_focus_possible st
                   ++ [play_possibility s (Some (cl_next_playable_rank st)) (cl_connections st)]) ->
            fp_suitIndex fp = s /\ save fp = false
            /\ fp_rank fp = Some (stack + 1 + Z.of_nat (length (fp_connections fp)))).
  { intros fp Hfp. apply in_app_iff in Hfp.
    destruct Hfp as [Hold | [<- | []]]; [exact (Hplays fp Hold) |].
    cbn [play_possibility fp_suitIndex save fp_rank fp_connections].
    repeat split. rewrite Hnext. reflexivity. }
  assert (Hplay : forall fp,
            fp_suitIndex fp = s /\ save fp = false
            /\ fp_rank fp = Some (stack + 1 + Z.of_nat (length (fp_connections fp))) ->
            fp_suitIndex fp = s
            /\ (save fp = false ->
                fp_rank fp = Some (stack + 1 + Z.of_nat (length (fp_connections fp))))
            /\ (save fp = true ->
                fp_connections fp = []
                /\ exists stack0 r, Some stack = Some stack0
                                    /\ fp_rank fp = Some r /\ stack0 + 1 < r < 5)).
  { intros fp (Hs & Hsave & Hr). split; [exact Hs |]. split; [intros _; exact Hr |].
    intros Hbad. congruence. }
  destruct (chop focus).
  - destruct (colour_saves state s action hand (cl_next_playable_rank st)) as [saves|m] eqn:Hsaves;
      [|discriminate Hrun].
    cbn [Js.bind] in Hrun. injection Hrun as <-. split.
    + intros Hnil. apply app_eq_nil in Hnil. destruct Hnil as [Hnil _].
      apply app_eq_nil in Hnil. destruct Hnil as [_ Hnil]. discriminate Hnil.
    + intros fp Hfp. apply in_app_iff in Hfp. destruct Hfp as [Hfp | Hfp].
      * exact (Hplay fp (Hfront fp Hfp)).
      * destruct (colour_saves_entries _ _ _ _ _ _ Hsaves fp Hfp) as (r & Hr & ->).
        cbn [save_possibility fp_suitIndex save fp_rank fp_connections].
        split; [reflexivity |]. split; [discriminate |]. intros _. split; [reflexivity |].
        exists stack, r. split; [reflexivity |]. split; [reflexivity |]. lia.
  - injection Hrun as <-. split.
    + intros Hnil. apply app_eq_nil in Hnil. destruct Hnil as [_ Hnil]. discriminate Hnil.
    + intros fp Hfp. exact (Hplay fp (Hfront fp Hfp)).
Qed.

End Entries.

Definition through_bob : FocusPossibility :=
  play_possibility 0 (Some 2)
    [mkConnection "known" 1 FocusPossibleFacts.RankTwo.bobs_red_one [mkId 0 1] false].

Definition red_clue : ClueAction := mkClueAction 1 0 [3] (mkBaseClue COLOUR 0).

Lemma find_rank_focus_entries_witness :
  0 <= fp_suitIndex through_bob
    < Z.of_nat (length (suits (state_suits FocusPossibleFacts.RankTwo.table)))
  /\ rank_entry FocusPossibleFacts.RankTwo.table 2 (fp_suitIndex through_bob) through_bob.
Proof.
  apply (find_rank_focus_entries (H := FocusPossibleFacts.RankTwo.api)
           FocusPossibleFacts.RankTwo.table 2 FocusPossibleFacts.RankTwo.two_clue
           [through_bob; save_possibility 0 2] through_bob).
  - vm_compute. reflexivity.
  - left. reflexivity.
Defined.

Lemma find_colour_focus_entries_witness :
  [through_bob] <> []
  /\ forall fp, In fp [through_bob] ->
       fp_suitIndex fp = 0
       /\ (save fp = false ->
           fp_rank fp = nadd (nadd (at_ (play_stacks FocusPossibleFacts.RankTwo.table) 0)
                                (Some 1))
                          (Some (Z.of_nat (length (fp_connections fp)))))
       /\ (save fp = true ->
           fp_connections fp = []
           /\ exists stack r, at_ (play_stacks FocusPossibleFacts.RankTwo.table) 0 = Some stack
                              /\ fp_rank fp = Some r /\ stack + 1 < r < 5).
Proof.
  apply (find_colour_focus_entries (H := FocusPossibleFacts.RankTwo.api)
           FocusPossibleFacts.RankTwo.table 0 red_clue [through_bob]).
  vm_compute. reflexivity.
Defined.

End FocusPossibleMore.

(** ** More facts about interpret-discard.js *)
Module InterpretDiscardMore.
Import PlayerJs InterpretDiscardJs.

(** The remaining chain of the waiting connection holds the discarded
    order. *)
Definition holds (action : DiscardAction) (wc : WaitingConnection) : bool :=
  negb (dc_conn_index wc (da_order action) =? -1).

(** The indexes, counted from [i], of the waiting connections that hold the
    discarded order. *)
Fixpoint holder_indexes (action : DiscardAction) (i : Z) (wcs : list WaitingConnection)
    : list Z :=
  match wcs with
  | [] => []
  | wc :: rest =>
      if holds action wc then i :: holder_indexes action (i + 1) rest
      else holder_indexes action (i + 1) rest
  end.

Lemma holder_indexes_from (action : DiscardAction) (wcs : list WaitingConnection) :
  forall i j, In j (holder_indexes action i wcs) -> i <= j.
Proof.
  induction wcs as [|wc rest IH]; intros i j Hj; [destruct Hj |].
  cbn [holder_indexes] in Hj. destruct (holds action wc).
  - destruct Hj as [<- | Hj]; [lia | specialize (IH _ _ Hj); lia].
  - specialize (IH _ _ Hj). lia.
Qed.

(** Removing the indexes of the holders keeps the waiting connections that
    do not hold the discarded order. *)
Lemma filter_holders (action : DiscardAction) (wcs : list WaitingConnection) :
  forall i to_remove,
    (forall j, i <= j -> (has to_remove j = true <-> In j (holder_indexes action i wcs))) ->
    filter_from i (fun index _ => negb (has to_remove index)) wcs
    = List.filter (fun wc => negb (holds action wc)) wcs.
Proof.
  induction wcs as [|wc rest IH]; intros i to_remove Hmember; [reflexivity |].
  cbn [filter_from List.filter].
  assert (Hhere : has to_remove i = holds action wc).
  { specialize (Hmember i (Z.le_refl i)). cbn [holder_indexes] in Hmember.
    destruct (holds action wc).
    - apply Hmember. left. reflexivity.
    - destruct (has to_remove i); [|reflexivity].
      destruct Hmember as [Hin _]. specialize (Hin eq_refl).
      apply holder_indexes_from in Hin. lia. }
  assert (Hrest : filter_from (i + 1) (fun index _ => negb (has to_remove index)) rest
                  = List.filter (fun wc => negb (holds action wc)) rest).
  { apply IH. intros j Hj. rewrite (Hmember j) by lia. cbn [holder_indexes].
    destruct (holds action wc); [|reflexivity].
    split; [intros [Heq | Hin]; [lia | exact Hin] | intros Hin; right; exact Hin]. }
  rewrite Hhere, Hrest. reflexivity.
Qed.

Section Outcomes.
Context `{CardApi} `{DiscardApi}.

(** How one iteration of the loop ends. *)
Lemma scan_connection_cases (g : Game) (action : DiscardAction) (to_remove : list Z) (i : Z)
    (wc : WaitingConnection) (r : Scan) :
  scan_connection g action to_remove i wc = Ok r ->
  (r = Cancelled (to_remove ++ (if holds action wc then [i] else [])))
  \/ (holds action wc = true
      /\ ((exists g', r = Returned (Rewritten g') /\ failed action = false)
          \/ exists g', r = Returned (Rewound g' (action_index wc)
                                        (Ignore (real_connects wc
                                                   (dc_conn_index wc (da_order action)))
                                           (da_order action)) None))).
Proof.
  unfold scan_connection, holds. intros Hrun.
  destruct (dc_conn_index wc (da_order action) =? -1).
  { injection Hrun as <-. left. rewrite app_nil_r. reflexivity. }
  cbn [negb].
  destruct (at_or_throw (connections wc) _) as [conn|m]; [|discriminate Hrun].
  cbn [Js.bind] in Hrun.
  destruct (others_wait _ _ _); [injection Hrun as <-; left; reflexivity |].
  right. split; [reflexivity |].
  destruct (maybe_sarcastic (state g) action (card conn)) eqn:Hsarcastic.
  - destruct (interpret_sarcastic g action) as [[found g']|m]; [|discriminate Hrun].
    cbn [Js.bind] in Hrun.
    destruct found as [|sarcastic [|another more]]; injection Hrun as <-;
      try (right; exists g'; reflexivity).
    left. eexists. split; [reflexivity |].
    unfold maybe_sarcastic in Hsarcastic. apply andb_true_iff in Hsarcastic.
    destruct Hsarcastic as [_ Hfailed]. apply negb_true_iff in Hfailed. exact Hfailed.
  - injection Hrun as <-. right. exists g. reflexivity.
Qed.

Lemma scan_connections_cases (g : Game) (action : DiscardAction)
    (wcs : list WaitingConnection) :
  forall to_remove i r,
    scan_connections g action to_remove i wcs = Ok r ->
    (r = Cancelled (to_remove ++ holder_indexes action i wcs))
    \/ exists wc, In wc wcs /\ holds action wc = true
         /\ ((exists g', r = Returned (Rewritten g') /\ failed action = false)
             \/ exists g', r = Returned (Rewound g' (action_index wc)
                                           (Ignore (real_connects wc
                                                      (dc_conn_index wc (da_order action)))
                                              (da_order action)) None)).
Proof.
  induction wcs as [|wc rest IH]; intros to_remove i r Hrun.
  - injection Hrun as <-. left. rewrite app_nil_r. reflexivity.
  - cbn [scan_connections] in Hrun.
    destruct (scan_connection g action to_remove i wc) as [r1|m] eqn:Hone;
      [|discriminate Hrun].
    cbn [Js.bind] in Hrun.
    destruct (scan_connection_cases _ _ _ _ _ _ Hone) as [-> | [Hholds Hreturned]].
    + destruct (IH _ _ _ Hrun) as [-> | (wc' & Hin & Hrest)].
      * left. cbn [holder_indexes]. destruct (holds action wc).
        -- rewrite <- app_assoc. reflexivity.
        -- rewrite app_nil_r. reflexivity.
      * right. exists wc'. split; [right; exact Hin | exact Hrest].
    + right. exists wc. split; [left; reflexivity |]. split; [exact Hholds |].
      destruct Hreturned as [(g' & -> & Hfailed) | (g' & ->)]; injection Hrun as <-.
      * left. exists g'. split; [reflexivity | exact Hfailed].
      * right. exists g'. reflexivity.
Qed.

(** The game once the waiting connections that hold the discarded order
    have been cancelled. *)
Definition cancel_holders (g : Game) (action : DiscardAction) : Game :=
  with_common g
    (with_waiting_connections (common g)
       (List.filter (fun wc => negb (holds action wc)) (waiting_connections (common g)))).

Lemma cancel_nothing (g : Game) (action : DiscardAction) :
  holder_indexes action 0 (waiting_connections (common g)) = [] ->
  cancel_holders g action = g.
Proof.
  intros Hnone. unfold cancel_holders.
  rewrite <- (filter_holders action (waiting_connections (common g)) 0 []).
  - assert (Hall : forall (l : list WaitingConnection) i,
              filter_from i (fun index _ => negb (has [] index)) l = l).
    { induction l as [|x l IH]; intros i; [reflexivity |]. cbn [filter_from has existsb negb].
      rewrite IH. reflexivity. }
    rewrite Hall. destruct g as [[] st m]. reflexivity.
  - intros j _. rewrite Hnone. cbn. split; [discriminate | intros []].
Qed.

(** X25: A bombed card is identified: when the discard failed, the loop over the
    waiting connections ended without returning, and the thoughts about the
    card were not rewinded, the game is rewound to the turn the card was
    drawn with an identify override that repeats the action, after the
    waiting connections that hold the card, and only those, were cancelled. *)
Theorem bombed_card_is_identified (game g : Game) (action : DiscardAction) (c : Card)
    (to_remove : list Z) (thought : Card) :
  onDiscard game action = Ok g ->
  scan_connections g action [] 0 (waiting_connections (common g)) = Ok (Cancelled to_remove) ->
  failed action = true ->
  at_ (thoughts (common g)) (da_order action) = Some thought ->
  rewinded thought = false ->
  interpret_discard game action c
  = Ok (Rewound (cancel_holders g action) (drawn_index c)
          (Identify (da_order action) (da_playerIndex action) (da_suitIndex action)
             (da_rank action))
          (Some (finessed thought))).
Proof.
  intros Hon Hscan Hfailed Hthought Hrewinded.
  unfold interpret_discard. rewrite Hon. cbn [Js.bind]. rewrite Hscan. cbn [Js.bind].
  destruct (scan_connections_cases _ _ _ _ _ _ Hscan) as [Heq | (wc & _ & _ & Hret)].
  2:{ destruct Hret as [(g' & Hbad & _) | (g' & Hbad)]; discriminate Hbad. }
  injection Heq as ->. cbn [app].
  unfold after_scan. rewrite Hfailed. cbn [negb andb]. rewrite andb_false_r.
  assert (Hgame : (if 0 <? Z.of_nat (length (holder_indexes action 0
                                               (waiting_connections (common g))))
                   then with_common g
                          (with_waiting_connections (common g)
                             (filter_from 0
                                (fun index _ =>
                                   negb (has (holder_indexes action 0
                                                (waiting_connections (common g))) index))
                                (waiting_connections (common g))))
                   else g) = cancel_holders g action).
  { destruct (holder_indexes action 0 (waiting_connections (common g))) as [|j js] eqn:Hidx.
    - cbn [length Z.of_nat Z.ltb Z.compare]. symmetry. apply cancel_nothing. exact Hidx.
    - replace (0 <? Z.of_nat (length (j :: js))) with true
        by (symmetry; apply Z.ltb_lt; cbn [length]; lia).
      unfold cancel_holders. rewrite <- Hidx.
      rewrite (filter_holders action (waiting_connections (common g)) 0
                 (holder_indexes action 0 (waiting_connections (common g)))); [reflexivity |].
      intros k _. apply PlayerFacts.has_In. }
  rewrite Hgame. unfold at_or_throw. cbn [andb].
  replace (thoughts (common (cancel_holders g action))) with (thoughts (common g))
    by reflexivity.
  rewrite Hthought. cbn [Js.bind]. rewrite Hrewinded. cbn [Js.bind]. reflexivity.
Qed.

(** X26: Every way a call of [interpret_discard] can end. A connection is
    rewritten only after a discard that did not fail; a rewind that ignores
    a connection names the discarded order and the action index of a waiting
    connection that holds it; a rewind that identifies the card goes to the
    turn the card was drawn and repeats the action. *)
Theorem interpret_discard_outcomes (game g : Game) (action : DiscardAction) (c : Card)
    (o : Outcome) :
  onDiscard game action = Ok g ->
  interpret_discard game action c = Ok o ->
  match o with
  | Rewritten _ =>
      failed action = false
      /\ exists wc, In wc (waiting_connections (common g)) /\ holds action wc = true
  | Rewound _ index (Ignore n order_) fin =>
      order_ = da_order action /\ fin = None
      /\ exists wc, In wc (waiting_connections (common g)) /\ holds action wc = true
           /\ index = action_index wc
           /\ n = real_connects wc (dc_conn_index wc (da_order action))
  | Rewound g' index (Identify order_ player_ suit_ rank_) fin =>
      g' = (if early_game (state g) && negb (failed action) && negb (clued c)
            then mkGame (common (cancel_holders g action))
                   (with_early_game (state g) false) (me g)
            else cancel_holders g action)
      /\ index = drawn_index c
      /\ (order_, player_, suit_, rank_)
         = (da_order action, da_playerIndex action, da_suitIndex action, da_rank action)
      /\ exists thought, at_ (thoughts (common g)) (da_order action) = Some thought
           /\ rewinded thought = false /\ fin = Some (finessed thought)
  | Interpreted _ =>
      exists thought, at_ (thoughts (common g)) (da_order action) = Some thought
        /\ (rewinded thought = true \/ failed action = false)
  end.
Proof.
  intros Hon Hrun. unfold interpret_discard in Hrun. rewrite Hon in Hrun.
  cbn [Js.bind] in Hrun.
  destruct (scan_connections g action [] 0 (waiting_connections (common g))) as [r|m] eqn:Hscan;
    [|discriminate Hrun].
  cbn [Js.bind] in Hrun.
  destruct (scan_connections_cases _ _ _ _ _ _ Hscan) as [-> | (wc & Hin & Hholds & Hret)].
  2:{ destruct Hret as [(g' & -> & Hfailed) | (g' & ->)]; injection Hrun as <-.
      - split; [exact Hfailed |]. exists wc. split; assumption.
      - split; [reflexivity |]. split; [reflexivity |]. exists wc.
        repeat (split; [assumption || reflexivity |]). reflexivity. }
  cbn [app] in Hrun. unfold after_scan in Hrun.
  assert (Hgame : (if 0 <? Z.of_nat (length (holder_indexes action 0
                                               (waiting_connections (common g))))
                   then with_common g
                          (with_waiting_connections (common g)
                             (filter_from 0
                                (fun index _ =>
                                   negb (has (holder_indexes action 0
                                                (waiting_connections (common g))) index))
                                (waiting_connections (common g))))
                   else g) = cancel_holders g action).
  { destruct (holder_indexes action 0 (waiting_connections (common g))) as [|j js] eqn:Hidx.
    - cbn [length Z.of_nat Z.ltb Z.compare]. symmetry. apply cancel_nothing. exact Hidx.
    - replace (0 <? Z.of_nat (length (j :: js))) with true
        by (symmetry; apply Z.ltb_lt; cbn [length]; lia).
      unfold cancel_holders. rewrite <- Hidx.
      rewrite (filter_holders action (waiting_connections (common g)) 0
                 (holder_indexes action 0 (waiting_connections (common g)))); [reflexivity |].
      intros k _. apply PlayerFacts.has_In. }
  rewrite Hgame in Hrun.
  replace (state (cancel_holders g action)) with (state g) in Hrun by reflexivity.
  replace (me (cancel_holders g action)) with (me g) in Hrun by reflexivity.
  set (g2 := if early_game (state g) && negb (failed action) && negb (clued c)
             then mkGame (common (cancel_holders g action))
                    (with_early_game (state g) false) (me g)
             else cancel_holders g action) in *.
  assert (Hthoughts : thoughts (common g2) = thoughts (common g)).
  { unfold g2. destruct (_ && _ && _); reflexivity. }
  unfold at_or_throw in Hrun. rewrite Hthoughts in Hrun.
  destruct (at_ (thoughts (common g)) (da_order action)) as [thought|]; [|discriminate Hrun].
  cbn [Js.bind] in Hrun.
  destruct (rewinded thought) eqn:Hrewinded.
  - cbn [Js.bind] in Hrun.
    destruct (if clued c && _ && _ then _ else _) as [g3|m]; [|discriminate Hrun].
    cbn [Js.bind] in Hrun. destruct (team_elim g3) as [g4|m]; [|discriminate Hrun].
    cbn [Js.bind] in Hrun. injection Hrun as <-.
    exists thought. split; [reflexivity | left; exact Hrewinded].
  - destruct (failed action) eqn:Hfailed.
    + cbn [Js.bind] in Hrun. injection Hrun as <-.
      split; [reflexivity |]. split; [reflexivity |]. split; [reflexivity |].
      exists thought. repeat split; assumption || reflexivity.
    + destruct (if matches_inferences thought then _ else _) as [[|]|m];
        cbn [Js.bind] in Hrun; [| | discriminate Hrun].
      * injection Hrun as <-.
        split; [reflexivity |]. split; [reflexivity |]. split; [reflexivity |].
        exists thought. repeat split; assumption || reflexivity.
      * destruct (if clued c && _ && _ then _ else _) as [g3|m]; [|discriminate Hrun].
        cbn [Js.bind] in Hrun. destruct (team_elim g3) as [g4|m]; [|discriminate Hrun].
        cbn [Js.bind] in Hrun. injection Hrun as <-.
        exists thought. split; [reflexivity | right; reflexivity].
Qed.

End Outcomes.

(** Two waiting connections of the same clue: only the first goes through
    the card of order 5, which is then bombed. *)
Definition through_three : WaitingConnection :=
  mkWaitingConnection [InterpretDiscardFacts.TwoConnections.through_red_three "finesse"]
    0 2 0 (InterpretDiscardFacts.TwoConnections.focus_card 8) (mkId 0 4) 10 false.

Definition beside_three : WaitingConnection :=
  mkWaitingConnection [InterpretDiscardFacts.TwoConnections.through_red_four]
    0 2 0 (InterpretDiscardFacts.TwoConnections.focus_card 9) (mkId 0 5) 10 false.

Definition watchers : Player := {|
  playerIndex := -1;
  all_possible := []; all_inferred := [];
  hypo_stacks := [2];
  thoughts := List.map InterpretDiscardFacts.TwoConnections.focus_card [0; 1; 2; 3; 4; 5];
  links := [];
  unknown_plays := [];
  waiting_connections := [through_three; beside_three] |}.

Definition bomb_game : Game :=
  mkGame watchers InterpretDiscardFacts.TwoConnections.table watchers.

Definition bomb : DiscardAction := mkDiscardAction 5 1 0 3 true.

Lemma bombed_card_is_identified_witness :
  interpret_discard (H := PlainCards.plain_api)
    (H0 := InterpretDiscardFacts.TwoConnections.quiet)
    bomb_game bomb InterpretDiscardFacts.TwoConnections.discarded
  = Ok (Rewound (cancel_holders bomb_game bomb) 5 (Identify 5 1 0 3) (Some false)).
Proof.
  apply (bombed_card_is_identified (H := PlainCards.plain_api)
           (H0 := InterpretDiscardFacts.TwoConnections.quiet)
           bomb_game bomb_game bomb InterpretDiscardFacts.TwoConnections.discarded [0]
           (InterpretDiscardFacts.TwoConnections.focus_card 5));
    reflexivity.
Defined.

Lemma interpret_discard_outcomes_witness :
  5 = da_order InterpretDiscardFacts.TwoConnections.discard /\ None = (None : option bool)
  /\ exists wc,
       In wc (waiting_connections (common InterpretDiscardFacts.TwoConnections.game))
       /\ holds InterpretDiscardFacts.TwoConnections.discard wc = true
       /\ 10 = action_index wc
       /\ 0 = real_connects wc
                (dc_conn_index wc (da_order InterpretDiscardFacts.TwoConnections.discard)).
Proof.
  exact (interpret_discard_outcomes (H := PlainCards.plain_api)
           (H0 := InterpretDiscardFacts.TwoConnections.quiet)
           InterpretDiscardFacts.TwoConnections.game InterpretDiscardFacts.TwoConnections.game
           InterpretDiscardFacts.TwoConnections.discard
           InterpretDiscardFacts.TwoConnections.discarded
           (Rewound InterpretDiscardFacts.TwoConnections.game 10 (Ignore 0 5) None)
           eq_refl eq_refl).
Defined.

End InterpretDiscardMore.

(** ** More facts about determine-clue.js *)
Module DetermineClueMore.
Import PlayerJs DetermineClueJs.

Section Candidates.
Context `{CardApi} `{ClueApi}.

(** What the loop of [determine_clue] has checked of a clue before it
    records it with the result [r]: the clue focuses the target card, it is
    safe unless a save is asked for, and its remainder counts only when the
    focus is on chop and the clue is unsafe or at most two clue tokens are
    left. *)
Definition checked (game : Game) (target_ : Z) (target_card : Card)
    (options : option ClueOptions) (c : Clue) (r : ClueResult) : Prop :=
  exists hand focus opts,
    at_ (hands (state game)) target_ = Some hand
    /\ determine_focus hand (common game)
         (List.map order (clueTouched hand c (state_suits (state game)))) = Ok focus
    /\ order (focus_card focus) = order target_card
    /\ options = Some opts
    /\ (opt_save opts = false -> clue_safe game (me game) c = Ok true)
    /\ (remainder r = 0%Q
        \/ (chop focus = true
            /\ (clue_safe game (me game) c = Ok false \/ clue_tokens (state game) <= 2))).

Lemma consider_checked (game : Game) (target_ : Z) (target_card : Card)
    (options : option ClueOptions) (c c' : Clue) (r : ClueResult) :
  consider game target_ target_card options (at_ (hands (state game)) target_) c
  = Ok (Some (c', r)) ->
  c' = c /\ checked game target_ target_card options c r.
Proof.
  unfold consider, checked.
  destruct (at_ (hands (state game)) target_) as [hand|]; [|discriminate].
  destruct (determine_focus hand (common game) _) as [focus|m] eqn:Hfocus; cbn [Js.bind];
    [|discriminate].
  destruct (order (focus_card focus) =? order target_card) eqn:Horder; cbn [negb];
    [|discriminate].
  apply Z.eqb_eq in Horder.
  destruct options as [opts|]; [|discriminate].
  destruct (opt_save opts) eqn:Hsave.
  - cbn [Js.bind].
    destruct (bad_touch_cards_of game _) as [bad|m]; cbn [Js.bind]; [|discriminate].
    destruct (evaluate_clue game _ target_ target_card bad) as [[hypo_game|]|m];
      cbn [Js.bind]; try discriminate.
    destruct (get_result game hypo_game c _) as [res|m]; cbn [Js.bind]; [|discriminate].
    destruct (chop focus) eqn:Hchop.
    + destruct (clue_safe game (me game) c) as [safe|m] eqn:Hclue; cbn [Js.bind];
        [|discriminate].
      intros Hsome. injection Hsome as <- <-. split; [reflexivity |].
      exists hand, focus, opts. repeat (split; [assumption || reflexivity |]).
      split; [intros Hbad; congruence |].
      cbn [with_remainder remainder]. destruct safe; cbn [negb orb].
      * destruct (Z.leb_spec (clue_tokens (state game)) 2) as [Hle | Hgt].
        -- right. split; [exact Hchop | right; exact Hle].
        -- left. reflexivity.
      * right. split; [exact Hchop | left; reflexivity].
    + cbn [Js.bind]. intros Hsome. injection Hsome as <- <-. split; [reflexivity |].
      exists hand, focus, opts. repeat (split; [assumption || reflexivity |]).
      split; [intros Hbad; congruence | left; reflexivity].
  - destruct (clue_safe game (me game) c) as [[|]|m] eqn:Hclue; cbn [Js.bind negb];
      try discriminate.
    destruct (bad_touch_cards_of game _) as [bad|m]; cbn [Js.bind]; [|discriminate].
    destruct (evaluate_clue game _ target_ target_card bad) as [[hypo_game|]|m];
      cbn [Js.bind]; try discriminate.
    destruct (get_result game hypo_game c _) as [res|m]; cbn [Js.bind]; [|discriminate].
    destruct (chop focus) eqn:Hchop; cbn [Js.bind negb orb];
      intros Hsome; injection Hsome as <- <-; (split; [reflexivity |]);
      exists hand, focus, opts; repeat (split; [assumption || reflexivity |]);
      cbn [with_remainder remainder].
    + destruct (Z.leb_spec (clue_tokens (state game)) 2) as [Hle | Hgt].
      * right. split; [exact Hchop | right; exact Hle].
      * left. reflexivity.
    + left. reflexivity.
Qed.

Lemma consider_all_checked (game : Game) (target_ : Z) (target_card : Card)
    (options : option ClueOptions) (possible_clues : list Clue) :
  forall results,
    consider_all game target_ target_card options (at_ (hands (state game)) target_)
      possible_clues = Ok results ->
    forall c r, In (c, r) results ->
      In c possible_clues /\ checked game target_ target_card options c r.
Proof.
  induction possible_clues as [|c0 rest IH]; intros results Hall c r Hin.
  - injection Hall as <-. destruct Hin.
  - cbn [consider_all] in Hall.
    destruct (consider game target_ target_card options _ c0) as [entry|m] eqn:Hone;
      cbn [Js.bind] in Hall; [|discriminate Hall].
    destruct (consider_all game target_ target_card options _ rest) as [others|m];
      cbn [Js.bind] in Hall; [|discriminate Hall].
    injection Hall as <-.
    assert (Hrest : In (c, r) others ->
                    In c (c0 :: rest) /\ checked game target_ target_card options c r).
    { intros Hothers. destruct (IH others eq_refl c r Hothers) as [Hc Hchecked].
      split; [right; exact Hc | exact Hchecked]. }
    destruct entry as [[c' r']|]; [|exact (Hrest Hin)].
    destruct Hin as [Heq | Hin]; [|exact (Hrest Hin)].
    injection Heq as -> ->. destruct (consider_checked _ _ _ _ _ _ _ Hone) as [-> Hchecked].
    split; [left; reflexivity | exact Hchecked].
Qed.

(** X27: The clue that [determine_clue] returns is one of the direct clues of the
    target card, and it passed the checks of the loop: it focuses the target
    card, it is safe unless a save was asked for, and its remainder is 0
    unless the focus is on chop and the clue is unsafe or clue tokens are
    short. *)
Theorem determine_clue_returns_checked (game : Game) (target_ : Z) (target_card : Card)
    (options : option ClueOptions) (best : ResultClue) :
  determine_clue game target_ target_card options = Ok (Some best) ->
  exists c,
    (type c, value c, clue_target c) = (rc_type best, rc_value best, rc_target best)
    /\ In c (direct_clues (state_suits (state game)) target_ target_card options)
    /\ checked game target_ target_card options c (result best).
Proof.
  unfold determine_clue.
  destruct (consider_all game target_ target_card options _ _) as [results|m] eqn:Hall;
    cbn [Js.bind]; [|discriminate].
  destruct (maxOn _ results) as [[c r]|] eqn:Hmax; [|discriminate].
  intros Hbest. injection Hbest as <-. cbn [rc_type rc_value rc_target result].
  apply DetermineClueFacts.maxOn_In in Hmax.
  destruct (consider_all_checked _ _ _ _ _ results Hall c r Hmax) as [Hin Hchecked].
  exists c. split; [reflexivity |]. split; assumption.
Qed.

(** The focus of the clue can be determined, and [hit] says whether it is
    the target card. *)
Definition focus_known (game : Game) (hand : list Card) (target_card : Card) (c : Clue)
    (hit : bool) : Prop :=
  exists focus,
    determine_focus hand (common game)
      (List.map order (clueTouched hand c (state_suits (state game)))) = Ok focus
    /\ (order (focus_card focus) =? order target_card) = hit.

(** X28: Called without options, [determine_clue] throws a TypeError as soon as
    one of the direct clues focuses the target card: the loop reads
    [options.save]. *)
Theorem determine_clue_without_options (game : Game) (target_ : Z) (target_card : Card)
    (hand : list Card) (c : Clue) :
  at_ (hands (state game)) target_ = Some hand ->
  (forall c', In c' (direct_clues (state_suits (state game)) target_ target_card None) ->
     exists hit, focus_known game hand target_card c' hit) ->
  In c (direct_clues (state_suits (state game)) target_ target_card None) ->
  focus_known game hand target_card c true ->
  determine_clue game target_ target_card None = Throw TypeError.
Proof.
  intros Hhand Hall Hin Hhit. unfold determine_clue. rewrite Hhand.
  assert (Hthrow : consider_all game target_ target_card None (Some hand)
                     (direct_clues (state_suits (state game)) target_ target_card None)
                   = Throw TypeError).
  { revert Hall Hin.
    generalize (direct_clues (state_suits (state game)) target_ target_card None).
    intros l. induction l as [|c0 rest IH]; intros Hall Hin; [destruct Hin |].
    cbn [consider_all]. destruct (Hall c0 (or_introl eq_refl)) as (hit & focus & Hfocus & Horder).
    unfold consider at 1. rewrite Hfocus. cbn [Js.bind]. rewrite Horder.
    destruct hit; cbn [negb Js.bind]; [reflexivity |].
    destruct Hin as [-> | Hin].
    - destruct Hhit as (focus' & Hfocus' & Horder').
      rewrite Hfocus in Hfocus'. injection Hfocus' as <-. congruence.
    - rewrite (IH (fun c' Hc' => Hall c' (or_intror Hc')) Hin). reflexivity. }
  rewrite Hthrow. reflexivity.
Qed.

(** X29: When every direct clue focuses another card than the target card,
    [determine_clue] returns no clue, whatever the options. *)
Theorem determine_clue_no_focus (game : Game) (target_ : Z) (target_card : Card)
    (options : option ClueOptions) (hand : list Card) :
  at_ (hands (state game)) target_ = Some hand ->
  (forall c, In c (direct_clues (state_suits (state game)) target_ target_card options) ->
     focus_known game hand target_card c false) ->
  determine_clue game target_ target_card options = Ok None.
Proof.
  intros Hhand Hall. unfold determine_clue. rewrite Hhand.
  assert (Hnone : consider_all game target_ target_card options (Some hand)
                    (direct_clues (state_suits (state game)) target_ target_card options)
                  = Ok []).
  { revert Hall.
    generalize (direct_clues (state_suits (state game)) target_ target_card options).
    intros l. induction l as [|c0 rest IH]; intros Hall; [reflexivity |].
    cbn [consider_all]. destruct (Hall c0 (or_introl eq_refl)) as (focus & Hfocus & Horder).
    unfold consider at 1. rewrite Hfocus. cbn [Js.bind]. rewrite Horder. cbn [negb Js.bind].
    rewrite (IH (fun c' Hc' => Hall c' (or_intror Hc'))). reflexivity. }
  rewrite Hnone. reflexivity.
Qed.

End Candidates.

Definition elsewhere : Card :=
  mkCard (mkId 0 2) 5 true false false false false false false 5 [] [] [].

Definition plain_options : option ClueOptions := Some (mkClueOptions false false false).

Lemma determine_clue_returns_checked_witness :
  exists c,
    (type c, value c, clue_target c)
    = (rc_type DetermineClueFacts.OneCard.best, rc_value DetermineClueFacts.OneCard.best,
       rc_target DetermineClueFacts.OneCard.best)
    /\ In c (direct_clues (ClueApi := DetermineClueFacts.OneCard.simple)
               (state_suits (state DetermineClueFacts.OneCard.game)) 1
               DetermineClueFacts.OneCard.bobs_card plain_options)
    /\ checked (H0 := DetermineClueFacts.OneCard.simple) DetermineClueFacts.OneCard.game 1
         DetermineClueFacts.OneCard.bobs_card plain_options c
         (result DetermineClueFacts.OneCard.best).
Proof.
  apply (determine_clue_returns_checked (H := PlainCards.plain_api)
           (H0 := DetermineClueFacts.OneCard.simple) DetermineClueFacts.OneCard.game 1
           DetermineClueFacts.OneCard.bobs_card plain_options DetermineClueFacts.OneCard.best).
  vm_compute. reflexivity.
Defined.

Lemma determine_clue_without_options_witness :
  determine_clue (H := PlainCards.plain_api) (H0 := DetermineClueFacts.OneCard.simple)
    DetermineClueFacts.OneCard.game 1 DetermineClueFacts.OneCard.bobs_card None
  = Throw TypeError.
Proof.
  apply (determine_clue_without_options (H := PlainCards.plain_api)
           (H0 := DetermineClueFacts.OneCard.simple) DetermineClueFacts.OneCard.game 1
           DetermineClueFacts.OneCard.bobs_card [DetermineClueFacts.OneCard.bobs_card]
           (mkClue COLOUR 0 1)).
  - reflexivity.
  - intros c' _. exists true, (mkFocus DetermineClueFacts.OneCard.bobs_card true).
    split; reflexivity.
  - left. reflexivity.
  - exists (mkFocus DetermineClueFacts.OneCard.bobs_card true). split; reflexivity.
Defined.

Lemma determine_clue_no_focus_witness :
  determine_clue (H := PlainCards.plain_api) (H0 := DetermineClueFacts.OneCard.simple)
    DetermineClueFacts.OneCard.game 1 elsewhere plain_options
  = Ok None.
Proof.
  apply (determine_clue_no_focus (H := PlainCards.plain_api)
           (H0 := DetermineClueFacts.OneCard.simple) DetermineClueFacts.OneCard.game 1
           elsewhere plain_options [DetermineClueFacts.OneCard.bobs_card]).
  - reflexivity.
  - intros c _. exists (mkFocus DetermineClueFacts.OneCard.bobs_card true).
    split; reflexivity.
Defined.

End DetermineClueMore.

(** ** More facts about the copies of playful-sieve.js *)
Module PlayfulSieveMore.
Import PlayfulSieveJs.

Section Chain.
Context `{StateJs}.

(** [n] nested copies: each [minimalCopy] is called on the copy that the
    previous call returned. *)
Fixpoint copy_chain (n : nat) (this : nat) (store : Store) : Res (nat * Store) :=
  match n with
  | O => Ok (this, store)
  | S n' =>
      let* copy := minimalCopy this store in
      copy_chain n' (fst copy) (snd copy)
  end.

(** X30: Copies can be nested until the copy depth is 4, and no further: from an
    object of copy depth [d], [n] nested copies succeed when [d + n <= 4],
    the last one has copy depth [d + n], and every object that existed
    before is untouched; with [d + n > 4] the chain throws "Maximum
    recursive depth reached.". *)
Theorem minimalCopy_chain (n : nat) :
  forall (store : Store) (this : nat) (self : Sieve),
    store !! this = Some self ->
    (copyDepth self + Z.of_nat n <= 4 ->
     exists last store' copied,
       copy_chain n this store = Ok (last, store')
       /\ store' !! last = Some copied
       /\ copyDepth copied = copyDepth self + Z.of_nat n
       /\ length store' = (length store + n)%nat
       /\ forall other o, store !! other = Some o -> store' !! other = Some o)
    /\ (4 < copyDepth self + Z.of_nat n -> (0 < n)%nat ->
        copy_chain n this store = Throw max_depth_reached).
Proof.
  induction n as [|n IH]; intros store this self Hself.
  - split; [|intros _ Hpos; lia].
    intros _. exists this, store, self. cbn [copy_chain].
    split; [reflexivity |]. split; [exact Hself |]. split; [lia |]. split; [lia |].
    intros other o Hother. exact Hother.
  - cbn [copy_chain]. unfold minimalCopy at 1 2. rewrite Hself.
    destruct (3 <? copyDepth self) eqn:Hdepth.
    + apply Z.ltb_lt in Hdepth. split; [intros Hle; lia | reflexivity].
    + apply Z.ltb_ge in Hdepth. cbn [Js.bind fst snd].
      match goal with
      | |- context [copy_chain n (length store) (store ++ [?c])] => set (copied := c)
      end.
      assert (Hcopied : (store ++ [copied]) !! length store = Some copied)
        by (apply list_lookup_middle; reflexivity).
      assert (Hcopy_depth : copyDepth copied = copyDepth self + 1) by reflexivity.
      destruct (IH (store ++ [copied]) (length store) copied Hcopied) as [Hfits Hdeep].
      split.
      * intros Hle.
        destruct Hfits as (last & store' & final & Hrun & Hlast & Hd & Hlen & Hkept); [lia |].
        exists last, store', final. split; [exact Hrun |]. split; [exact Hlast |].
        split; [lia |]. split; [rewrite Hlen, length_app; cbn [length]; lia |].
        intros other o Hother. apply Hkept. apply lookup_app_l_Some. exact Hother.
      * intros Hgt _. apply Hdeep; lia.
Qed.

End Chain.

Lemma minimalCopy_chain_witness :
  exists last store' copied,
    copy_chain (H := PlayfulSieveFacts.zero_state) 4 0 [PlayfulSieveFacts.fresh_game]
    = Ok (last, store')
    /\ store' !! last = Some copied
    /\ copyDepth copied = copyDepth PlayfulSieveFacts.fresh_game + Z.of_nat 4
    /\ length store' = (length [PlayfulSieveFacts.fresh_game] + 4)%nat
    /\ forall other o, [PlayfulSieveFacts.fresh_game] !! other = Some o ->
                       store' !! other = Some o.
Proof.
  apply (proj1 (minimalCopy_chain (H := PlayfulSieveFacts.zero_state) 4
                  [PlayfulSieveFacts.fresh_game] 0 PlayfulSieveFacts.fresh_game eq_refl)).
  cbn. lia.
Defined.

End PlayfulSieveMore.
